(** * Fisher-information curvature of maximum-entropy spin models

    A shallow embedding of the index service, the perturbation model, the
    linearized perturbation solver and the Hessian assembly of [fim.py] and
    [large_fim.py], and the properties of the specification checked on it.
    The development also embeds the correlation caches, the perturbations
    of single spins and of the means, the step searches of the curvature
    estimators, saving and restoring a solver, the energy functions and
    the transition matrix of a spin replacement, with the properties that
    the code itself shows.

    Conventions.
    - Python and numba integers are [Z]; numba's [int64] results are reduced
      with [int64].
    - [float64] is Rocq's primitive binary64 type [float] wherever a float
      decides a discrete result (an index, a guard, an error flag).  Where a
      property is an algebraic identity on array entries, entries range over
      a numeric interface [Num] with an exact instance ([Q]) and a binary64
      instance ([float]).
    - A Python call that can raise returns [result]. *)

From Stdlib Require Import ZArith QArith Qabs Bool Lia Lqa Floats Uint63 String Ascii.
From stdpp Require Import base list gmap.

Set Default Proof Using "Type".
Local Open Scope Z_scope.

(** ** Exceptions and results *)

Inductive exn : Type :=
| AssertionError
| Exception
| IndexError
| ValueError
| OverflowError
| KeyError
| TypeError
| ModuleNotFoundError
| AttributeError
| RecursionError
| LinAlgError.

Inductive result (A : Type) : Type :=
| Ok (a : A)
| Raise (e : exn).
Arguments Ok {A} a.
Arguments Raise {A} e.

#[global] Instance result_ret : MRet result := fun A a => Ok a.

#[global] Instance result_bind : MBind result := fun A B k c =>
  match c with
  | Ok a => k a
  | Raise e => Raise e
  end.

(** [assert c] *)
Definition py_assert (c : bool) : result unit :=
  if c then Ok tt else Raise AssertionError.

(** A [for] loop whose body can raise. *)
Fixpoint foldM {A B : Type} (f : A -> B -> result A) (acc : A) (l : list B) : result A :=
  match l with
  | [] => Ok acc
  | x :: l' => acc' ← f acc x; foldM f acc' l'
  end.

(** [range(a, b)] and [range(b)] *)
Definition py_range (a b : Z) : list Z :=
  map (fun k => a + Z.of_nat k) (seq 0 (Z.to_nat (b - a))).

Definition range (b : Z) : list Z := py_range 0 b.

(** Indexing a sequence of length [len] with a Python integer: negative
    indices count from the end, anything else out of range raises. *)
Definition norm_index (len : nat) (i : Z) : result nat :=
  if (0 <=? i) && (i <? Z.of_nat len) then Ok (Z.to_nat i)
  else if (- Z.of_nat len <=? i) && (i <? 0) then Ok (Z.to_nat (i + Z.of_nat len))
  else Raise IndexError.

Definition getitem {A : Type} (l : list A) (i : Z) : result A :=
  k ← norm_index (length l) i;
  match l !! k with
  | Some x => Ok x
  | None => Raise IndexError
  end.

Definition setitem {A : Type} (l : list A) (i : Z) (x : A) : result (list A) :=
  k ← norm_index (length l) i;
  Ok (<[k:=x]> l).

(** numba's [int64]: two's complement wrap-around. *)
Definition int64 (z : Z) : Z := (z + 2 ^ 63) mod 2 ^ 64 - 2 ^ 63.

(** ** binary64 helpers *)

(** Conversion of an [int64] to [float64]; exact below [2^53]. *)
Definition Z2F (z : Z) : float :=
  if z <? 0 then PrimFloat.opp (PrimFloat.of_uint63 (Uint63.of_Z (- z)))
  else PrimFloat.of_uint63 (Uint63.of_Z z).

(** [int(x)] on a float: truncation toward zero; NaN and infinities raise. *)
Definition int_of_float (x : float) : result Z :=
  match Prim2SF x with
  | S754_zero _ => Ok 0
  | S754_finite s m e =>
      let v := if 0 <=? e then Z.pos m * 2 ^ e else Z.pos m / 2 ^ (- e) in
      Ok (if s then - v else v)
  | S754_infinity _ => Raise OverflowError
  | S754_nan => Raise ValueError
  end.

(** ** Combinatorial index service ([fim.py], JIT functions) *)

Module Index.

(** [delete(X, i)]: [X] without its [i]-th element. *)
Fixpoint delete_from {A : Type} (j : Z) (X : list A) (i : Z) : list A :=
  match X with
  | [] => []
  | x :: X' =>
      if i =? j then delete_from (j + 1) X' i
      else x :: delete_from (j + 1) X' i
  end.

Definition delete {A : Type} (X : list A) (i : Z) : list A := delete_from 0 X i.

(** [factorial(x)]: [f = 1.; while x>0: f *= x; x -= 1].  The loop runs
    [max x 0] times, which is the fuel given to it. *)
Fixpoint factorial_loop (fuel : nat) (f : float) (x : Z) : float :=
  match fuel with
  | O => f
  | S fuel' =>
      if 0 <? x then factorial_loop fuel' (f * Z2F x)%float (x - 1) else f
  end.

Definition factorial (x : Z) : float := factorial_loop (Z.to_nat x) 1%float x.

(** [binom(n,k)] *)
Definition binom (n k : Z) : float :=
  (factorial n / factorial (n - k) / factorial k)%float.

(** [jit_all(x)] *)
Definition jit_all (x : list bool) : bool := forallb id x.

(** [[ijk[i]<ijk[i+1] for i in range(len(ijk)-1)]] *)
Fixpoint increasing_flags (ijk : list Z) : list bool :=
  match ijk with
  | a :: (b :: _) as tl => (a <? b) :: increasing_flags tl
  | _ => []
  end.

(** [np.sum(np.array([int(binom(n-i-1, r)) for i in range(a, b)]))] *)
Definition binom_sum (n r a b : Z) : result Z :=
  terms ← mapM (fun i => int_of_float (binom (n - i - 1) r)) (py_range a b);
  Ok (int64 (fold_left Z.add terms 0)).

(** The loop [for d in range(1, len(ijk)-1)] of [unravel_index]. *)
Fixpoint unravel_loop (ijk : list Z) (n : Z) (ds : list Z) (ix : Z) : result Z :=
  match ds with
  | [] => Ok ix
  | d :: ds' =>
      cur ← getitem ijk d;
      prev ← getitem ijk (d - 1);
      ix' ← (if 1 <? cur - prev
              then s ← binom_sum n (Z.of_nat (length ijk) - d - 1) (prev + 1) cur;
                   Ok (int64 (ix + s))
              else Ok ix);
      unravel_loop ijk n ds' ix'
  end.

(** [unravel_index(ijk, n)] *)
Definition unravel_index (ijk : list Z) (n : Z) : result Z :=
  let len := Z.of_nat (length ijk) in
  if len =? 1 then Raise Exception else
  py_assert (jit_all (increasing_flags ijk));;
  py_assert (jit_all (map (fun i => i <? n) ijk));;
  first ← getitem ijk 0;
  ix ← binom_sum n (len - 1) 0 first;
  ix ← unravel_loop ijk n (py_range 1 (len - 1)) ix;
  last ← getitem ijk (-1);
  last2 ← getitem ijk (-2);
  Ok (int64 (ix + (last - last2 - 1))).

(** [itertools.combinations(l, k)], in the order Python yields them. *)
Fixpoint combinations {A : Type} (l : list A) (k : nat) : list (list A) :=
  match k with
  | O => [[]]
  | S k' =>
      match l with
      | [] => []
      | x :: l' => map (cons x) (combinations l' k') ++ combinations l' k
      end
  end.

(** [for i,j in combinations(l,2)]: the 2-tuples, unpacked. *)
Definition as_pair {A : Type} (t : list A) : option (A * A) :=
  match t with
  | [a; b] => Some (a, b)
  | _ => None
  end.

Definition pairs_of {A : Type} (l : list A) : list (A * A) :=
  omap as_pair (combinations l 2).

(** The position of the pair (i,j), i<j, among the pairs over [0,n) in
    closed form: the pairs that start below [i], then those from [i] to
    below [j]. *)
Definition pair_rank (n i j : Z) : Z := i * (2 * n - i - 1) / 2 + (j - i - 1).

(** Position of a tuple in an enumeration. *)
Fixpoint position (t : list Z) (ts : list (list Z)) : option Z :=
  match ts with
  | [] => None
  | u :: ts' =>
      if decide (t = u) then Some 0
      else option_map Z.succ (position t ts')
  end.

End Index.

(** ** Numeric interface

    The array code is the same for [float64] arrays and for the
    arbitrary-precision objects of the high-precision estimator; it is
    written once over [Num]. *)

Class Num (F : Type) : Type := {
  of_Z : Z -> F;
  add : F -> F -> F;
  sub : F -> F -> F;
  mul : F -> F -> F;
  div : F -> F -> F;
  absF : F -> F;
  ltb : F -> F -> bool;
  eqb : F -> F -> bool;
  isnan : F -> bool;
  isinf : F -> bool
}.

Declare Scope num_scope.
Delimit Scope num_scope with num.
Infix "+" := add : num_scope.
Infix "-" := sub : num_scope.
Infix "*" := mul : num_scope.
Infix "/" := div : num_scope.
Infix "<?" := ltb : num_scope.
Infix "=?" := eqb : num_scope.

(** Exact rationals: no NaN, no infinity. *)
#[global] Instance Num_Q : Num Q := {|
  of_Z := inject_Z;
  add := Qplus;
  sub := Qminus;
  mul := Qmult;
  div := Qdiv;
  absF := Qabs;
  ltb := fun x y => negb (Qle_bool y x);
  eqb := Qeq_bool;
  isnan := fun _ => false;
  isinf := fun _ => false
|}.

(** IEEE 754 binary64. *)
#[global] Instance Num_float : Num float := {|
  of_Z := Z2F;
  add := PrimFloat.add;
  sub := PrimFloat.sub;
  mul := PrimFloat.mul;
  div := PrimFloat.div;
  absF := PrimFloat.abs;
  ltb := PrimFloat.ltb;
  eqb := PrimFloat.eqb;
  isnan := PrimFloat.is_nan;
  isinf := PrimFloat.is_infinity
|}.

(** [x or default] on an optional float argument: [None] and [0.0] are
    both falsy. *)
Definition or_default `{Num F} (x : option F) (default : F) : F :=
  match x with
  | Some e => if (e =? (of_Z 0))%num then default else e
  | None => default
  end.

(** ** Perturbation model *)

Module Perturb.
Section Perturb.
Context `{Num F}.
Local Open Scope num_scope.

(** The index of the unordered pair {i,j}: the [if i<j ... else ...] around
    every call of [unravel_index]. *)
Definition pair_index (n i j : Z) : result Z :=
  if (i <? j)%Z then Index.unravel_index [i; j] n
  else Index.unravel_index [j; i] n.

(** The update rule of the mean-matching perturbation for one entry, with
    [other] the value it is pulled towards. *)
Definition mean_matching_entry (minus : bool) (eps cur other : F) : F :=
  cur - eps * (if minus then cur + other else cur - other).

(** One iteration of the loop over [j] in
    [jit_observables_after_perturbation_plus] ([sign = false]) and
    [jit_observables_after_perturbation_minus] ([sign = true]). *)
Definition jit_step (minus : bool) (n : Z) (osisj : list F) (i a : Z) (eps : F)
    (sisj : list F) (j : Z) : result (list F) :=
  let comb x y := if minus then x + y else x - y in
  ijix ← pair_index n i j;
  if (j =? a)%Z then
    cur ← getitem sisj ijix;
    setitem sisj ijix (cur - eps * comb cur (of_Z 1))
  else
    jaix ← pair_index n j a;
    cur ← getitem sisj ijix;
    old ← getitem osisj jaix;
    setitem sisj ijix (cur - eps * comb cur old).

Definition jit_perturb (minus : bool) (n : Z) (si sisj : list F) (i a : Z) (eps : F)
    : result (list F * list F) :=
  let comb x y := if minus then x + y else x - y in
  let osisj := sisj in
  si_i ← getitem si i;
  si_a ← getitem si a;
  si' ← setitem si i (si_i - eps * comb si_i si_a);
  sisj' ← foldM (jit_step minus n osisj i a eps) sisj (Index.delete (range n) i);
  Ok (si', sisj').

(** [jit_observables_after_perturbation_plus(n, si, sisj, i, a, eps)]; the
    arrays are updated in place, the model returns their final contents. *)
Definition jit_observables_after_perturbation_plus := jit_perturb false.

(** [jit_observables_after_perturbation_minus(n, si, sisj, i, a, eps)] *)
Definition jit_observables_after_perturbation_minus := jit_perturb true.

(** The static methods [_observables_after_perturbation_up] and
    [_observables_after_perturbation_down] of [IsingFisherCurvatureMethod2]
    (and of [Coupling]); they read and write [sisj] in place. *)
Definition static_step (minus : bool) (n : Z) (i a : Z) (eps : F)
    (sisj : list F) (j : Z) : result (list F) :=
  let comb x y := if minus then x + y else x - y in
  ijix ← pair_index n i j;
  if (j =? a)%Z then
    cur ← getitem sisj ijix;
    setitem sisj ijix (of_Z 1 - eps * comb cur (of_Z 1))
  else
    jaix ← pair_index n j a;
    cur ← getitem sisj ijix;
    other ← getitem sisj jaix;
    setitem sisj ijix (of_Z 1 - eps * comb cur other).

Definition static_perturb (minus : bool) (si sisj : list F) (i a : Z) (eps : F)
    : result (list F * list F) :=
  let comb x y := if minus then x + y else x - y in
  let n := Z.of_nat (length si) in
  si_i ← getitem si i;
  si_a ← getitem si a;
  si' ← setitem si i (of_Z 1 - eps * comb si_i si_a);
  sisj' ← foldM (static_step minus n i a eps) sisj (Index.delete (range n) i);
  Ok (si', sisj').

Definition _observables_after_perturbation_up := static_perturb false.
Definition _observables_after_perturbation_down := static_perturb true.

(** [jit_observables_after_perturbation_plus_field] ([minus = false]) and
    [jit_observables_after_perturbation_minus_field] ([minus = true]). *)
Definition field_step (minus : bool) (n : Z) (si : list F) (i : Z) (eps : F)
    (sisj : list F) (j : Z) : result (list F) :=
  let comb x y := if minus then x + y else x - y in
  ijix ← pair_index n i j;
  cur ← getitem sisj ijix;
  sj ← getitem si j;
  setitem sisj ijix (cur - eps * comb cur sj).

Definition field_perturb (minus : bool) (n : Z) (si sisj : list F) (i : Z) (eps : F)
    : result (list F * list F) :=
  let comb x y := if minus then x + y else x - y in
  si_i ← getitem si i;
  si' ← setitem si i (si_i - eps * comb si_i (of_Z 1));
  sisj' ← foldM (field_step minus n si' i eps) sisj (Index.delete (range n) i);
  Ok (si', sisj').

Definition jit_observables_after_perturbation_plus_field := field_perturb false.
Definition jit_observables_after_perturbation_minus_field := field_perturb true.

End Perturb.
End Perturb.

(** ** Linearized perturbation solver ([fim.py]) *)

Module Solver.

Local Open Scope num_scope.

(** The attributes of a model object that the solver reads. *)
Record Model : Type := {
  self_n : Z;
  self_kStates : Z;
  self_eps : float;
  self_hJ : list float;
  self_n_cpus : option Z;
  self_sisj : list float;
  self_p : list float;
  self_allStates : list (list Z);
  self_coarseUix : list Z;
  self_coarseInvix : list Z;
  self_triplets : gmap (Z * Z * Z) (list Z);
  self_quartets : gmap (Z * Z * Z * Z) (list Z);
  self_dJ : list (list float)
}.

(** What a solve returns: [dJ, errflag], then [(A, C)] under [full_output],
    then [relerr] where the variant returns it. *)
Record SolveOut : Type := {
  out_dJ : list float;
  out_errflag : Z;
  out_AC : option (list (list float) * list float);
  out_relerr : option (list float)
}.

(** [for count,(k,l) in enumerate(combinations(range(n),2))] *)
Definition pairs (n : Z) : list (Z * Z) := Index.pairs_of (range n).

Definition enumerate {A : Type} (l : list A) : list (Z * A) :=
  imap (fun k x => (Z.of_nat k, x)) l.

(** [np.prod(self.allStates[:,cols],1)] *)
Definition column_product (allStates : list (list Z)) (cols : list Z) : result (list Z) :=
  mapM (fun row => vals ← mapM (getitem row) cols; Ok (fold_left Z.mul vals 1%Z)) allStates.

(** [_triplets_and_quartets] of [IsingFisherCurvatureMethod1]: the two
    dictionaries, filled in the order of the loops. *)
Definition _triplets_and_quartets (n : Z) (allStates : list (list Z))
    : result (gmap (Z * Z * Z) (list Z) * gmap (Z * Z * Z * Z) (list Z)) :=
  t1 ← foldM (fun tr i =>
          foldM (fun tr '(j, k) =>
             v ← column_product allStates [i; j; k];
             Ok (<[(i, j, k) := v]> tr)) tr (pairs n))
        (∅ : gmap (Z * Z * Z) (list Z)) (range n);
  foldM (fun '(tr, qu) '(i, j) =>
     tr' ← foldM (fun tr k =>
             v ← column_product allStates [i; j; k];
             Ok (<[(i, j, k) := v]> tr)) tr (range n);
     qu' ← foldM (fun qu '(k, l) =>
             v ← column_product allStates [i; j; k; l];
             Ok (<[(i, j, k, l) := v]> qu)) qu (pairs n);
     Ok (tr', qu'))
    (t1, (∅ : gmap (Z * Z * Z * Z) (list Z))) (pairs n).

(** [d[key]] *)
Definition dict_get `{Countable K} {V : Type} (d : gmap K V) (key : K) : result V :=
  match d !! key with
  | Some v => Ok v
  | None => Raise KeyError
  end.

(** [v.dot(p)] for an [int8] vector and a float vector. *)
Definition dot (v : list Z) (p : list float) : result float :=
  if (Z.of_nat (length v) =? Z.of_nat (length p))%Z
  then Ok (fold_left (fun acc '(s, x) => acc + (of_Z s) * x) (zip v p) (of_Z 0))
  else Raise ValueError.

(** The matrix [A], row by row: every cell of [A] is assigned once by the
    loops of the solver, the mean constraints first, the pair constraints
    after them. *)
Definition mean_row (self : Model) (si sisj p C : list float) (i : Z)
    : result (list float) :=
  let n := self_n self in
  left ← mapM (fun k =>
            Ci ← getitem C i;
            if (i =? k)%Z then
              si_i ← getitem si i; Ok (of_Z 1 - Ci * si_i)
            else
              ikix ← Perturb.pair_index n i k;
              s ← getitem sisj ikix;
              sk ← getitem si k;
              Ok (s - Ci * sk)) (range n);
  right ← mapM (fun '(klcount, (k, l)) =>
            t ← dict_get (self_triplets self) (i, k, l);
            d ← dot t p;
            Ci ← getitem C i;
            s ← getitem sisj klcount;
            Ok (d - Ci * s)) (enumerate (pairs n));
  Ok (left ++ right).

Definition pair_row (self : Model) (si sisj p C : list float)
    (ijcount : Z) (i j : Z) : result (list float) :=
  let n := self_n self in
  left ← mapM (fun k =>
            t ← dict_get (self_triplets self) (i, j, k);
            d ← dot t p;
            Cij ← getitem C (n + ijcount);
            sk ← getitem si k;
            Ok (d - Cij * sk)) (range n);
  right ← mapM (fun '(klcount, (k, l)) =>
            q ← dict_get (self_quartets self) (i, j, k, l);
            d ← dot q p;
            Cij ← getitem C (n + ijcount);
            s ← getitem sisj klcount;
            Ok (d - Cij * s)) (enumerate (pairs n));
  Ok (left ++ right).

Definition assemble_A (self : Model) (si sisj p C : list float)
    : result (list (list float)) :=
  let n := self_n self in
  means ← mapM (mean_row self si sisj p C) (range n);
  prs ← mapM (fun '(ijcount, (i, j)) => pair_row self si sisj p C ijcount i j)
          (enumerate (pairs n));
  Ok (means ++ prs).

(** [C -= self.sisj] *)
Definition vsub (x y : list float) : result (list float) :=
  if (Z.of_nat (length x) =? Z.of_nat (length y))%Z
  then Ok (zip_with sub x y)
  else Raise ValueError.

(** The arguments [p=None, sisj=None]: the model's own arrays by default. *)
Definition split_moments (self : Model) (sisj : option (list float))
    : list float * list float :=
  let n := Z.to_nat (self_n self) in
  match sisj with
  | None => (take n (self_sisj self), drop n (self_sisj self))
  | Some v => (take n v, drop n v)
  end.

Section Numpy.

(** [numpy.linalg.solve], [numpy.linalg.lstsq(..)[0]], [numpy.linalg.cond]
    and [numpy.log10]. *)
Variable linalg_solve : list (list float) -> list float -> result (list float).
Variable linalg_lstsq : list (list float) -> list float -> list float.
Variable linalg_cond : list (list float) -> float.
Variable log10 : float -> float.

(** [np.log10(np.abs(dJ-dJtwiceEps))-np.log10(np.abs(dJ))] *)
Definition relative_error (dJ dJtwiceEps : list float) : list float :=
  zip_with (fun d d2 => log10 (absF (d - d2)) - log10 (absF d)) dJ dJtwiceEps.

(** [(relerr>-3).any()] *)
Definition unstable (relerr : list float) : bool :=
  existsb (fun r => (of_Z (-3)) <? r) relerr.

(** [np.linalg.cond(A)>1e15] *)
Definition badly_conditioned (A : list (list float)) : bool :=
  (of_Z (10 ^ 15)) <? linalg_cond A.

(** [dJ = np.linalg.solve(A,C)/eps] inside [try ... except
    np.linalg.LinAlgError: dJ = np.zeros(C.size)+np.nan] *)
Definition solve_or_nan (A : list (list float)) (C : list float) (eps : float)
    : result (list float) :=
  match linalg_solve A C with
  | Ok x => Ok (map (fun v => v / eps) x)
  | Raise LinAlgError => Ok (map (fun _ => (of_Z 0) + PrimFloat.nan) C)
  | Raise e => Raise e
  end.

(** *** [IsingFisherCurvatureMethod1] *)

(** [observables_after_perturbation(self, i, eps)] for one spin. *)
Definition Method1_observables_after_perturbation (self : Model) (i : Z)
    (eps : option float) : result (list float * bool) :=
  let eps := or_default eps (self_eps self) in
  let '(si, sisj) := split_moments self None in
  '(siNew, sisjNew) ←
     Perturb.jit_observables_after_perturbation_minus_field (self_n self) si sisj i eps;
  let perturb_up := false in
  Ok (siNew ++ sisjNew, perturb_up).

(** The body of [solve_linearized_perturbation]; [rec] is the method itself,
    called for the stability check. *)
Definition Method1_solve_body
    (rec : Model -> Z -> option (list float) -> option (list float) -> bool ->
           option float -> bool -> string -> result SolveOut)
    (self : Model) (iStar : Z) (p sisj : option (list float)) (full_output : bool)
    (eps : option float) (check_stability : bool) (method : string)
    : result SolveOut :=
  let eps := or_default eps (self_eps self) in
  let p := default (self_p self) p in
  let '(si, sisj) := split_moments self sisj in
  '(C, perturb_up) ← Method1_observables_after_perturbation self iStar (Some eps);
  A ← assemble_A self si sisj p C;
  C ← vsub C (self_sisj self);
  dJ ← (if String.eqb method "inverse" then solve_or_nan A C eps
        else Ok (map (fun v => v / eps) (linalg_lstsq A C)));
  let dJ := if (perturb_up : bool) then dJ else map (fun v => v * (of_Z (-1))) dJ in
  (if check_stability then
     _ ← rec self iStar (Some p) (Some (si ++ sisj)) false (Some (eps / (of_Z 2))) false
           "inverse"%string;
     (* the relative error is computed and only printed *)
     Ok tt
   else Ok tt);;
  let errflag := if badly_conditioned A then 1%Z else 0%Z in
  Ok {| out_dJ := dJ; out_errflag := errflag;
        out_AC := if full_output then Some (A, C) else None;
        out_relerr := None |}.

(** [IsingFisherCurvatureMethod1.solve_linearized_perturbation]: the call for
    the stability check passes [check_stability=False], so the recursion is
    two calls deep. *)
Definition Method1_solve_linearized_perturbation :=
  Method1_solve_body (Method1_solve_body (fun _ _ _ _ _ _ _ _ => Raise RecursionError)).

(** *** [IsingFisherCurvatureMethod2] *)

Definition Method2_observables_after_perturbation (self : Model) (i a : Z)
    (eps : option float) : result (list float) :=
  py_assert (negb (i =? a)%Z);;
  let eps := or_default eps (self_eps self) in
  let '(si, sisj) := split_moments self None in
  '(siNew, sisjNew) ←
     Perturb.jit_observables_after_perturbation_plus (self_n self) si sisj i a eps;
  Ok (siNew ++ sisjNew).

Definition Method2_solve_body
    (rec : Model -> Z -> Z -> option (list float) -> option (list float) -> bool ->
           option float -> bool -> result SolveOut)
    (self : Model) (iStar aStar : Z) (p sisj : option (list float))
    (full_output : bool) (eps : option float) (check_stability : bool)
    : result SolveOut :=
  let eps := or_default eps (self_eps self) in
  let p := default (self_p self) p in
  let '(si, sisj) := split_moments self sisj in
  C ← Method2_observables_after_perturbation self iStar aStar (Some eps);
  let errflag := 0%Z in
  A ← assemble_A self si sisj p C;
  C ← vsub C (self_sisj self);
  x ← linalg_solve A C;
  let dJ := map (fun v => v / eps) x in
  '(errflag, relerr) ←
     (if check_stability then
        inner ← rec self iStar aStar (Some p) (Some (si ++ sisj)) false
                  (Some (eps / (of_Z 2))) false;
        let dJtwiceEps := out_dJ inner in
        let errflag := out_errflag inner in
        let relerr := relative_error dJ dJtwiceEps in
        Ok (if unstable relerr then 2%Z else errflag, Some relerr)
      else Ok (errflag, None));
  let errflag := if badly_conditioned A then 1%Z else errflag in
  Ok {| out_dJ := dJ; out_errflag := errflag;
        out_AC := if full_output then Some (A, C) else None;
        out_relerr := if full_output then relerr else None |}.

(** [IsingFisherCurvatureMethod2._solve_linearized_perturbation] *)
Definition Method2__solve_linearized_perturbation :=
  Method2_solve_body (Method2_solve_body (fun _ _ _ _ _ _ _ _ => Raise RecursionError)).

(** *** The search over [eps]

    The wrapper [solve_linearized_perturbation] of
    [IsingFisherCurvatureMethod2] (and of [Magnetization] and [Coupling] in
    [large_fim.py], with their own [_solve_linearized_perturbation]).
    [inner e] is the call of [self._solve_linearized_perturbation] with the
    wrapper's arguments, [eps = e], and [check_stability] and [full_output]
    set. *)

(** [relerr.max()]: NaN propagates, the empty array raises. *)
Definition np_max (v : list float) : result float :=
  match v with
  | [] => Raise ValueError
  | x :: v' =>
      Ok (fold_left (fun m y =>
            if isnan m then m else if isnan y then y
            else if m <? y then y else m) v' x)
  end.

(** [dJ, errflag, (A,C), relerr = ...] *)
Definition unpack4 (r : SolveOut) : result (list float * Z * list float) :=
  match out_AC r, out_relerr r with
  | Some _, Some relerr => Ok (out_dJ r, out_errflag r, relerr)
  | _, _ => Raise ValueError
  end.

(** The [while (not converged) and errflag] loop.  [None] is returned when
    the fuel runs out before the loop ends. *)
Fixpoint search_loop (fuel : nat) (inner : option float -> result SolveOut)
    (epsChangeFactor eps : float) (dJ : list float) (errflag : Z)
    (prevdJ prevRelErr : list float) : result (option (list float * Z)) :=
  match fuel with
  | O => Ok None
  | S fuel' =>
      if (errflag =? 0)%Z then Ok (Some (dJ, errflag)) else
      let eps := eps * epsChangeFactor in
      r ← inner (Some eps);
      '(dJ, errflag, relerr) ← unpack4 r;
      if (errflag =? 0)%Z then Ok (Some (dJ, errflag)) else
      m ← np_max relerr;
      mprev ← np_max prevRelErr;
      if m <? mprev then
        search_loop fuel' inner epsChangeFactor eps dJ errflag dJ relerr
      else Ok (Some (dJ, errflag))
  end.

Definition eps_search (fuel : nat) (inner : option float -> result SolveOut)
    (self_eps : float) (eps : option float) : result (option (list float * Z)) :=
  let epsChangeFactor := (of_Z 10) in
  let eps0 := default self_eps eps in
  r ← inner eps;
  '(dJ, errflag, relerr) ← unpack4 r;
  rUp ← inner (Some (eps0 * epsChangeFactor));
  '(dJUp, errflagUp, relerrUp) ← unpack4 rUp;
  rDown ← inner (Some (eps0 / epsChangeFactor));
  '(dJDown, errflagDown, relerrDown) ← unpack4 rDown;
  let eps := eps0 / epsChangeFactor in
  m ← np_max relerr;
  mUp ← np_max relerrUp;
  (* [and] evaluates its right operand only when the left one holds *)
  early ← (if m <? mUp then mDown ← np_max relerrDown; Ok (m <? mDown) else Ok false);
  if (early : bool) then Ok (Some (dJ, errflag)) else
  mDown ← np_max relerrDown;
  mUp ← np_max relerrUp;
  if PrimFloat.leb mDown mUp then
    search_loop fuel inner (of_Z 1 / epsChangeFactor) eps dJ errflagDown dJDown relerrDown
  else
    search_loop fuel inner epsChangeFactor eps dJ errflagUp dJUp relerrUp.

(** [IsingFisherCurvatureMethod2.solve_linearized_perturbation] *)
Definition Method2_solve_linearized_perturbation (fuel : nat) (self : Model)
    (iStar aStar : Z) (p sisj : option (list float)) (eps : option float)
    : result (option (list float * Z)) :=
  eps_search fuel
    (fun e => Method2__solve_linearized_perturbation self iStar aStar p sisj true e true)
    (self_eps self) eps.

(** *** [Magnetization] ([large_fim.py]) *)

Definition Magnetization_observables_after_perturbation (self : Model) (i : Z)
    (eps : option float) : result (list float * bool) :=
  let eps := or_default eps (self_eps self) in
  let '(si, sisj) := split_moments self None in
  '(siNew, sisjNew) ←
     Perturb.jit_observables_after_perturbation_plus_field (self_n self) si sisj i eps;
  let perturb_up := true in
  Ok (siNew ++ sisjNew, perturb_up).

Definition Magnetization_solve_body
    (rec : Model -> Z -> option (list float) -> option (list float) -> bool ->
           option float -> bool -> string -> result SolveOut)
    (self : Model) (iStar : Z) (p sisj : option (list float)) (full_output : bool)
    (eps : option float) (check_stability : bool) (method : string)
    : result SolveOut :=
  let eps := or_default eps (self_eps self) in
  let p := default (self_p self) p in
  let '(si, sisj) := split_moments self sisj in
  '(C, perturb_up) ← Magnetization_observables_after_perturbation self iStar (Some eps);
  A ← assemble_A self si sisj p C;
  C ← vsub C (self_sisj self);
  dJ ← (if String.eqb method "inverse" then solve_or_nan A C eps
        else Ok (map (fun v => v / eps) (linalg_lstsq A C)));
  let dJ := if (perturb_up : bool) then dJ else map (fun v => v * (of_Z (-1))) dJ in
  relerr ← (if check_stability then
              inner ← rec self iStar (Some p) (Some (si ++ sisj)) false
                        (Some (eps / (of_Z 2))) false "inverse"%string;
              Ok (Some (relative_error dJ (out_dJ inner)))
            else Ok None);
  let errflag := if badly_conditioned A then 1%Z else 0%Z in
  Ok {| out_dJ := dJ; out_errflag := errflag;
        out_AC := if full_output then Some (A, C) else None;
        out_relerr := if full_output then relerr else None |}.

(** [Magnetization._solve_linearized_perturbation] *)
Definition Magnetization__solve_linearized_perturbation :=
  Magnetization_solve_body
    (Magnetization_solve_body (fun _ _ _ _ _ _ _ _ => Raise RecursionError)).

(** [Magnetization.solve_linearized_perturbation] *)
Definition Magnetization_solve_linearized_perturbation (fuel : nat) (self : Model)
    (iStar : Z) (p sisj : option (list float)) (eps : option float)
    : result (option (list float * Z)) :=
  eps_search fuel
    (fun e => Magnetization__solve_linearized_perturbation self iStar p sisj true e true
                "inverse"%string)
    (self_eps self) eps.

(** *** Constructors *)

(** [np.concatenate((h,J))]; the default arguments [h=None, J=None] are not
    arrays. *)
Definition np_concatenate (h J : option (list float)) : result (list float) :=
  match h, J with
  | Some h, Some J => Ok (h ++ J)
  | _, _ => Raise ValueError
  end.

(** [assert n>1 and 0<eps<bound] *)
Definition init_guard (n : Z) (eps bound : float) : bool :=
  (1 <? n)%Z && (of_Z 0 <? eps) && (eps <? bound).

(** The literals [.1] and [1e-2]: the binary64 values nearest to 1/10 and
    1/100. *)
Definition point_one : float := of_Z 1 / of_Z 10.
Definition point_zero_one : float := of_Z 1 / of_Z 100.

(** What [coniii.ising_eqn.ising_eqn_<n>_sym] provides. *)
Record IsingEqn : Type := {
  calc_observables : list float -> list float;
  ising_p : list float -> list float
}.

(** What [LargeIsing((h,J), n_samples)] provides. *)
Record LargeIsing : Type := {
  large_corr : list float * list float;
  large_p : list float;
  large_states : list (list Z)
}.

Section Collaborators.

(** [importlib.import_module], [bin_states(n, True)], [np.unique(..,
    return_inverse=True)] of the absolute row sums, [np.unique], and the
    sampler. *)
Variable import_module : Z -> result IsingEqn.
Variable bin_states : Z -> list (list Z).
Variable unique_abs_sums : list (list Z) -> list Z * list Z.
Variable np_unique : list Z -> list Z.
Variable sample_large_ising : list float -> list float -> Z -> result LargeIsing.

Definition zeros_dJ (n : Z) : list (list float) :=
  replicate (Z.to_nat n) (replicate (Z.to_nat (n + (n - 1) * n / 2)) (of_Z 0)).

(** [IsingFisherCurvatureMethod1.compute_dJ] *)
Definition Method1_compute_dJ (self : Model) : result (list (list float)) :=
  mapM (fun i =>
          r ← Method1_solve_linearized_perturbation self i None None false None true
                "inverse"%string;
          Ok (out_dJ r))
       (range (self_n self)).

(** [IsingFisherCurvatureMethod1.__init__] *)
Definition Method1___init__ (n : Z) (h J : option (list float)) (eps : float)
    (precompute : bool) (n_cpus : option Z) : result Model :=
  py_assert (init_guard n eps point_one);;
  hJ ← np_concatenate h J;
  ising ← import_module n;
  let sisj := calc_observables ising hJ in
  let p := ising_p ising hJ in
  let allStates := bin_states n in
  let '(coarseUix, coarseInvix) := unique_abs_sums allStates in
  '(triplets, quartets) ← _triplets_and_quartets n allStates;
  let self := {| self_n := n; self_kStates := 2; self_eps := eps; self_hJ := hJ;
                 self_n_cpus := n_cpus; self_sisj := sisj; self_p := p;
                 self_allStates := allStates; self_coarseUix := coarseUix;
                 self_coarseInvix := coarseInvix; self_triplets := triplets;
                 self_quartets := quartets; self_dJ := [] |} in
  dJ ← (if precompute then Method1_compute_dJ self else Ok (zeros_dJ n));
  Ok {| self_n := n; self_kStates := 2; self_eps := eps; self_hJ := hJ;
        self_n_cpus := n_cpus; self_sisj := sisj; self_p := p;
        self_allStates := allStates; self_coarseUix := coarseUix;
        self_coarseInvix := coarseInvix; self_triplets := triplets;
        self_quartets := quartets; self_dJ := dJ |}.

(** [Magnetization.compute_dJ]; a search that does not end leaves no row. *)
Definition Magnetization_compute_dJ (fuel : nat) (self : Model)
    : result (option (list (list float))) :=
  rows ← mapM (M := result) (fun i =>
            r ← Magnetization_solve_linearized_perturbation fuel self i None None None;
            Ok (option_map fst r))
          (range (self_n self));
  Ok (mapM (M := option) id (rows : list (option (list float)))).

(** [Magnetization.__init__] *)
Definition Magnetization___init__ (fuel : nat) (n : Z) (h J : option (list float))
    (eps : float) (precompute : bool) (n_cpus : option Z) (n_samples : Z)
    : result (option Model) :=
  py_assert (init_guard n eps point_one);;
  hJ ← np_concatenate h J;
  ising ← sample_large_ising (default [] h) (default [] J) n_samples;
  let sisj := fst (large_corr ising) ++ snd (large_corr ising) in
  let p := large_p ising in
  let allStates := large_states ising in
  let '(_, coarseInvix) := unique_abs_sums allStates in
  let coarseUix := np_unique coarseInvix in
  '(triplets, quartets) ← _triplets_and_quartets n allStates;
  let self := {| self_n := n; self_kStates := 2; self_eps := eps; self_hJ := hJ;
                 self_n_cpus := n_cpus; self_sisj := sisj; self_p := p;
                 self_allStates := allStates; self_coarseUix := coarseUix;
                 self_coarseInvix := coarseInvix; self_triplets := triplets;
                 self_quartets := quartets; self_dJ := [] |} in
  dJ ← (if precompute then Magnetization_compute_dJ fuel self
        else Ok (Some (zeros_dJ n)));
  Ok (option_map (fun dJ =>
        {| self_n := n; self_kStates := 2; self_eps := eps; self_hJ := hJ;
           self_n_cpus := n_cpus; self_sisj := sisj; self_p := p;
           self_allStates := allStates; self_coarseUix := coarseUix;
           self_coarseInvix := coarseInvix; self_triplets := triplets;
           self_quartets := quartets; self_dJ := dJ |}) dJ).

(** The assertions that open [Coupling3.__init__]; [h] is indexed before it
    is used, so the default [h=None] raises [TypeError]. *)
Definition Coupling3_init_asserts (n : Z) (h J : option (list float)) (eps : float)
    : result unit :=
  py_assert (init_guard n eps point_zero_one);;
  match h, J with
  | Some h, Some J =>
      py_assert (forallb (fun x => x =? of_Z 0)
                   (take (Z.to_nat (3 * n) - Z.to_nat (2 * n)) (drop (Z.to_nat (2 * n)) h)));;
      py_assert ((Z.of_nat (length h) =? 3 * n)%Z
                 && (Z.of_nat (length J) =? n * (n - 1) / 2)%Z)
  | _, _ => Raise TypeError
  end.

End Collaborators.

End Numpy.

End Solver.

(** ** Curvature (Hessian) estimator *)

Module Hessian.
Section Hessian.
Context `{Num F}.
Local Open Scope num_scope.

(** A square [ndarray], row by row. *)
Definition zeros (m : nat) : list (list F) := replicate m (replicate m (of_Z 0)).

Definition mat_get (H : list (list F)) (i j : nat) : option F :=
  match H !! i with
  | Some row => row !! j
  | None => None
  end.

(** [hess[i,j]] read inside an array expression; the indices are in range
    wherever it is used. *)
Definition entry (H : list (list F)) (i j : nat) : F :=
  default (of_Z 0) (mat_get H i j).

(** [hess[i,j] = v] *)
Definition mat_set (H : list (list F)) (i j : nat) (v : F) : list (list F) :=
  alter (fun row => <[j:=v]> row) i H.

(** [hess[cells] = vals]: assignment through an index array or a mask,
    cell by cell in row-major order. *)
Definition assign (H : list (list F)) (cells : list (nat * nat)) (vals : list F)
    : list (list F) :=
  foldl (fun H '((i, j), v) => mat_set H i j v) H (zip cells vals).

(** The entries of an [m] by [m] array, as a function of the cell. *)
Definition entries_are (m : nat) (hess : list (list F)) (g : nat -> nat -> F) : Prop :=
  forall i j : nat, (i < m)%nat -> (j < m)%nat -> mat_get hess i j = Some (g i j).

(** The cells selected by [np.eye(m)==1] and by
    [np.triu_indices_from(hess,k=1)]. *)
Definition eye_cells (m : nat) : list (nat * nat) := map (fun i => (i, i)) (seq 0 m).
Definition triu_cells (m : nat) : list (nat * nat) := Index.pairs_of (seq 0 m).

(** The raw fill by the two [for] loops. *)
Definition fill_loops (diag : nat -> F) (off_diag : nat * nat -> F) (m : nat)
    : list (list F) :=
  let hess := foldl (fun H i => mat_set H i i (diag i)) (zeros m) (seq 0 m) in
  foldl (fun H '(i, j) => mat_set H i j (off_diag (i, j))) hess
    (Index.pairs_of (seq 0 m)).

(** The raw fill by [self.pool.map]; the results come back in the order of
    the arguments. *)
Definition fill_pool (diag : nat -> F) (off_diag : nat * nat -> F) (m : nat)
    : list (list F) :=
  let hess := assign (zeros m) (eye_cells m) (map diag (seq 0 m)) in
  assign hess (triu_cells m) (map off_diag (Index.pairs_of (seq 0 m))).

(** [hess[np.triu_indices_from(hess,k=1)] -= np.array([hess[i,i]/2+hess[j,j]/2
    for i,j in combinations(range(len(dJ)),2)])] *)
Definition subtract_linear_terms (m : nat) (hess : list (list F)) : list (list F) :=
  let rhs := map (fun '(i, j) => entry hess i i / (of_Z 2) + entry hess j j / (of_Z 2))
               (Index.pairs_of (seq 0 m)) in
  assign hess (triu_cells m)
    (zip_with (fun '(i, j) r => entry hess i j - r) (triu_cells m) rhs).

(** [hess += hess.T] *)
Definition add_transpose (hess : list (list F)) : list (list F) :=
  imap (fun i row => imap (fun j x => x + entry hess j i) row) hess.

(** [hess[np.eye(len(dJ))==1] /= 2] *)
Definition halve_diagonal (m : nat) (hess : list (list F)) : list (list F) :=
  assign hess (eye_cells m) (map (fun i => entry hess i i / (of_Z 2)) (seq 0 m)).

(** The pass after the raw fill. *)
Definition symmetrize (m : nat) (hess : list (list F)) : list (list F) :=
  halve_diagonal m (add_transpose (subtract_linear_terms m hess)).

(** The raw entries as a function of the cell: the diagonal, the upper
    triangle, zero below. *)
Definition raw_entry (diag : nat -> F) (off_diag : nat * nat -> F) (i j : nat) : F :=
  if decide (i < j)%nat then off_diag (i, j)
  else if decide (i = j) then diag i else of_Z 0.

(** The entries after the pass, as the array operations compute them. *)
Definition sym_entry (diag : nat -> F) (off_diag : nat * nat -> F) (i j : nat) : F :=
  if decide (i = j) then (diag i + diag i) / of_Z 2
  else if decide (i < j)%nat
       then off_diag (i, j) - (diag i / of_Z 2 + diag j / of_Z 2) + of_Z 0
       else of_Z 0 + (off_diag (j, i) - (diag j / of_Z 2 + diag i / of_Z 2)).

(** [assert ~np.isnan(hess).any()] and [assert ~np.isinf(hess).any()] *)
Definition any_entry (f : F -> bool) (hess : list (list F)) : bool :=
  existsb (existsb f) hess.

Definition check_precision (hess : list (list F)) : result unit :=
  py_assert (negb (any_entry isnan hess));;
  py_assert (negb (any_entry isinf hess)).

(** [(np.abs(err/hess) > rtol).any()] *)
Definition exceeds_rtol (rtol : F) (err hess : list (list F)) : bool :=
  existsb (existsb (fun '(e, h) => rtol <? absF (e / h)))
    (zip_with zip err hess).

(** [(hess - hess2)*4/3] *)
Definition richardson_error (hess hess2 : list (list F)) : list (list F) :=
  zip_with (zip_with (fun h h2 => (h - h2) * (of_Z 4) / (of_Z 3))) hess hess2.

(** What the estimators return under [full_output]. *)
Definition HessOut : Type := list (list F) * option Z * option (list (list F)).

(** The finite-difference estimates [diag(i)] and [off_diag((i,j))] of an
    estimator are functions of the step [epsdJ]; [m] is [len(dJ)]. *)
Section Estimator.
Variable diag : F -> nat -> F.
Variable off_diag : F -> nat * nat -> F.
Variable m : nat.

(** The body shared by [_maj_curvature] and [_maj_curvature_high_prec] from
    the allocation of [hess] on; [serial] is the test that selects the
    [for] loops, [rec] the estimator itself, called for the stability
    check. *)
Definition maj_body (rec : F -> result HessOut) (serial : bool)
    (epsdJ : F) (check_stability : bool) (rtol : F) : result HessOut :=
  let hess := if serial then fill_loops (diag epsdJ) (off_diag epsdJ) m
              else fill_pool (diag epsdJ) (off_diag epsdJ) m in
  let hess := symmetrize m hess in
  check_precision hess;;
  if check_stability then
    '(hess2, _, _) ← rec (epsdJ / (of_Z 2));
    let err := richardson_error hess hess2 in
    let errflag := if exceeds_rtol rtol err hess then 1%Z else 0%Z in
    Ok (hess, Some errflag, Some err)
  else Ok (hess, None, None).

(** [IsingFisherCurvatureMethod1._maj_curvature]; [normalized] is
    [np.isclose(p.sum(),1)] for the coarse-grained distribution and
    [has_pool] is ['pool' in self.__dict__.keys()]. *)
Definition _maj_curvature (normalized has_pool : bool)
    (epsdJ : F) (check_stability : bool) (rtol : F) : result HessOut :=
  py_assert normalized;;
  maj_body
    (fun e => py_assert normalized;;
              maj_body (fun _ => Raise RecursionError) (negb has_pool) e false rtol)
    (negb has_pool) epsdJ check_stability rtol.

(** [(not n_cpus is None) and n_cpus<=1] *)
Definition use_loops (n_cpus : option Z) : bool :=
  match n_cpus with
  | Some c => (c <=? 1)%Z
  | None => false
  end.

(** [IsingFisherCurvatureMethod1._maj_curvature_high_prec] *)
Definition _maj_curvature_high_prec (n_cpus : option Z)
    (epsdJ : F) (check_stability : bool) (rtol : F) : result HessOut :=
  maj_body
    (fun e => maj_body (fun _ => Raise RecursionError) (use_loops n_cpus) e false rtol)
    (use_loops n_cpus) epsdJ check_stability rtol.

(** [IsingFisherCurvatureMethod1._dkl_curvature] (and
    [Magnetization._dkl_curvature]) with [check_stability=False]: the
    Hessian it returns.  The second branch needs [self.pool]. *)
Definition _dkl_curvature (n_cpus : option Z) (has_pool : bool) (epsdJ : F)
    : result (list (list F)) :=
  if use_loops n_cpus then
    let hess := foldl (fun H i => mat_set H i i (diag epsdJ i)) (zeros m) (seq 0 m) in
    Ok (foldl (fun H '(i, j) =>
                 let v := off_diag epsdJ (i, j) in
                 mat_set (mat_set H i j v) j i v)
          hess (Index.pairs_of (seq 0 m)))
  else if has_pool then
    Ok (symmetrize m (fill_pool (diag epsdJ) (off_diag epsdJ) m))
  else Raise AttributeError.

End Estimator.

(** [p[invix==i]]: selection by a boolean mask of the same length. *)
Definition mask_select (p : list F) (mask : list bool) : result (list F) :=
  if (Z.of_nat (length mask) =? Z.of_nat (length p))%Z
  then Ok (omap (fun '(x, b) => if (b : bool) then Some x else None) (zip p mask))
  else Raise IndexError.

(** [a.sum()] *)
Definition np_sum (a : list F) : F := foldl add (of_Z 0) a.

(** [p2pk(p, uix, invix)] *)
Definition p2pk (p : list F) (uix invix : list Z) : result (list F) :=
  mapM (fun i =>
          sel ← mask_select p (map (fun v => (v =? i)%Z) invix);
          Ok (np_sum sel))
       (range (Z.of_nat (length uix))).

End Hessian.
End Hessian.

(** ** Concrete inputs

    A model of two spins, and the values of the numpy functions at the
    arguments that occur when the solver runs on it. *)

Module Examples.
Import Solver.
Local Open Scope float_scope.

(** [bin_states(2, True)] *)
Definition states2 : list (list Z) := [[-1; -1]; [-1; 1]; [1; -1]; [1; 1]]%Z.

(** The caches [_triplets_and_quartets] builds for two spins. *)
Definition caches2 : gmap (Z * Z * Z) (list Z) * gmap (Z * Z * Z * Z) (list Z) :=
  match _triplets_and_quartets 2 states2 with
  | Ok caches => caches
  | Raise _ => (∅, ∅)
  end.

(** A model object with the moments [sisj], the distribution [p] and the
    step [eps]. *)
Definition model2 (sisj p : list float) (eps : float) : Model :=
  {| self_n := 2; self_kStates := 2; self_eps := eps; self_hJ := [0; 0; 0];
     self_n_cpus := Some 1%Z; self_sisj := sisj; self_p := p;
     self_allStates := states2; self_coarseUix := [0; 2]%Z;
     self_coarseInvix := [1; 0; 0; 1]%Z;
     self_triplets := caches2.1; self_quartets := caches2.2; self_dJ := [] |}.

Definition uniform : list float := [0.25; 0.25; 0.25; 0.25].

Definition is_identity (A : list (list float)) : bool :=
  forallb id (imap (fun i row =>
    forallb id (imap (fun j x => x =? (if Nat.eqb i j then 1 else 0)) row)) A).

Definition is_zero (A : list (list float)) : bool :=
  forallb (forallb (fun x => x =? 0)) A.

(** [numpy.linalg.solve] on the identity matrix (the solution is the
    right-hand side) and on the zero matrix (singular). *)
Definition linalg_solve (A : list (list float)) (C : list float) : result (list float) :=
  if is_zero A then Raise LinAlgError else Ok C.

(** [numpy.linalg.lstsq(A, C)[0]] on the identity matrix. *)
Definition linalg_lstsq (A : list (list float)) (C : list float) : list float := C.

(** [numpy.linalg.cond]: 1 on the identity matrix, infinite on the zero
    matrix. *)
Definition linalg_cond (A : list (list float)) : float :=
  if is_zero A then infinity else 1.

(** [numpy.log10] at 0, 1, 0.0625 and 1.3125. *)
Definition log10 (x : float) : float :=
  if x =? 0 then neg_infinity
  else if x =? 0.0625 then -0x1.34413509f79ffp+0
  else if x =? 1.3125 then 0x1.e3bc1ab0e19fep-4
  else 0.

(** What [_solve_linearized_perturbation] returned at the four values of
    [eps] of a search whose error is smallest at [eps0/10]. *)
Definition eps0 : float := 0x1p-20.

Definition solved (dJ relerr : float) : SolveOut :=
  {| out_dJ := [dJ]; out_errflag := 2; out_AC := Some ([[1]], [dJ]);
     out_relerr := Some [relerr] |}.

Definition search_trace (eps : option float) : result SolveOut :=
  match eps with
  | None => Ok (solved 1 (-1))
  | Some e =>
      if e =? eps0 * 10 then Ok (solved 2 (-0.5))
      else if e =? eps0 / 10 then Ok (solved 3 (-2))
      else Ok (solved 4 (-1.5))
  end.

(** The collaborators of the constructors at system size 2 and zero
    parameters: the observables are zero and the distribution is uniform;
    no equation module exists for another size. *)
Definition ising2 : IsingEqn :=
  {| calc_observables := fun _ => [0; 0; 0]; ising_p := fun _ => uniform |}.

Definition import_module (n : Z) : result IsingEqn :=
  if (n =? 2)%Z then Ok ising2 else Raise ModuleNotFoundError.

Definition bin_states (n : Z) : list (list Z) :=
  if (n =? 2)%Z then states2 else [].

Definition unique_abs_sums (states : list (list Z)) : list Z * list Z :=
  ([0; 2]%Z, [1; 0; 0; 1]%Z).

Definition np_unique (v : list Z) : list Z := [0; 1]%Z.

Definition sample_large_ising (h J : list float) (n_samples : Z) : result LargeIsing :=
  Ok {| large_corr := ([0; 0], [0]); large_p := uniform; large_states := states2 |}.

(** [1e-7], the default [eps] of the constructors. *)
Definition default_eps : float := 1 / 10000000.

End Examples.

(** ** Caches of the sampled models ([large_fim.py], JIT functions) *)

Module Cache.

(** [jit_pair_combination(x)]: the generator, as the list of what it
    yields. *)
Definition jit_pair_combination (x : Z) : list (Z * Z) :=
  i ← range (x - 1); j ← py_range (i + 1) x; [(i, j)].

(** [allStates[:,i]] *)
Definition column (allStates : list (list Z)) (i : Z) : result (list Z) :=
  mapM (fun row => getitem row i) allStates.

(** [u*v] on two columns *)
Definition times (u v : list Z) : list Z := zip_with Z.mul u v.

(** [jit_triplets_and_quartets(n, allStates)] *)
Definition jit_triplets_and_quartets (n : Z) (allStates : list (list Z))
    : result (gmap (Z * Z * Z) (list Z) * gmap (Z * Z * Z * Z) (list Z)) :=
  t1 ← foldM (fun tr i =>
          foldM (fun tr '(j, k) =>
             ci ← column allStates i;
             cj ← column allStates j;
             ck ← column allStates k;
             Ok (<[(i, j, k) := times (times ci cj) ck]> tr)) tr
            (jit_pair_combination n))
        (∅ : gmap (Z * Z * Z) (list Z)) (range n);
  foldM (fun '(tr, qu) '(i, j) =>
     tr' ← foldM (fun tr k =>
             ci ← column allStates i;
             cj ← column allStates j;
             ck ← column allStates k;
             Ok (<[(i, j, k) := times (times ci cj) ck]> tr)) tr (range n);
     qu' ← foldM (fun qu '(k, l) =>
             ci ← column allStates i;
             cj ← column allStates j;
             ck ← column allStates k;
             cl ← column allStates l;
             Ok (<[(i, j, k, l) := times (times (times ci cj) ck) cl]> qu)) qu
            (jit_pair_combination n);
     Ok (tr', qu'))
    (t1, (∅ : gmap (Z * Z * Z * Z) (list Z))) (jit_pair_combination n).

End Cache.

(** ** Perturbations of one spin ([fim.py], [large_fim.py]) *)

Module SpinPerturb.
Section SpinPerturb.
Context `{Num F}.
Local Open Scope num_scope.

(** [jit_observables_after_perturbation_plus_mean] ([minus = false]) and
    [jit_observables_after_perturbation_minus_mean] ([minus = true]). *)
Definition mean_step (minus : bool) (n : Z) (si : list F) (i : Z) (eps : F)
    (sisj : list F) (j : Z) : result (list F) :=
  ijix ← Perturb.pair_index n i j;
  cur ← getitem sisj ijix;
  sj ← getitem si j;
  setitem sisj ijix (if minus then cur - eps * sj else cur + eps * sj).

Definition mean_perturb (minus : bool) (n : Z) (si sisj : list F) (i : Z) (eps : F)
    : result (list F * list F) :=
  si_i ← getitem si i;
  si' ← setitem si i (if minus then si_i - eps else si_i + eps);
  sisj' ← foldM (mean_step minus n si' i eps) sisj (Index.delete (range n) i);
  Ok (si', sisj').

Definition jit_observables_after_perturbation_plus_mean := mean_perturb false.
Definition jit_observables_after_perturbation_minus_mean := mean_perturb true.

(** The methods [_observables_after_perturbation_up] ([minus = false]) and
    [_observables_after_perturbation_down] ([minus = true]) of
    [IsingFisherCurvatureMethod1], with [n = self.n], and
    [Magnetization._observables_after_perturbation_plus_field], which is
    the first of them with [n] as an argument. *)
Definition method_step (minus : bool) (n : Z) (si : list F) (i : Z) (eps : F)
    (sisj : list F) (j : Z) : result (list F) :=
  ijix ← Perturb.pair_index n i j;
  cur ← getitem sisj ijix;
  sj ← getitem si j;
  setitem sisj ijix
    (if minus then (of_Z 1 - eps) * cur - eps * sj
     else (of_Z 1 - eps) * cur + eps * sj).

Definition method_perturb (minus : bool) (n : Z) (si sisj : list F) (i : Z) (eps : F)
    : result (list F * list F) :=
  si_i ← getitem si i;
  si' ← setitem si i (if minus then (of_Z 1 - eps) * si_i - eps
                      else (of_Z 1 - eps) * si_i + eps);
  sisj' ← foldM (method_step minus n si' i eps) sisj (Index.delete (range n) i);
  Ok (si', sisj').

Definition Method1__observables_after_perturbation_up := method_perturb false.
Definition Method1__observables_after_perturbation_down := method_perturb true.
Definition Magnetization__observables_after_perturbation_plus_field :=
  method_perturb false.

End SpinPerturb.
End SpinPerturb.

(** ** Agreement of two runs

    Two calls agree when both raise the same exception or both return, and
    the values returned are related. *)

Definition agree {A B : Type} (R : A -> B -> Prop) (r : result A) (r' : result B) : Prop :=
  match r, r' with
  | Ok a, Ok b => R a b
  | Raise e, Raise e' => e = e'
  | _, _ => False
  end.

(** Arrays of rationals with equal entries. *)
Definition same_entries : list Q -> list Q -> Prop := Forall2 Qeq.

(** The moments are correlations: every entry lies in [-1, 1]. *)
Definition within_unit (v : list Q) : Prop := Forall (fun x => (-1 <= x <= 1)%Q) v.

(** ** The searches for the finite-difference step ([fim.py], [large_fim.py])

    [maj_curvature] and [dkl_curvature] call the estimators at the steps
    [epsdJ], [epsdJ/10], [epsdJ/100], ... and keep the last Hessian whose
    error went down.  The calls are modelled for positional arguments
    that are at most [hJ] and [dJ]; the estimates [diag] and [off_diag]
    of an estimator are functions of the step. *)

Module Curvature.
Section Curvature.
Context `{Num F}.
Local Open Scope num_scope.

(** The truth value of an error flag: [None] and [0] are falsy. *)
Definition truthy (errflag : option Z) : bool :=
  match errflag with
  | Some f => negb (f =? 0)%Z
  | None => false
  end.

(** [kwargs['epsdJ'] /= epsDecreaseFactor], [k] times. *)
Definition shrink (k : nat) (epsdJ : F) : F :=
  Nat.iter k (fun e => e / of_Z 10) epsdJ.

(** The literals [1e-4] and [1e-3], the defaults of [epsdJ] and [rtol]. *)
Definition default_epsdJ : F := of_Z 1 / of_Z 10000.
Definition default_rtol : F := of_Z 1 / of_Z 1000.

Section Searches.

(** [np.linalg.norm] of a matrix. *)
Variable linalg_norm : list (list F) -> F.

(** [np.linalg.norm(err)]; [err] is an array whenever the flag is set. *)
Definition norm_of (err : option (list (list F))) : result F :=
  match err with
  | Some e => Ok (linalg_norm e)
  | None => Raise TypeError
  end.

(** The loop [while (not converged) and errflag] of [maj_curvature];
    [inner e] is the call of the estimator with [epsdJ = e] and
    [full_output=True].  [None] is returned when the fuel runs out before
    the loop ends. *)
Fixpoint maj_loop (fuel : nat) (inner : F -> result Hessian.HessOut) (epsdJ : F)
    (prevHess : list (list F)) (errflag : option Z)
    (preverr : option (list (list F))) : result (option Hessian.HessOut) :=
  if truthy errflag then
    match fuel with
    | O => Ok None
    | S fuel' =>
        '(hess, errflag, err) ← inner epsdJ;
        (* [and] evaluates the norms only when the flag is set *)
        better ← (if truthy errflag
                  then a ← norm_of err; b ← norm_of preverr; Ok (a <? b)
                  else Ok false);
        if (better : bool)
        then maj_loop fuel' inner (epsdJ / of_Z 10) hess errflag err
        else Ok (Some (prevHess, errflag, preverr))
    end
  else Ok (Some (prevHess, errflag, preverr)).

Definition maj_search (fuel : nat) (inner : F -> result Hessian.HessOut) (epsdJ : F)
    : result (option Hessian.HessOut) :=
  '(prevHess, errflag, preverr) ← inner epsdJ;
  maj_loop fuel inner (epsdJ / of_Z 10) prevHess errflag preverr.

(** What [_dkl_curvature] returns under [full_output]: the Hessian, the
    flag and the norm of the error. *)
Definition DklOut : Type := list (list F) * option Z * option F.

(** [normerr<prevNormerr]; both are floats whenever the flag is set. *)
Definition normerr_lt (normerr prevNormerr : option F) : result bool :=
  match normerr, prevNormerr with
  | Some a, Some b => Ok (a <? b)
  | _, _ => Raise TypeError
  end.

(** The loop of [dkl_curvature]; it also carries [normerr], which is
    unbound until the loop has run once. *)
Fixpoint dkl_loop (fuel : nat) (inner : F -> result DklOut) (epsdJ : F)
    (prevHess : list (list F)) (errflag : option Z) (prevNormerr : option F)
    : result (option DklOut) :=
  if truthy errflag then
    match fuel with
    | O => Ok None
    | S fuel' =>
        '(hess, errflag, normerr) ← inner epsdJ;
        better ← (if truthy errflag then normerr_lt normerr prevNormerr else Ok false);
        if (better : bool)
        then dkl_loop fuel' inner (epsdJ / of_Z 10) hess errflag normerr
        else
          (* [normerr] is the value of this pass, [prevHess] of the one
             before *)
          Ok (Some (prevHess, errflag, normerr))
    end
  else
    (* [if not converged and not errflag: normerr = None] *)
    Ok (Some (prevHess, errflag, None)).

Definition dkl_search (fuel : nat) (inner : F -> result DklOut) (epsdJ : F)
    : result (option DklOut) :=
  '(prevHess, errflag, prevNormerr) ← inner epsdJ;
  dkl_loop fuel inner (epsdJ / of_Z 10) prevHess errflag prevNormerr.

(** The two public wrappers return the Hessian alone unless
    [full_output] is set. *)
Definition returned {X : Type} (full_output : bool)
    (r : option (list (list F) * option Z * X))
    : option (list (list F) * option (option Z * X)) :=
  option_map (fun '(hess, errflag, x) =>
                (hess, if full_output then Some (errflag, x) else None)) r.

(** The estimates of [_dkl_curvature], of [_maj_curvature] and of
    [_maj_curvature_high_prec], and [m = len(dJ)]. *)
Variable dkl_diag : F -> nat -> F.
Variable dkl_off_diag : F -> nat * nat -> F.
Variable maj_diag : F -> nat -> F.
Variable maj_off_diag : F -> nat * nat -> F.
Variable hp_diag : F -> nat -> F.
Variable hp_off_diag : F -> nat * nat -> F.
Variable m : nat.

(** [_dkl_curvature] with all its arguments.  [Hessian._dkl_curvature]
    is the Hessian it computes; the stability check calls the public
    wrapper [self.dkl_curvature(epsdJ=epsdJ/2, check_stability=False,
    hJ=hJ, dJ=dJ)], here [nested]. *)
Definition _dkl_curvature (nested : F -> result (list (list F)))
    (n_cpus : option Z) (has_pool : bool) (epsdJ : F) (check_stability : bool)
    (rtol : F) : result DklOut :=
  hess ← Hessian._dkl_curvature dkl_diag dkl_off_diag m n_cpus has_pool epsdJ;
  if check_stability then
    hess2 ← nested (epsdJ / of_Z 2);
    let err := zip_with (zip_with sub) hess2 hess in
    if Hessian.exceeds_rtol rtol err hess
    then Ok (hess, Some 1%Z, Some (linalg_norm err))
    else Ok (hess, Some 0%Z, None)
  else Ok (hess, None, None).

(** The body of [dkl_curvature]; [body e cs] is
    [self._dkl_curvature(..., epsdJ=e, check_stability=cs,
    full_output=True)] with the other keyword arguments of the call. *)
Definition dkl_wrapper (fuel : nat) (body : F -> bool -> result DklOut)
    (epsdJ : option F) (check_stability full_output : option bool)
    : result (option (list (list F) * option (option Z * option F))) :=
  let e := default default_epsdJ epsdJ in
  let cs := default true check_stability in
  r ← dkl_search fuel (fun e => body e cs) e;
  Ok (returned (default false full_output) r).

(** [dkl_curvature], called with keyword arguments, on an object that has ([has_pool]) or has
    not the attribute [pool].  The call for the stability check passes
    neither [n_cpus] nor [rtol], and its own check is off, so the
    recursion is two calls deep and its search makes no second call. *)
Definition dkl_curvature (fuel : nat) (has_pool : bool) (epsdJ : option F)
    (check_stability full_output : option bool) (n_cpus : option Z)
    (rtol : option F)
    : result (option (list (list F) * option (option Z * option F))) :=
  dkl_wrapper fuel
    (fun e cs =>
       _dkl_curvature
         (fun e2 =>
            r ← dkl_wrapper 0
                  (fun e' cs' =>
                     _dkl_curvature (fun _ => Raise RecursionError) None has_pool e' cs'
                       default_rtol)
                  (Some e2) (Some false) None;
            match r with
            | Some (hess2, _) => Ok hess2
            | None => Raise RecursionError
            end)
         n_cpus has_pool e cs (default default_rtol rtol))
    epsdJ check_stability full_output.

(** [_maj_curvature_high_prec] on an object with or without a pool:
    [Hessian._maj_curvature_high_prec] is the array it computes, and the
    branch taken unless [n_cpus<=1] reads [self.pool]. *)
Definition _maj_curvature_high_prec (has_pool : bool) (n_cpus : option Z)
    (epsdJ : F) (check_stability : bool) (rtol : F) : result Hessian.HessOut :=
  if Hessian.use_loops n_cpus || has_pool
  then Hessian._maj_curvature_high_prec hp_diag hp_off_diag m n_cpus epsdJ
         check_stability rtol
  else Raise AttributeError.

(** [maj_curvature], called with keyword arguments, on an object with [self.n_cpus]; a pool is
    made for the time of the call when [self.n_cpus] is [None] or more
    than one.  [n_cpus] is the keyword argument of that name ([None]: not
    given), which only [_maj_curvature_high_prec] accepts. *)
Definition maj_curvature (fuel : nat) (self_n_cpus : option Z)
    (had_pool normalized : bool) (epsdJ : option F)
    (check_stability full_output high_prec : option bool)
    (n_cpus : option (option Z)) (rtol : option F)
    : result (option (list (list F) * option (option Z * option (list (list F))))) :=
  let e := default default_epsdJ epsdJ in
  let cs := default true check_stability in
  let rtol := default default_rtol rtol in
  let has_pool := had_pool || negb (Hessian.use_loops self_n_cpus) in
  let inner e :=
    if default false high_prec
    then _maj_curvature_high_prec has_pool (default None n_cpus) e cs rtol
    else match n_cpus with
         | Some _ => Raise TypeError
         | None => Hessian._maj_curvature maj_diag maj_off_diag m normalized has_pool
                     e cs rtol
         end in
  r ← maj_search fuel inner e;
  Ok (returned (default false full_output) r).

End Searches.
End Curvature.
End Curvature.

(** ** Concrete searches

    An estimator of one entry, in exact arithmetic, whose error halves at
    the first refinement of the step and which passes the check at the
    second, and one whose check fails at every step shown. *)

Module Traces.
Local Open Scope Q_scope.

(** The norm of a one-entry array. *)
Definition norm1 (err : list (list Q)) : Q := Qabs (Hessian.entry err 0 0).

Definition maj_trace (epsdJ : Q) : result (@Hessian.HessOut Q) :=
  if Qeq_bool epsdJ 1 then Ok ([[1]], Some 1%Z, Some [[4]])
  else if Qeq_bool epsdJ (1 # 10) then Ok ([[2]], Some 1%Z, Some [[2]])
  else Ok ([[3]], Some 0%Z, Some [[1]]).

Definition dkl_trace (epsdJ : Q) : result (@Curvature.DklOut Q) :=
  if Qeq_bool epsdJ 1 then Ok ([[1]], Some 1%Z, Some 4)
  else if Qeq_bool epsdJ (1 # 10) then Ok ([[2]], Some 1%Z, Some 2)
  else Ok ([[3]], Some 1%Z, Some 3).

(** An estimator that is zero everywhere. *)
Definition flat_diag (epsdJ : Q) (i : nat) : Q := 0.
Definition flat_off_diag (epsdJ : Q) (ij : nat * nat) : Q := 0.

(** [numpy.linalg.solve] and [numpy.linalg.cond] on a matrix with a row
    of zeros: the matrix is singular, the solve raises and the condition
    number is infinite.  On the identity matrix the solution is the
    right-hand side and the condition number 1. *)
Definition has_zero_row (A : list (list float)) : bool :=
  existsb (forallb (fun x => PrimFloat.eqb x 0%float)) A.

Definition linalg_solve (A : list (list float)) (C : list float)
    : result (list float) :=
  if has_zero_row A then Raise LinAlgError else Ok C.

Definition linalg_cond (A : list (list float)) : float :=
  if has_zero_row A then infinity else 1%float.

End Traces.

(** ** Slices *)

(** [l[:i]] and [l[i:]]: a negative bound counts from the end, and bounds
    outside the sequence are clipped. *)
Definition slice_to {A : Type} (l : list A) (i : Z) : list A :=
  if i <? 0 then take (Z.to_nat (Z.of_nat (length l) + i)) l
  else take (Z.to_nat i) l.

Definition slice_from {A : Type} (l : list A) (i : Z) : list A :=
  if i <? 0 then drop (Z.to_nat (Z.of_nat (length l) + i)) l
  else drop (Z.to_nat i) l.

(** ** Saving and restoring a model ([fim.py]) *)

Module Pickle.
Import Solver.

(** The dictionary that [__get_state__] returns. *)
Record StateDict : Type := {
  state_n : Z;
  state_h : list float;
  state_J : list float;
  state_dJ : list (list float);
  state_eps : float
}.

(** [IsingFisherCurvatureMethod1.__get_state__]; closing the pool, when
    there is one, does not change what is returned. *)
Definition Method1___get_state__ (self : Model) : StateDict :=
  {| state_n := self_n self;
     state_h := slice_to (self_hJ self) (self_n self);
     state_J := slice_from (self_hJ self) (self_n self);
     state_dJ := self_dJ self;
     state_eps := self_eps self |}.

Section Restore.
Variable linalg_solve : list (list float) -> list float -> result (list float).
Variable linalg_lstsq : list (list float) -> list float -> list float.
Variable linalg_cond : list (list float) -> float.
Variable import_module : Z -> result IsingEqn.
Variable bin_states : Z -> list (list Z).
Variable unique_abs_sums : list (list Z) -> list Z * list Z.

(** [IsingFisherCurvatureMethod1.__set_state__]: the constructor is run
    again with [precompute=False] and without [n_cpus], then [self.dJ] is
    assigned. *)
Definition Method1___set_state__ (state_dict : StateDict) : result Model :=
  self ← Method1___init__ linalg_solve linalg_lstsq linalg_cond import_module
           bin_states unique_abs_sums (state_n state_dict)
           (Some (state_h state_dict)) (Some (state_J state_dict))
           (state_eps state_dict) false None;
  Ok {| self_n := self_n self; self_kStates := self_kStates self;
        self_eps := self_eps self; self_hJ := self_hJ self;
        self_n_cpus := self_n_cpus self; self_sisj := self_sisj self;
        self_p := self_p self; self_allStates := self_allStates self;
        self_coarseUix := self_coarseUix self;
        self_coarseInvix := self_coarseInvix self;
        self_triplets := self_triplets self; self_quartets := self_quartets self;
        self_dJ := state_dJ state_dict |}.

End Restore.
End Pickle.

(** ** Energies ([fim.py], [large_fim.py], JIT functions)

    The bodies are given their Python meaning: an index out of range
    raises [IndexError].  numba compiles them without bounds checks, so
    the properties proved of them are stated for arrays of the right
    size. *)

Module Energy.
Section Energy.
Context `{Num F}.
Local Open Scope num_scope.

(** One pass of the inner loop of [fast_sum]: [e += J[k]*s[i]*s[j]; k += 1]. *)
Definition fast_sum_step (J : list F) (s : list Z) (st : F * Z) (ij : Z * Z)
    : result (F * Z) :=
  let '(e, k) := st in
  let '(i, j) := ij in
  Jk ← getitem J k;
  si ← getitem s i;
  sj ← getitem s j;
  Ok (e + Jk * of_Z si * of_Z sj, (k + 1)%Z).

(** [fast_sum(J, s)] of [fim.py] *)
Definition fast_sum (J : list F) (s : list Z) : result F :=
  let n := Z.of_nat (length s) in
  '(e, _) ← foldM (fun st i =>
               foldM (fun st j => fast_sum_step J s st (i, j)) st (py_range (i + 1) n))
             (of_Z 0, 0%Z) (range (n - 1));
  Ok e.

(** One pass of the inner loop of [fast_sum_ternary]. *)
Definition fast_sum_ternary_step (J : list F) (s : list Z) (st : F * Z) (ij : Z * Z)
    : result (F * Z) :=
  let '(e, k) := st in
  let '(i, j) := ij in
  si ← getitem s i;
  sj ← getitem s j;
  e' ← (if (si =? sj)%Z then Jk ← getitem J k; Ok (e + Jk) else Ok e);
  Ok (e', (k + 1)%Z).

(** [fast_sum_ternary(J, s)] *)
Definition fast_sum_ternary (J : list F) (s : list Z) : result F :=
  let n := Z.of_nat (length s) in
  py_assert (Z.of_nat (length J) =? n * (n - 1) / 2)%Z;;
  '(e, _) ← foldM (fun st i =>
               foldM (fun st j => fast_sum_ternary_step J s st (i, j)) st
                 (py_range (i + 1) n))
             (of_Z 0, 0%Z) (range (n - 1));
  Ok e.

(** [-x] on a float *)
Definition neg (x : F) : F := x * of_Z (-1).

(** [np.sum(row*h)] for one row of [s*params[:n]]: the two are multiplied
    entry by entry when they have the same length, an operand of length
    one is broadcast over the other, and any other pair of lengths
    raises. *)
Definition field_sum (row : list Z) (h : list F) : result F :=
  if (Z.of_nat (length h) =? Z.of_nat (length row))%Z
  then Ok (Hessian.np_sum (zip_with (fun x y => of_Z x * y) row h))
  else match h, row with
       | [h0], _ => Ok (Hessian.np_sum (map (fun x => of_Z x * h0) row))
       | _, [x0] => Ok (Hessian.np_sum (map (fun y => of_Z x0 * y) h))
       | _, _ => Raise ValueError
       end.

(** [calc_e(s, params)] of [large_fim.py]; [n] is [s.shape[1]], the length
    of every row of [s], and the [fast_sum] it calls is the one over the
    rows of a two-dimensional array. *)
Definition calc_e (n : Z) (s : list (list Z)) (params : list F) : result (list F) :=
  fs ← mapM (fast_sum (slice_from params n)) s;
  hs ← mapM (fun row => field_sum row (slice_to params n)) s;
  Ok (zip_with (fun f h => neg f - h) fs hs).

End Energy.
End Energy.

(** ** The transition matrix of a spin replacement ([large_fim.py]) *)

Module Transition.

(** The binary digits of a positive number, most significant first. *)
Fixpoint bin_pos (p : positive) : list ascii :=
  match p with
  | xH => ["1"%char]
  | xO p' => bin_pos p' ++ ["0"%char]
  | xI p' => bin_pos p' ++ ["1"%char]
  end.

(** [bin(ix)[2:]]: for a negative number the two characters cut off are
    the sign and the zero. *)
Definition bin_tail (ix : Z) : list ascii :=
  match ix with
  | Z0 => ["0"%char]
  | Zpos p => bin_pos p
  | Zneg p => "b"%char :: bin_pos p
  end.

(** [s.zfill(n)] on a string that does not start with a sign. *)
Definition zfill (s : list ascii) (n : Z) : list ascii :=
  replicate (Z.to_nat (n - Z.of_nat (length s))) "0"%char ++ s.

(** [int(s, 2)] on a string of digits; anything but a binary digit is
    refused. *)
Definition digit (c : ascii) : result Z :=
  if Ascii.eqb c "0" then Ok 0
  else if Ascii.eqb c "1" then Ok 1
  else Raise ValueError.

Definition int2 (s : list ascii) : result Z :=
  match s with
  | [] => Raise ValueError
  | _ => foldM (fun acc c => d ← digit c; Ok (2 * acc + d)) 0 s
  end.

(** The number that a string of binary digits denotes. *)
Definition binary_value (s : list ascii) : Z :=
  fold_left (fun acc c => 2 * acc + (if Ascii.eqb c "1" then 1 else 0)) s 0.

Definition is_binary (s : list ascii) : Prop :=
  Forall (fun c => c = "0"%char \/ c = "1"%char) s.

Section Matrix.
Context `{Num F}.
Local Open Scope num_scope.

(** One pass of the loop over the states [ix]. *)
Definition transition_step (n i j : Z) (eps : F) (st : list Z * list Z * list F)
    (ix : Z) : result (list Z * list Z * list F) :=
  let '(rows, cols, vals) := st in
  let s := zfill (bin_tail ix) n in
  si ← getitem s i;
  sj ← getitem s j;
  if Ascii.eqb si sj
  then Ok (rows ++ [ix], cols ++ [ix], vals ++ [of_Z 1])
  else
    let flipped := if Ascii.eqb si "0" then "1"%char else "0"%char in
    r ← int2 (slice_to s i ++ [flipped] ++ slice_from s (i + 1));
    Ok (rows ++ [ix; r], cols ++ [ix; ix], vals ++ [of_Z 1 - eps; eps]).

(** [jit_spin_replace_transition_matrix(n, i, j, eps)]: the three lists
    [rows, cols, vals].  For a negative [n], [2**n] is a float and
    [range] refuses it. *)
Definition jit_spin_replace_transition_matrix (n i j : Z) (eps : F)
    : result (list Z * list Z * list F) :=
  if (n <? 0)%Z then Raise TypeError
  else foldM (transition_step n i j eps) ([], [], []) (range (2 ^ n)).

End Matrix.
End Transition.

(** * Properties *)

(** C4 (index service).  On the code, [unravel_index((1,2), 25)] is 23,
    although the pair (1,2) is at position 24 of the lexicographic
    enumeration of the pairs over [0,25); position 23 belongs to (0,24), for
    which the function also returns 23.  The binomial [binom(24,1)] is formed
    from float factorials and truncates to 23. *)
Theorem unravel_index_collision_at_25 :
  Index.unravel_index [1; 2] 25 = Ok 23 /\
  Index.unravel_index [0; 24] 25 = Ok 23 /\
  Index.position [1; 2] (Index.combinations (range 25) 2) = Some 24 /\
  Index.position [0; 24] (Index.combinations (range 25) 2) = Some 23 /\
  int_of_float (Index.binom 24 1) = Ok 23.
Proof.
  repeat split; vm_compute; reflexivity.
Qed.

(** ** Lists of pairs *)

Lemma combinations_1 {A : Type} (l : list A) :
  Index.combinations l 1 = map (fun y => [y]) l.
Proof.
  induction l as [|x l IH]; simpl; [done|].
  rewrite IH. simpl. by destruct l.
Qed.

Lemma pairs_of_cons {A : Type} (x : A) (l : list A) :
  Index.pairs_of (x :: l) = map (pair x) l ++ Index.pairs_of l.
Proof.
  unfold Index.pairs_of.
  change (Index.combinations (x :: l) 2)
    with (map (cons x) (Index.combinations l 1) ++ Index.combinations l 2).
  rewrite omap_app, combinations_1. f_equal.
  clear. induction l as [|y l IH]; [done|].
  cbn. by f_equal.
Qed.

Lemma elem_of_pairs_of_seq (a n i j : nat) :
  (i, j) ∈ Index.pairs_of (seq a n) <-> (a <= i /\ i < j /\ j < a + n)%nat.
Proof.
  revert a. induction n as [|n IH]; intros a; simpl.
  - unfold Index.pairs_of. simpl. rewrite elem_of_nil. lia.
  - rewrite pairs_of_cons, elem_of_app, list_elem_of_fmap, IH.
    split.
    + intros [[y [Heq Hy]]|Hr].
      * inversion Heq; subst. apply elem_of_seq in Hy. lia.
      * lia.
    + intros (Ha & Hij & Hj).
      destruct (decide (i = a)) as [->|Hne].
      * left. exists j. split; [done|]. apply elem_of_seq. lia.
      * right. lia.
Qed.

Lemma elem_of_eye_cells (m i j : nat) :
  (i, j) ∈ Hessian.eye_cells m <-> (i = j /\ i < m)%nat.
Proof.
  unfold Hessian.eye_cells. rewrite list_elem_of_fmap. split.
  - intros [y [Heq Hy]]. inversion Heq; subst. apply elem_of_seq in Hy. lia.
  - intros [-> Hi]. exists j. split; [done|]. apply elem_of_seq. lia.
Qed.

(** ** Array assignment *)

Section MatrixFacts.
Context `{Num F}.
Import Hessian.
Local Open Scope nat_scope.

Lemma mat_get_set (hess : list (list F)) (a b : nat) (v : F) (i j : nat) :
  mat_get (mat_set hess a b v) i j =
    if decide (a = i /\ b = j) then (fun _ => v) <$> mat_get hess i j else mat_get hess i j.
Proof.
  unfold mat_get, mat_set.
  destruct (decide (a = i)) as [->|Hai].
  - rewrite list_lookup_alter_eq. destruct (hess !! i) as [row|]; simpl.
    + destruct (decide (b = j)) as [->|Hbj].
      * rewrite decide_True by done.
        destruct (row !! j) as [x|] eqn:Hx; simpl.
        -- apply list_lookup_insert_eq. by eapply lookup_lt_Some.
        -- apply lookup_ge_None. rewrite length_insert. by apply lookup_ge_None.
      * rewrite decide_False by tauto. by apply list_lookup_insert_ne.
    + by destruct (decide _).
  - rewrite list_lookup_alter_ne by done. rewrite decide_False by tauto. done.
Qed.

(** Painting the cells of a list with a function of the cell. *)
Lemma mat_get_paint (f : nat * nat -> F) (cells : list (nat * nat))
    (hess : list (list F)) (i j : nat) :
  mat_get (foldl (fun M c => mat_set M c.1 c.2 (f c)) hess cells) i j =
    if decide ((i, j) ∈ cells) then (fun _ => f (i, j)) <$> mat_get hess i j
    else mat_get hess i j.
Proof.
  revert hess. induction cells as [|[a b] cells IH]; intros hess.
  - case_decide as Hin; [|done]. by apply elem_of_nil in Hin.
  - cbn [foldl]. rewrite IH, mat_get_set. cbn [fst snd].
    destruct (decide ((i, j) ∈ cells)) as [Hin|Hnin].
    + rewrite (decide_True (P := (i, j) ∈ (a, b) :: cells)) by (by right).
      case_decide; [|done]. by destruct (mat_get hess i j).
    + destruct (decide (a = i /\ b = j)) as [[-> ->]|Hne].
      * by rewrite (decide_True (P := (i, j) ∈ (i, j) :: cells)) by left.
      * rewrite (decide_False (P := (i, j) ∈ (a, b) :: cells)); [done|].
        intros Hc. apply elem_of_cons in Hc as [Hc|Hc]; [|done].
        inversion Hc; subst. tauto.
Qed.

Lemma assign_paint {X : Type} (g : X -> nat * nat) (f : nat * nat -> F)
    (l : list X) (hess : list (list F)) :
  assign hess (map g l) (map (fun x => f (g x)) l) =
    foldl (fun M c => mat_set M c.1 c.2 (f c)) hess (map g l).
Proof.
  unfold assign. revert hess.
  induction l as [|x l IH]; intros hess; simpl; [done|].
  rewrite IH. by destruct (g x).
Qed.

Lemma loop_paint {X : Type} (g : X -> nat * nat) (h : X -> F) (f : nat * nat -> F)
    (l : list X) (hess : list (list F)) :
  (forall x, h x = f (g x)) ->
  foldl (fun M x => mat_set M (g x).1 (g x).2 (h x)) hess l =
    foldl (fun M c => mat_set M c.1 c.2 (f c)) hess (map g l).
Proof.
  intros Hh. revert hess.
  induction l as [|x l IH]; intros hess; simpl; [done|].
  by rewrite IH, Hh.
Qed.

Lemma mat_get_zeros (m i j : nat) :
  i < m -> j < m -> mat_get (zeros m) i j = Some (of_Z 0).
Proof.
  intros Hi Hj. unfold mat_get, zeros.
  rewrite lookup_replicate_2 by done. by apply lookup_replicate_2.
Qed.

Lemma mat_get_add_transpose (hess : list (list F)) (i j : nat) :
  mat_get (add_transpose hess) i j =
    (fun x => add x (entry hess j i)) <$> mat_get hess i j.
Proof.
  unfold mat_get, add_transpose.
  rewrite list_lookup_imap. destruct (hess !! i) as [row|]; simpl; [|done].
  by rewrite list_lookup_imap.
Qed.

End MatrixFacts.

(** ** The assembly of the Hessian, cell by cell *)

Section AssemblyFacts.
Context `{Num F}.
Import Hessian.
Local Open Scope nat_scope.

Lemma foldl_ext_eq {A B : Type} (f g : A -> B -> A) :
  (forall a b, f a b = g a b) -> forall l a, foldl f a l = foldl g a l.
Proof.
  intros Hfg l. induction l as [|b l IH]; intros a; simpl; [done|].
  by rewrite Hfg, IH.
Qed.

Lemma entries_are_entry (m : nat) (hess : list (list F)) (g : nat -> nat -> F)
    (i j : nat) :
  entries_are m hess g -> i < m -> j < m -> entry hess i j = g i j.
Proof. intros Hg Hi Hj. unfold entry. by rewrite Hg. Qed.

Lemma entries_are_zeros (m : nat) : entries_are m (zeros m) (fun _ _ => of_Z 0).
Proof. intros i j Hi Hj. by apply mat_get_zeros. Qed.

Lemma entries_are_paint (m : nat) (hess : list (list F)) (g : nat -> nat -> F)
    (f : nat * nat -> F) (cells : list (nat * nat)) :
  entries_are m hess g ->
  entries_are m (foldl (fun M c => mat_set M c.1 c.2 (f c)) hess cells)
    (fun i j => if decide ((i, j) ∈ cells) then f (i, j) else g i j).
Proof.
  intros Hg i j Hi Hj. rewrite mat_get_paint, Hg by done.
  by case_decide.
Qed.

Lemma entries_are_add_transpose (m : nat) (hess : list (list F))
    (g : nat -> nat -> F) :
  entries_are m hess g ->
  entries_are m (add_transpose hess) (fun i j => add (g i j) (g j i)).
Proof.
  intros Hg i j Hi Hj.
  rewrite mat_get_add_transpose, Hg by done. simpl.
  by rewrite (entries_are_entry m hess g).
Qed.

Lemma entries_are_ext (m : nat) (hess : list (list F)) (g g' : nat -> nat -> F) :
  entries_are m hess g ->
  (forall i j, i < m -> j < m -> g i j = g' i j) ->
  entries_are m hess g'.
Proof. intros Hg Heq i j Hi Hj. rewrite Hg by done. f_equal. by apply Heq. Qed.

(** The two ways of filling the raw entries give the same array. *)
Lemma fill_loops_pool (diag : nat -> F) (off_diag : nat * nat -> F) (m : nat) :
  fill_loops diag off_diag m = fill_pool diag off_diag m.
Proof.
  unfold fill_loops, fill_pool, eye_cells, triu_cells.
  rewrite (assign_paint (fun i : nat => (i, i)) (fun c => diag c.1)).
  rewrite <- (loop_paint (fun i : nat => (i, i)) diag (fun c => diag c.1)) by done.
  cbn [fst snd].
  set (hess := foldl _ (zeros m) (seq 0 m)).
  rewrite <- (list_fmap_id (Index.pairs_of (seq 0 m))) at 2.
  rewrite (assign_paint id off_diag), list_fmap_id.
  apply foldl_ext_eq. by intros M [i j].
Qed.

Lemma entries_are_fill_pool (diag : nat -> F) (off_diag : nat * nat -> F) (m : nat) :
  entries_are m (fill_pool diag off_diag m) (raw_entry diag off_diag).
Proof.
  unfold fill_pool, eye_cells, triu_cells.
  rewrite (assign_paint (fun i : nat => (i, i)) (fun c => diag c.1)).
  rewrite <- (list_fmap_id (Index.pairs_of (seq 0 m))) at 1.
  rewrite (assign_paint id off_diag), list_fmap_id.
  eapply entries_are_ext.
  - apply entries_are_paint, entries_are_paint, entries_are_zeros.
  - intros i j Hi Hj. cbn beta. unfold raw_entry.
    fold (eye_cells m).
    destruct (decide (i < j)) as [Hlt|Hge].
    + rewrite decide_True; [done|]. apply elem_of_pairs_of_seq. lia.
    + rewrite decide_False by (rewrite elem_of_pairs_of_seq; lia).
      destruct (decide (i = j)) as [->|Hne].
      * rewrite decide_True; [done|]. by apply elem_of_eye_cells.
      * rewrite decide_False; [done|]. rewrite elem_of_eye_cells. lia.
Qed.

Lemma assign_paint_cells (h f : nat * nat -> F) (cells : list (nat * nat))
    (hess : list (list F)) :
  (forall c, h c = f c) ->
  assign hess cells (map h cells) =
    foldl (fun M c => mat_set M c.1 c.2 (f c)) hess cells.
Proof.
  intros Hh. unfold assign. revert hess.
  induction cells as [|[a b] cells IH]; intros hess; simpl; [done|].
  by rewrite IH, Hh.
Qed.

Lemma subtract_paint (m : nat) (hess : list (list F)) :
  subtract_linear_terms m hess =
    foldl (fun M c => mat_set M c.1 c.2
             (sub (entry hess c.1 c.2)
                  (add (div (entry hess c.1 c.1) (of_Z 2))
                       (div (entry hess c.2 c.2) (of_Z 2)))))
      hess (triu_cells m).
Proof.
  unfold subtract_linear_terms, triu_cells.
  change (zip_with ?f ?l (map ?g ?l)) with (zip_with f l (g <$> l)).
  rewrite zip_with_fmap_r, zip_with_diag.
  apply (assign_paint_cells _ _ (Index.pairs_of (seq 0 m))).
  by intros [a b].
Qed.

Lemma halve_paint (m : nat) (hess : list (list F)) :
  halve_diagonal m hess =
    foldl (fun M c => mat_set M c.1 c.2 (div (entry hess c.1 c.1) (of_Z 2)))
      hess (eye_cells m).
Proof.
  unfold halve_diagonal, eye_cells.
  by rewrite (assign_paint (fun i : nat => (i, i))
                (fun c => div (entry hess c.1 c.1) (of_Z 2))).
Qed.

(** Every entry of the assembled Hessian. *)
Lemma entries_are_symmetrize (diag : nat -> F) (off_diag : nat * nat -> F) (m : nat) :
  entries_are m (symmetrize m (fill_pool diag off_diag m)) (sym_entry diag off_diag).
Proof.
  pose proof (entries_are_fill_pool diag off_diag m) as Hraw.
  set (R := fill_pool diag off_diag m) in *.
  unfold symmetrize. rewrite halve_paint, subtract_paint.
  pose proof (entries_are_paint m R _
    (fun c => sub (entry R c.1 c.2)
                (add (div (entry R c.1 c.1) (of_Z 2)) (div (entry R c.2 c.2) (of_Z 2))))
    (triu_cells m) Hraw) as HS.
  set (S := foldl _ R (triu_cells m)) in *.
  pose proof (entries_are_add_transpose m S _ HS) as HT.
  set (T := add_transpose S) in *.
  eapply entries_are_ext; [apply entries_are_paint, HT|].
  intros i j Hi Hj. cbn beta. cbn [fst snd]. unfold sym_entry.
  rewrite !(entries_are_entry m T _ _ _ HT) by done. cbn beta. cbn [fst snd].
  rewrite !(entries_are_entry m R _ _ _ Hraw) by done.
  unfold triu_cells, raw_entry.
  destruct (decide (i = j)) as [->|Hne].
  - rewrite (decide_True (P := (j, j) ∈ eye_cells m)) by (by apply elem_of_eye_cells).
    rewrite (decide_False (P := (j, j) ∈ Index.pairs_of (seq 0 m)))
      by (rewrite elem_of_pairs_of_seq; lia).
    rewrite (decide_False (P := j < j)) by lia.
    by rewrite (decide_True (P := j = j)).
  - rewrite (decide_False (P := (i, j) ∈ eye_cells m))
      by (rewrite elem_of_eye_cells; lia).
    destruct (decide (i < j)) as [Hlt|Hge].
    + rewrite (decide_True (P := (i, j) ∈ Index.pairs_of (seq 0 m)))
        by (apply elem_of_pairs_of_seq; lia).
      rewrite (decide_False (P := (j, i) ∈ Index.pairs_of (seq 0 m)))
        by (rewrite elem_of_pairs_of_seq; lia).
      rewrite (decide_False (P := i < i)) by lia.
      rewrite (decide_False (P := j < j)) by lia.
      rewrite (decide_False (P := j < i)) by lia.
      rewrite (decide_False (P := j = i)) by lia.
      by rewrite !decide_True by done.
    + rewrite (decide_False (P := (i, j) ∈ Index.pairs_of (seq 0 m)))
        by (rewrite elem_of_pairs_of_seq; lia).
      rewrite (decide_True (P := (j, i) ∈ Index.pairs_of (seq 0 m)))
        by (apply elem_of_pairs_of_seq; lia).
      rewrite (decide_False (P := i < i)) by lia.
      rewrite (decide_False (P := j < j)) by lia.
      rewrite (decide_True (P := j < i)) by lia.
      by rewrite !decide_True by done.
Qed.

End AssemblyFacts.

(** ** The coarse-grained estimators *)

Section MajCurvature.
Context `{Num F}.
Import Hessian.
Variable diag : F -> nat -> F.
Variable off_diag : F -> nat * nat -> F.
Variable m : nat.

Lemma bind_Ok {A B : Type} (c : result A) (k : A -> result B) (b : B) :
  c ≫= k = Ok b -> exists a, c = Ok a /\ k a = Ok b.
Proof. destruct c as [a|e]; simpl; [eauto|discriminate]. Qed.

Lemma py_assert_Ok (c : bool) (u : unit) : py_assert c = Ok u -> c = true.
Proof. by destruct c. Qed.

(** What [maj_body] returns is the assembled array, and it passed both
    assertions. *)
Lemma maj_body_Ok (rec : F -> result HessOut) (serial : bool) (epsdJ : F)
    (check_stability : bool) (rtol : F) (out : HessOut) :
  maj_body diag off_diag m rec serial epsdJ check_stability rtol = Ok out ->
  out.1.1 = symmetrize m (fill_pool (diag epsdJ) (off_diag epsdJ) m) /\
  any_entry isnan out.1.1 = false /\ any_entry isinf out.1.1 = false.
Proof.
  unfold maj_body. intros Hout.
  assert (Hfill : (if serial then fill_loops (diag epsdJ) (off_diag epsdJ) m
                   else fill_pool (diag epsdJ) (off_diag epsdJ) m)
                  = fill_pool (diag epsdJ) (off_diag epsdJ) m).
  { destruct serial; [apply fill_loops_pool|done]. }
  rewrite Hfill in Hout. clear Hfill.
  set (hess := symmetrize m _) in *.
  apply bind_Ok in Hout as (u & Hcheck & Hout).
  unfold check_precision in Hcheck.
  apply bind_Ok in Hcheck as (u1 & Hnan & Hinf).
  apply py_assert_Ok, negb_true_iff in Hnan.
  apply py_assert_Ok, negb_true_iff in Hinf.
  destruct check_stability.
  - apply bind_Ok in Hout as ([[hess2 ef] err] & _ & Hout).
    inversion Hout; subst. done.
  - inversion Hout; subst. done.
Qed.

Lemma _maj_curvature_Ok (normalized has_pool : bool) (epsdJ : F)
    (check_stability : bool) (rtol : F) (out : HessOut) :
  _maj_curvature diag off_diag m normalized has_pool epsdJ check_stability rtol = Ok out ->
  out.1.1 = symmetrize m (fill_pool (diag epsdJ) (off_diag epsdJ) m) /\
  any_entry isnan out.1.1 = false /\ any_entry isinf out.1.1 = false.
Proof.
  unfold _maj_curvature. intros Hout.
  apply bind_Ok in Hout as (u & _ & Hout). by eapply maj_body_Ok.
Qed.

Lemma _maj_curvature_high_prec_Ok (n_cpus : option Z) (epsdJ : F)
    (check_stability : bool) (rtol : F) (out : HessOut) :
  _maj_curvature_high_prec diag off_diag m n_cpus epsdJ check_stability rtol = Ok out ->
  out.1.1 = symmetrize m (fill_pool (diag epsdJ) (off_diag epsdJ) m) /\
  any_entry isnan out.1.1 = false /\ any_entry isinf out.1.1 = false.
Proof. unfold _maj_curvature_high_prec. apply maj_body_Ok. Qed.

Lemma any_entry_false (f : F -> bool) (hess : list (list F)) (i j : nat) (x : F) :
  any_entry f hess = false -> mat_get hess i j = Some x -> f x = false.
Proof.
  unfold any_entry, mat_get. intros Hany Hget.
  destruct (hess !! i) as [row|] eqn:Hrow; [|done].
  apply not_true_is_false. intros Hfx.
  assert (Hex : existsb (existsb f) hess = true); [|congruence].
  apply existsb_exists. exists row. split.
  - apply list_elem_of_In. by eapply list_elem_of_lookup_2.
  - apply existsb_exists. exists x. split; [|done].
    apply list_elem_of_In. by eapply list_elem_of_lookup_2.
Qed.

End MajCurvature.

(** C8 (post-condition).  An array returned by [_maj_curvature] or by
    [_maj_curvature_high_prec] has no NaN and no infinite entry: both
    assertions were evaluated on exactly the array that is returned, and a
    failed one raises [AssertionError] instead of returning. *)
Theorem maj_curvature_returns_finite `{Num F}
    (diag : F -> nat -> F) (off_diag : F -> nat * nat -> F) (m : nat)
    (normalized has_pool : bool) (n_cpus : option Z) (epsdJ rtol : F)
    (check_stability : bool) (out : Hessian.HessOut) :
  Hessian._maj_curvature diag off_diag m normalized has_pool epsdJ
    check_stability rtol = Ok out \/
  Hessian._maj_curvature_high_prec diag off_diag m n_cpus epsdJ
    check_stability rtol = Ok out ->
  forall (i j : nat) (x : F),
    Hessian.mat_get out.1.1 i j = Some x -> isnan x = false /\ isinf x = false.
Proof.
  intros Hout i j x Hx.
  assert (Hfin : Hessian.any_entry isnan out.1.1 = false /\
                 Hessian.any_entry isinf out.1.1 = false).
  { destruct Hout as [Hout|Hout].
    - by apply _maj_curvature_Ok in Hout as (_ & ? & ?).
    - by apply _maj_curvature_high_prec_Ok in Hout as (_ & ? & ?). }
  destruct Hfin as [Hnan Hinf].
  split; by eapply any_entry_false.
Qed.

Lemma maj_curvature_returns_finite_witness :
  isnan (-2)%float = false /\ isinf (-2)%float = false.
Proof.
  refine (maj_curvature_returns_finite (F := float)
            (fun _ i => match i with O => 2 | _ => 4 end)%float
            (fun _ _ => 1%float) 2 true false None 0.5%float 0.125%float true
            ([[2; -2]; [-2; 4]]%float, Some 0%Z, Some [[0; 0]; [0; 0]]%float)
            _ 0%nat 1%nat (-2)%float _).
  - left. vm_compute. reflexivity.
  - vm_compute. reflexivity.
Defined.

(** Over the rationals no entry is NaN or infinite, so the estimator returns
    whenever the coarse-grained distribution is normalized. *)
Lemma any_entry_const_false (hess : list (list Q)) :
  Hessian.any_entry (fun _ => false) hess = false.
Proof.
  unfold Hessian.any_entry.
  induction hess as [|row hess IH]; simpl; [done|].
  rewrite IH, orb_false_r. clear. by induction row.
Qed.

Lemma maj_body_total_Q (diag : Q -> nat -> Q) (off_diag : Q -> nat * nat -> Q)
    (m : nat) (rec : Q -> result Hessian.HessOut) (serial : bool) (epsdJ rtol : Q) :
  exists out, Hessian.maj_body diag off_diag m rec serial epsdJ false rtol = Ok out.
Proof.
  unfold Hessian.maj_body, Hessian.check_precision. cbn [isnan isinf Num_Q].
  rewrite !any_entry_const_false. simpl. eauto.
Qed.

Lemma maj_curvature_total_Q (diag : Q -> nat -> Q) (off_diag : Q -> nat * nat -> Q)
    (m : nat) (has_pool : bool) (epsdJ rtol : Q) (check_stability : bool) :
  exists out,
    Hessian._maj_curvature diag off_diag m true has_pool epsdJ check_stability rtol
    = Ok out.
Proof.
  unfold Hessian._maj_curvature. simpl.
  destruct check_stability; [|apply maj_body_total_Q].
  unfold Hessian.maj_body at 1, Hessian.check_precision. cbn [isnan isinf Num_Q].
  rewrite !any_entry_const_false. simpl.
  destruct (maj_body_total_Q diag off_diag m (fun _ => Raise RecursionError)
              (negb has_pool) (epsdJ / 2)%Q rtol) as [[[hess2 ef] err] Hrec].
  cbn [div Num_Q of_Z] in *. change (inject_Z 2) with 2%Q.
  rewrite Hrec. simpl. eauto.
Qed.



(** ** The full-resolution estimator *)

(** C6 (serial and parallel paths of [_dkl_curvature]).  For the same raw
    entries (diagonal 2 and 4, off-diagonal 1) the branch taken with
    [n_cpus=1] returns [[2, 1], [1, 4]] and the branch taken with
    [n_cpus=None] returns [[2, -2], [-2, 4]]: only the second subtracts
    hess[i,i]/2 + hess[j,j]/2 from the off-diagonal entries. *)
Theorem dkl_curvature_paths_differ :
  Hessian._dkl_curvature (F := float)
    (fun _ i => match i with O => 2 | _ => 4 end)%float (fun _ _ => 1%float)
    2 (Some 1%Z) true 0.5%float
  = Ok [[2; 1]; [1; 4]]%float /\
  Hessian._dkl_curvature (F := float)
    (fun _ i => match i with O => 2 | _ => 4 end)%float (fun _ _ => 1%float)
    2 None true 0.5%float
  = Ok [[2; -2]; [-2; 4]]%float.
Proof. split; vm_compute; reflexivity. Qed.

(** ** Coarse-graining of a distribution *)

Section P2pk.
Import Hessian.
Local Open Scope Q_scope.

(** The entries of [p] that fall in bin [i]. *)
Lemma mask_select_Ok (p : list Q) (invix : list Z) (i : Z) :
  length invix = length p ->
  mask_select p (map (fun v => (v =? i)%Z) invix)
  = Ok (omap (fun '(x, b) => if (b : bool) then Some x else None)
          (zip p (map (fun v => (v =? i)%Z) invix))).
Proof.
  intros Hlen. unfold mask_select.
  rewrite length_map, Hlen, Z.eqb_refl. done.
Qed.

Lemma foldl_Qplus (a : Q) (l : list Q) : foldl Qplus a l == a + foldl Qplus 0 l.
Proof.
  revert a. induction l as [|x l IH]; intros a; simpl.
  - ring.
  - rewrite IH, (IH (0 + x)). ring.
Qed.

Lemma np_sum_cons (x : Q) (l : list Q) : np_sum (x :: l) == x + np_sum l.
Proof.
  unfold np_sum. cbn [foldl add of_Z Num_Q]. rewrite foldl_Qplus.
  change (inject_Z 0) with 0. ring.
Qed.

Lemma np_sum_nil : np_sum ([] : list Q) == 0.
Proof. reflexivity. Qed.

(** The sum over the bins of the mass that one entry [x] with bin [v]
    contributes. *)
Lemma np_sum_indicator (x : Q) (v : Z) (bins : list Z) :
  NoDup bins ->
  np_sum (map (fun i => if (v =? i)%Z then x else 0) bins)
  == if decide (v ∈ bins) then x else 0.
Proof.
  induction bins as [|b bins IH]; intros Hnd.
  - rewrite decide_False by apply not_elem_of_nil. reflexivity.
  - apply NoDup_cons in Hnd as [Hb Hnd].
    cbn [map]. rewrite np_sum_cons, IH by done.
    destruct (Z.eqb_spec v b) as [->|Hne].
    + rewrite (decide_True (P := b ∈ b :: bins)) by left.
      rewrite decide_False by done. ring.
    + destruct (decide (v ∈ bins)) as [Hin|Hnin].
      * rewrite (decide_True (P := v ∈ b :: bins)) by (by right). ring.
      * rewrite (decide_False (P := v ∈ b :: bins)); [ring|].
        intros Hc. apply elem_of_cons in Hc as [?|?]; done.
Qed.

Lemma np_sum_map_plus {A : Type} (f g : A -> Q) (l : list A) :
  np_sum (map (fun i => f i + g i) l) == np_sum (map f l) + np_sum (map g l).
Proof.
  induction l as [|a l IH]; cbn [map].
  - rewrite !np_sum_nil. ring.
  - rewrite !np_sum_cons, IH. ring.
Qed.

Lemma np_sum_map_ext {A : Type} (f g : A -> Q) (l : list A) :
  (forall a, f a == g a) -> np_sum (map f l) == np_sum (map g l).
Proof.
  intros Hfg. induction l as [|a l IH]; cbn [map]; [reflexivity|].
  by rewrite !np_sum_cons, IH, Hfg.
Qed.

(** Summing every bin gives back the total mass. *)
Lemma bins_conserve_mass (p : list Q) (invix bins : list Z) :
  length invix = length p ->
  NoDup bins ->
  Forall (fun v => v ∈ bins) invix ->
  np_sum (map (fun i =>
            np_sum (omap (fun '(x, b) => if (b : bool) then Some x else None)
                      (zip p (map (fun v => (v =? i)%Z) invix)))) bins)
  == np_sum p.
Proof.
  intros Hlen Hnd. revert invix Hlen.
  induction p as [|x p IH]; intros [|v invix] Hlen Hin; try discriminate.
  - cbn [zip zip_with omap list_omap]. clear.
    induction bins as [|b bins IH]; cbn [map]; [reflexivity|].
    rewrite np_sum_cons, IH, np_sum_nil. ring.
  - apply Forall_cons in Hin as [Hv Hin]. injection Hlen as Hlen.
    assert (Hx : np_sum (map (fun i => if (v =? i)%Z then x else 0) bins) == x).
    { rewrite np_sum_indicator by done. by rewrite decide_True. }
    rewrite np_sum_cons, <- (IH invix Hlen Hin), <- Hx at 1.
    rewrite <- np_sum_map_plus. apply np_sum_map_ext. intros i.
    cbn [map zip zip_with omap list_omap].
    destruct (v =? i)%Z; cbn.
    + apply np_sum_cons.
    + ring.
Qed.

End P2pk.

Lemma mapM_Ok_map {A B : Type} (g : A -> result B) (f : A -> B) (l : list A) :
  (forall a, g a = Ok (f a)) -> mapM g l = Ok (map f l).
Proof.
  intros Hg. induction l as [|a l IH]; [done|].
  cbn. rewrite Hg. cbn. change (mapM g l) with (mapM g l). rewrite IH. done.
Qed.

Lemma elem_of_py_range (a b v : Z) : v ∈ py_range a b <-> (a <= v < b)%Z.
Proof.
  unfold py_range. rewrite list_elem_of_fmap. split.
  - intros [k [-> Hk]]. apply elem_of_seq in Hk. lia.
  - intros Hv. exists (Z.to_nat (v - a)). split; [lia|].
    apply elem_of_seq. lia.
Qed.

Lemma NoDup_py_range (a b : Z) : NoDup (py_range a b).
Proof.
  unfold py_range. apply NoDup_fmap_2; [|apply NoDup_seq].
  intros x y Hxy. lia.
Qed.



(** ** Error flags of the solver *)

Ltac bind_inv H :=
  let a := fresh "a" in
  let Ha := fresh "Ha" in
  apply bind_Ok in H as (a & Ha & H).

Section SolverFlags.
Import Solver.
Variable linalg_solve : list (list float) -> list float -> result (list float).
Variable linalg_lstsq : list (list float) -> list float -> list float.
Variable linalg_cond : list (list float) -> float.
Variable log10 : float -> float.

(** [IsingFisherCurvatureMethod1.solve_linearized_perturbation] sets the
    flag from the condition number alone. *)
Lemma Method1_errflag (self : Model) (iStar : Z) (p sisj : option (list float))
    (eps : option float) (check_stability : bool) (method : string) (r : SolveOut) :
  Method1_solve_linearized_perturbation linalg_solve linalg_lstsq linalg_cond
    self iStar p sisj true eps check_stability method = Ok r ->
  exists A C, out_AC r = Some (A, C) /\
    out_errflag r = if badly_conditioned linalg_cond A then 1%Z else 0%Z.
Proof.
  unfold Method1_solve_linearized_perturbation.
  unfold Method1_solve_body at 1. intros Hr.
  destruct (split_moments self sisj) as [si sisj'].
  bind_inv Hr. destruct a as [C perturb_up].
  bind_inv Hr. bind_inv Hr. bind_inv Hr. bind_inv Hr.
  inversion Hr; subst; cbn. eauto.
Qed.

(** Without the stability check the body does not call itself. *)
Lemma Method2_solve_body_unchecked
    (rec1 rec2 : Model -> Z -> Z -> option (list float) -> option (list float) ->
                 bool -> option float -> bool -> result SolveOut)
    (self : Model) (iStar aStar : Z) (p sisj : option (list float))
    (full_output : bool) (eps : option float) :
  Method2_solve_body linalg_solve linalg_cond log10 rec1 self iStar aStar p sisj
    full_output eps false
  = Method2_solve_body linalg_solve linalg_cond log10 rec2 self iStar aStar p sisj
      full_output eps false.
Proof. reflexivity. Qed.

(** [full_output] changes what is returned, not what is computed. *)
Lemma Method2_solve_body_full_output
    (rec : Model -> Z -> Z -> option (list float) -> option (list float) ->
           bool -> option float -> bool -> result SolveOut)
    (self : Model) (iStar aStar : Z) (p sisj : option (list float))
    (eps : option float) (r : SolveOut) :
  Method2_solve_body linalg_solve linalg_cond log10 rec self iStar aStar p sisj
    false eps false = Ok r ->
  exists r', Method2_solve_body linalg_solve linalg_cond log10 rec self iStar aStar
               p sisj true eps false = Ok r' /\
             out_dJ r' = out_dJ r /\ out_errflag r' = out_errflag r.
Proof.
  unfold Method2_solve_body. intros Hr.
  destruct (split_moments self sisj) as [si sisj'].
  bind_inv Hr. bind_inv Hr. bind_inv Hr. bind_inv Hr. cbn in Hr.
  rewrite Ha. cbn. rewrite Ha0. cbn. rewrite Ha1. cbn. rewrite Ha2. cbn.
  inversion Hr; subst; cbn. eauto.
Qed.

(** The flag of [IsingFisherCurvatureMethod2._solve_linearized_perturbation]
    in full. *)
Lemma Method2_errflag (self : Model) (iStar aStar : Z) (p sisj : option (list float))
    (eps : option float) (check_stability : bool) (r : SolveOut) :
  Method2__solve_linearized_perturbation linalg_solve linalg_cond log10
    self iStar aStar p sisj true eps check_stability = Ok r ->
  exists A C, out_AC r = Some (A, C) /\
    if check_stability then
      exists r2 A2 C2,
        Method2__solve_linearized_perturbation linalg_solve linalg_cond log10
          self iStar aStar (Some (default (self_p self) p))
          (Some ((split_moments self sisj).1 ++ (split_moments self sisj).2)) true
          (Some (or_default eps (self_eps self) / of_Z 2)%num) false = Ok r2 /\
        out_AC r2 = Some (A2, C2) /\
        out_relerr r = Some (relative_error log10 (out_dJ r) (out_dJ r2)) /\
        out_errflag r =
          if badly_conditioned linalg_cond A then 1%Z
          else if unstable (relative_error log10 (out_dJ r) (out_dJ r2)) then 2%Z
          else if badly_conditioned linalg_cond A2 then 1%Z else 0%Z
    else
      out_errflag r = if badly_conditioned linalg_cond A then 1%Z else 0%Z.
Proof.
  unfold Method2__solve_linearized_perturbation.
  unfold Method2_solve_body at 1. intros Hr.
  destruct (split_moments self sisj) as [si sisj'] eqn:Hsplit.
  bind_inv Hr. bind_inv Hr. bind_inv Hr. bind_inv Hr.
  destruct check_stability.
  - bind_inv Hr. destruct a3 as [errflag relerr].
    bind_inv Ha3. cbn [fst snd].
    destruct (Method2_solve_body_full_output _ _ _ _ _ _ _ _ Ha4)
      as (r2 & Hr2 & HdJ & Hflag).
    inversion Ha3; subst errflag relerr; clear Ha3.
    inversion Hr; subst r; clear Hr. cbn.
    exists a0, a1. split; [done|].
    pose proof Hr2 as Hr2'.
    unfold Method2_solve_body in Hr2'.
    destruct (split_moments self (Some (si ++ sisj'))) as [si2 sisj2].
    bind_inv Hr2'. bind_inv Hr2'. bind_inv Hr2'. bind_inv Hr2'. cbn in Hr2'.
    exists r2, a5, a6.
    split; [exact Hr2|]. 
    inversion Hr2'; subst r2; cbn in *.
    rewrite <- HdJ, <- Hflag.
    split; [reflexivity|]. split; reflexivity.
  - cbn in Hr. inversion Hr; subst; cbn. eauto.
Qed.

End SolverFlags.




(** ** A singular linear system *)

Section Singular.
Import Solver.
Variable linalg_solve : list (list float) -> list float -> result (list float).
Variable linalg_lstsq : list (list float) -> list float -> list float.
Variable linalg_cond : list (list float) -> float.
Variable log10 : float -> float.


End Singular.

(** C5 (singular system).  In
    [IsingFisherCurvatureMethod2._solve_linearized_perturbation] the call of
    [np.linalg.solve] is not inside a [try]: when it raises [LinAlgError],
    so do the method and the search
    [IsingFisherCurvatureMethod2.solve_linearized_perturbation] around it;
    no dJ and no error flag are returned. *)
Theorem method2_solve_raises_on_singular
    (linalg_solve : list (list float) -> list float -> result (list float))
    (linalg_cond : list (list float) -> float) (log10 : float -> float)
    (self : Solver.Model) (iStar aStar : Z) (p sisj : option (list float))
    (full_output : bool) (eps : option float) (check_stability : bool)
    (C C' : list float) (A : list (list float)) :
  Solver.Method2_observables_after_perturbation self iStar aStar
    (Some (or_default eps (Solver.self_eps self))) = Ok C ->
  Solver.assemble_A self (Solver.split_moments self sisj).1
    (Solver.split_moments self sisj).2 (default (Solver.self_p self) p) C = Ok A ->
  Solver.vsub C (Solver.self_sisj self) = Ok C' ->
  linalg_solve A C' = Raise LinAlgError ->
  Solver.Method2__solve_linearized_perturbation linalg_solve linalg_cond log10
    self iStar aStar p sisj full_output eps check_stability = Raise LinAlgError /\
  forall fuel : nat,
    Solver.Method2_solve_linearized_perturbation linalg_solve linalg_cond log10
      fuel self iStar aStar p sisj eps = Raise LinAlgError.
Proof.
  intros Hobs HA HC Hsolve.
  assert (Hraise : forall fo cs,
    Solver.Method2__solve_linearized_perturbation linalg_solve linalg_cond log10
      self iStar aStar p sisj fo eps cs = Raise LinAlgError).
  { intros fo cs.
    unfold Solver.Method2__solve_linearized_perturbation.
    unfold Solver.Method2_solve_body at 1.
    destruct (Solver.split_moments self sisj) as [si sisj'].
    rewrite Hobs. cbn. cbn in HA. rewrite HA. cbn. rewrite HC. cbn.
    rewrite Hsolve. reflexivity. }
  split; [apply Hraise|].
  intros fuel. unfold Solver.Method2_solve_linearized_perturbation, Solver.eps_search.
  rewrite Hraise. reflexivity.
Qed.

Lemma method2_solve_raises_on_singular_witness :
  let self := Examples.model2 [1; 1; 1]%float [0; 0; 0; 1]%float 0x1p-20%float in
  Solver.Method2__solve_linearized_perturbation Examples.linalg_solve
    Examples.linalg_cond Examples.log10 self 0%Z 1%Z None None false None true
  = Raise LinAlgError /\
  forall fuel : nat,
    Solver.Method2_solve_linearized_perturbation Examples.linalg_solve
      Examples.linalg_cond Examples.log10 fuel self 0%Z 1%Z None None None
    = Raise LinAlgError.
Proof.
  intros self.
  apply (method2_solve_raises_on_singular Examples.linalg_solve Examples.linalg_cond
           Examples.log10 self 0%Z 1%Z None None false None true
           [1; 1; 1]%float [0; 0; 0]%float
           [[0; 0; 0]; [0; 0; 0]; [0; 0; 0]]%float);
    vm_compute; reflexivity.
Defined.

(** ** The search over [eps] *)


(** C3 (search over eps).  The inner solves of a search return relative
    errors -1 at eps0, -0.5 at 10 eps0, -2 at eps0/10 and -1.5 at eps0/100,
    each flagged 2.  The search goes down, keeps the solution of eps0/10
    as [prevdJ], solves at eps0/100, sees no improvement and stops; it
    returns the solution of eps0/100 (dJ = 4, error -1.5), not the one
    with the smallest error (dJ = 3, error -2, at eps0/10). *)
Theorem eps_search_returns_last_solve :
  (forall fuel : nat,
     Solver.eps_search (S fuel) Examples.search_trace Examples.eps0 None
     = Ok (Some ([4]%float, 2%Z))) /\
  Examples.search_trace None = Ok (Examples.solved 1 (-1)) /\
  Examples.search_trace (Some (Examples.eps0 * 10)%float)
    = Ok (Examples.solved 2 (-0.5)) /\
  Examples.search_trace (Some (Examples.eps0 / 10)%float)
    = Ok (Examples.solved 3 (-2)) /\
  Examples.search_trace (Some (Examples.eps0 / 10 * (1 / 10))%float)
    = Ok (Examples.solved 4 (-1.5)).
Proof.
  split; [|repeat split; vm_compute; reflexivity].
  intros fuel. vm_compute. reflexivity.
Qed.

(** ** Constructors *)

Section Constructors.
Import Solver.
Variable linalg_solve : list (list float) -> list float -> result (list float).
Variable linalg_lstsq : list (list float) -> list float -> list float.
Variable linalg_cond : list (list float) -> float.
Variable log10 : float -> float.
Variable import_module : Z -> result IsingEqn.
Variable bin_states : Z -> list (list Z).
Variable unique_abs_sums : list (list Z) -> list Z * list Z.
Variable np_unique : list Z -> list Z.
Variable sample_large_ising : list float -> list float -> Z -> result LargeIsing.

Lemma Method1_init_guard_fails (n : Z) (h J : option (list float)) (eps : float)
    (precompute : bool) (n_cpus : option Z) :
  init_guard n eps point_one = false ->
  Method1___init__ linalg_solve linalg_lstsq linalg_cond import_module bin_states
    unique_abs_sums n h J eps precompute n_cpus = Raise AssertionError.
Proof. intros Hg. unfold Method1___init__. by rewrite Hg. Qed.

Lemma Magnetization_init_guard_fails (fuel : nat) (n : Z) (h J : option (list float))
    (eps : float) (precompute : bool) (n_cpus : option Z) (n_samples : Z) :
  init_guard n eps point_one = false ->
  Magnetization___init__ linalg_solve linalg_lstsq linalg_cond log10 unique_abs_sums
    np_unique sample_large_ising fuel n h J eps precompute n_cpus n_samples
  = Raise AssertionError.
Proof. intros Hg. unfold Magnetization___init__. by rewrite Hg. Qed.

Lemma Method1_init_succeeds (n : Z) (hv Jv : list float) (eps : float)
    (n_cpus : option Z) (ising : IsingEqn)
    (caches : gmap (Z * Z * Z) (list Z) * gmap (Z * Z * Z * Z) (list Z)) :
  init_guard n eps point_one = true ->
  import_module n = Ok ising ->
  _triplets_and_quartets n (bin_states n) = Ok caches ->
  exists self,
    Method1___init__ linalg_solve linalg_lstsq linalg_cond import_module bin_states
      unique_abs_sums n (Some hv) (Some Jv) eps false n_cpus = Ok self /\
    self_n self = n /\ self_eps self = eps /\ self_hJ self = hv ++ Jv.
Proof.
  intros Hg Himp Hc. unfold Method1___init__.
  rewrite Hg. cbn. rewrite Himp. cbn.
  destruct (unique_abs_sums (bin_states n)) as [uix invix].
  rewrite Hc. destruct caches as [t q]. cbn. eauto.
Qed.

Lemma Magnetization_init_succeeds (fuel : nat) (n : Z) (hv Jv : list float)
    (eps : float) (n_cpus : option Z) (n_samples : Z) (ising : LargeIsing)
    (caches : gmap (Z * Z * Z) (list Z) * gmap (Z * Z * Z * Z) (list Z)) :
  init_guard n eps point_one = true ->
  sample_large_ising hv Jv n_samples = Ok ising ->
  _triplets_and_quartets n (large_states ising) = Ok caches ->
  exists self,
    Magnetization___init__ linalg_solve linalg_lstsq linalg_cond log10 unique_abs_sums
      np_unique sample_large_ising fuel n (Some hv) (Some Jv) eps false n_cpus
      n_samples = Ok (Some self) /\
    self_n self = n /\ self_eps self = eps /\ self_hJ self = hv ++ Jv.
Proof.
  intros Hg Hs Hc. unfold Magnetization___init__.
  rewrite Hg. cbn. rewrite Hs. cbn.
  destruct (unique_abs_sums (large_states ising)) as [uix invix].
  rewrite Hc. destruct caches as [t q]. cbn. eauto.
Qed.

End Constructors.




(** ** The mean-matching perturbation *)

(** C7 (mean-matching perturbation).  Two places of the code break it.
    For 25 spins, [jit_observables_after_perturbation_plus] with i = 1 and
    a = 2 writes entry 23 of the pairwise table, which is the entry of the
    pair (0,24) and does not involve spin 1: [unravel_index((1,2), 25)]
    is 23.  And the static method [_observables_after_perturbation_up]
    starts every update from 1 instead of from the current value: at
    si = (0.5, 0.25), sisj = (0.125), eps = 0.5 it gives si[0] = 0.875 and
    sisj = 1.4375, where the JIT function gives 0.375 and 0.5625. *)
Theorem mean_matching_perturbation_defects :
  (exists si' sisj' : list float,
     Perturb.jit_observables_after_perturbation_plus 25
       (replicate 25 0%float) (replicate 300 0%float) 1 2 0.5%float
     = Ok (si', sisj') /\
     replicate 300 0%float !! 23%nat = Some 0%float /\
     sisj' !! 23%nat = Some 0.5%float /\
     Index.position [0; 24] (Index.combinations (range 25) 2) = Some 23 /\
     Perturb.pair_index 25 1 2 = Ok 23) /\
  Perturb._observables_after_perturbation_up
    [0.5; 0.25]%float [0.125]%float 0 1 0.5%float
  = Ok ([0.875; 0.25]%float, [1.4375]%float) /\
  Perturb.jit_observables_after_perturbation_plus 2
    [0.5; 0.25]%float [0.125]%float 0 1 0.5%float
  = Ok ([0.375; 0.25]%float, [0.5625]%float).
Proof.
  split; [|split; vm_compute; reflexivity].
  destruct (Perturb.jit_observables_after_perturbation_plus 25
              (replicate 25 0%float) (replicate 300 0%float) 1 2 0.5%float)
    as [[si' sisj']|e] eqn:Hrun; [|vm_compute in Hrun; discriminate].
  exists si', sisj'. split; [reflexivity|].
  vm_compute in Hrun. injection Hrun as <- <-.
  repeat split; vm_compute; reflexivity.
Qed.

(** ** The index service on small systems *)


(** [increasing_flags] holds exactly on the strictly increasing tuples. *)
Lemma increasing_flags_spec (ijk : list Z) :
  Index.jit_all (Index.increasing_flags ijk) = true <->
  forall (k : nat) (x y : Z), ijk !! k = Some x -> ijk !! S k = Some y -> (x < y)%Z.
Proof.
  unfold Index.jit_all. induction ijk as [|a [|b tl] IH].
  - split; [intros _ k x y Hx; discriminate|done].
  - split; [intros _ k x y Hx Hy; by destruct k|done].
  - change (Index.increasing_flags (a :: b :: tl))
      with ((a <? b)%Z :: Index.increasing_flags (b :: tl)).
    cbn [forallb id]. rewrite andb_true_iff, IH, Z.ltb_lt. split.
    + intros [Hab Htl] [|k] x y Hx Hy.
      * injection Hx as <-. injection Hy as <-. done.
      * by apply (Htl k).
    + intros Hall. split.
      * by apply (Hall 0%nat).
      * intros k x y Hx Hy. by apply (Hall (S k)).
Qed.

(** Up to 24 spins every pair gets its position: the index the code
    computes is [pair_rank], it is the position of the pair in
    [combinations(range(n),2)], and it is inside the pairwise table. *)
Lemma pair_index_exact_upto_24 :
  forallb (fun n =>
    forallb (fun '(i, j) =>
      match Index.unravel_index [i; j] n with
      | Ok v =>
          (v =? Index.pair_rank n i j)%Z && (0 <=? v)%Z && (v <? n * (n - 1) / 2)%Z
          && bool_decide (Index.position [i; j] (Index.combinations (range n) 2)
                          = Some v)
      | Raise _ => false
      end) (Index.pairs_of (range n))) (range 25) = true.
Proof. vm_compute. reflexivity. Qed.

(** Up to 24 spins distinct pairs have distinct positions. *)
Lemma pair_rank_injective_upto_24 :
  forallb (fun n =>
    forallb (fun '(i, j) =>
      forallb (fun '(k, l) =>
        implb (Index.pair_rank n i j =? Index.pair_rank n k l)%Z
              ((i =? k)%Z && (j =? l)%Z))
        (Index.pairs_of (range n))) (Index.pairs_of (range n))) (range 25) = true.
Proof. vm_compute. reflexivity. Qed.

Lemma pairs_of_map {A B : Type} (f : A -> B) (l : list A) :
  Index.pairs_of (map f l) = map (fun c => (f c.1, f c.2)) (Index.pairs_of l).
Proof.
  induction l as [|x l IH]; [done|].
  cbn [map]. rewrite !pairs_of_cons, map_app, IH. f_equal.
  rewrite !map_map. done.
Qed.

Lemma elem_of_pairs_of_range (n i j : Z) :
  (i, j) ∈ Index.pairs_of (range n) <-> (0 <= i /\ i < j /\ j < n)%Z.
Proof.
  unfold range, py_range. rewrite pairs_of_map, list_elem_of_fmap. split.
  - intros [[a b] [Heq Hab]]. apply elem_of_pairs_of_seq in Hab.
    cbn in Heq. inversion Heq; subst. lia.
  - intros (Hi & Hij & Hj).
    exists (Z.to_nat i, Z.to_nat j). split.
    + cbn. f_equal; lia.
    + apply elem_of_pairs_of_seq. lia.
Qed.

Lemma forallb_elem_of {A : Type} (f : A -> bool) (l : list A) (x : A) :
  forallb f l = true -> x ∈ l -> f x = true.
Proof.
  intros Hall Hx. eapply forallb_forall; [exact Hall|]. by apply list_elem_of_In.
Qed.

(** The index of a pair on a system of at most 24 spins. *)
Lemma unravel_index_pair_small (n i j : Z) :
  (n <= 24)%Z -> (0 <= i)%Z -> (i < j)%Z -> (j < n)%Z ->
  Index.unravel_index [i; j] n = Ok (Index.pair_rank n i j) /\
  (0 <= Index.pair_rank n i j < n * (n - 1) / 2)%Z /\
  Index.position [i; j] (Index.combinations (range n) 2)
    = Some (Index.pair_rank n i j).
Proof.
  intros Hn Hi Hij Hj.
  pose proof (forallb_elem_of _ _ n pair_index_exact_upto_24) as Hall.
  cbv beta in Hall.
  specialize (Hall ltac:(apply elem_of_py_range; lia)).
  pose proof (forallb_elem_of _ _ (i, j) Hall) as Hp. cbv beta iota in Hp.
  specialize (Hp ltac:(apply elem_of_pairs_of_range; lia)).
  destruct (Index.unravel_index [i; j] n) as [v|e]; [|discriminate].
  rewrite !andb_true_iff in Hp. destruct Hp as [[[Hv H0] Hlt] Hpos].
  apply Z.eqb_eq in Hv. apply Z.leb_le in H0. apply Z.ltb_lt in Hlt.
  apply bool_decide_eq_true in Hpos. subst v. done.
Qed.

Lemma pair_rank_injective_small (n i j k l : Z) :
  (n <= 24)%Z -> (0 <= i)%Z -> (i < j)%Z -> (j < n)%Z ->
  (0 <= k)%Z -> (k < l)%Z -> (l < n)%Z ->
  Index.pair_rank n i j = Index.pair_rank n k l -> i = k /\ j = l.
Proof.
  intros Hn Hi Hij Hj Hk Hkl Hl Heq.
  pose proof (forallb_elem_of _ _ n pair_rank_injective_upto_24) as Hall.
  cbv beta in Hall.
  specialize (Hall ltac:(apply elem_of_py_range; lia)).
  pose proof (forallb_elem_of _ _ (i, j) Hall) as Hp. cbv beta iota in Hp.
  specialize (Hp ltac:(apply elem_of_pairs_of_range; lia)).
  pose proof (forallb_elem_of _ _ (k, l) Hp) as Hq. cbv beta iota in Hq.
  specialize (Hq ltac:(apply elem_of_pairs_of_range; lia)).
  rewrite Heq, Z.eqb_refl in Hq. cbn in Hq.
  apply andb_true_iff in Hq as [H1 H2].
  apply Z.eqb_eq in H1, H2. done.
Qed.

(** ** Loops that write one entry per iteration *)

Lemma foldM_inserts {A : Type} (step : list A -> Z -> result (list A))
    (idx : Z -> nat) (val : Z -> A) (T0 : list A) (js : list Z) :
  NoDup (idx <$> js) ->
  (forall j, j ∈ js -> (idx j < length T0)%nat) ->
  (forall T j, j ∈ js -> length T = length T0 -> T !! idx j = T0 !! idx j ->
     step T j = Ok (<[idx j := val j]> T)) ->
  forall T, length T = length T0 ->
    (forall j, j ∈ js -> T !! idx j = T0 !! idx j) ->
    exists T', foldM step T js = Ok T' /\ length T' = length T0 /\
      (forall j, j ∈ js -> T' !! idx j = Some (val j)) /\
      (forall q, q ∉ (idx <$> js) -> T' !! q = T !! q).
Proof.
  induction js as [|j js IH]; intros Hnd Hlt Hstep T Hlen Hsame.
  - exists T. split; [done|]. split; [done|]. split; [|done].
    intros j Hj. by apply elem_of_nil in Hj.
  - cbn [fmap list_fmap] in Hnd. apply NoDup_cons in Hnd as [Hj Hnd].
    cbn [foldM]. rewrite (Hstep T j); [|left|done|apply Hsame; left].
    cbn.
    destruct (IH Hnd) with (T := <[idx j := val j]> T) as (T' & Hrun & Hlen' & Hin & Hout).
    + intros j' Hj'. apply Hlt. by right.
    + intros T1 j' Hj'. apply Hstep. by right.
    + by rewrite length_insert.
    + intros j' Hj'. rewrite list_lookup_insert_ne.
      * apply Hsame. by right.
      * intros Heq. apply Hj. rewrite Heq. by apply list_elem_of_fmap_2.
    + exists T'. split; [done|]. split; [done|]. split.
      * intros j' Hj'. apply elem_of_cons in Hj' as [->|Hj']; [|by apply Hin].
        rewrite Hout by done. apply list_lookup_insert_eq.
        rewrite Hlen. apply Hlt. left.
      * intros q Hq. rewrite Hout.
        -- apply list_lookup_insert_ne. intros Heq. apply Hq.
           rewrite <- Heq. cbn. left.
        -- intros Hq'. apply Hq. by right.
Qed.

Lemma py_range_cons (a b : Z) : (a < b)%Z -> py_range a b = a :: py_range (a + 1) b.
Proof.
  intros Hab. unfold py_range.
  replace (Z.to_nat (b - a)) with (S (Z.to_nat (b - (a + 1)))) by lia.
  cbn [seq map]. f_equal; [lia|].
  rewrite <- seq_shift, map_map. apply map_ext. intros k. lia.
Qed.

Lemma py_range_nil (a b : Z) : (b <= a)%Z -> py_range a b = [].
Proof. intros Hab. unfold py_range. by replace (Z.to_nat (b - a)) with 0%nat by lia. Qed.

(** [delete(list(range(n)), i)] is the range without [i], in order. *)
Lemma delete_from_range (a b i : Z) :
  Index.delete_from a (py_range a b) i = filter (fun j => j <> i) (py_range a b).
Proof.
  remember (Z.to_nat (b - a)) as k eqn:Hk. revert a Hk.
  induction k as [|k IH]; intros a Hk.
  - by rewrite py_range_nil by lia.
  - rewrite py_range_cons by lia. cbn [Index.delete_from].
    rewrite IH by lia. rewrite filter_cons.
    destruct (Z.eqb_spec i a) as [->|Hne].
    + by rewrite decide_False by (intros Hc; by apply Hc).
    + by rewrite decide_True by (intros ->; by apply Hne).
Qed.

Lemma elem_of_delete_range (n i j : Z) :
  j ∈ Index.delete (range n) i <-> (0 <= j < n)%Z /\ j <> i.
Proof.
  unfold Index.delete, range. rewrite delete_from_range.
  rewrite list_elem_of_filter, elem_of_py_range. tauto.
Qed.

Lemma NoDup_delete_range (n i : Z) : NoDup (Index.delete (range n) i).
Proof.
  unfold Index.delete, range. rewrite delete_from_range.
  apply NoDup_filter, NoDup_py_range.
Qed.

Lemma getitem_Ok {A : Type} (l : list A) (z : Z) (x : A) :
  (0 <= z)%Z -> l !! Z.to_nat z = Some x -> getitem l z = Ok x.
Proof.
  intros Hz Hx. unfold getitem, norm_index.
  pose proof (lookup_lt_Some _ _ _ Hx) as Hlt.
  rewrite (proj2 (Z.leb_le 0 z)) by done.
  rewrite (proj2 (Z.ltb_lt z (Z.of_nat (length l)))) by lia.
  cbn. by rewrite Hx.
Qed.

Lemma setitem_Ok {A : Type} (l : list A) (z : Z) (x : A) :
  (0 <= z < Z.of_nat (length l))%Z -> setitem l z x = Ok (<[Z.to_nat z := x]> l).
Proof.
  intros Hz. unfold setitem, norm_index.
  rewrite (proj2 (Z.leb_le 0 z)) by lia.
  rewrite (proj2 (Z.ltb_lt z (Z.of_nat (length l)))) by lia.
  done.
Qed.

(** ** The mean-matching perturbation on small systems *)

Section SmallSystems.
Context `{Num F}.

(** The place of the unordered pair {k,l} in the pairwise table. *)
Lemma pair_index_small (n k l : Z) :
  (n <= 24)%Z -> (0 <= k < n)%Z -> (0 <= l < n)%Z -> k <> l ->
  Perturb.pair_index n k l = Ok (Index.pair_rank n (Z.min k l) (Z.max k l)) /\
  (0 <= Index.pair_rank n (Z.min k l) (Z.max k l) < n * (n - 1) / 2)%Z.
Proof.
  intros Hn Hk Hl Hkl. unfold Perturb.pair_index.
  destruct (Z.ltb_spec k l) as [Hlt|Hge].
  - rewrite Z.min_l, Z.max_r by lia.
    destruct (unravel_index_pair_small n k l) as (? & ? & _); auto with lia.
  - rewrite Z.min_r, Z.max_l by lia.
    destruct (unravel_index_pair_small n l k) as (? & ? & _); auto with lia.
Qed.

Lemma pair_rank_unordered_injective (n i j j' : Z) :
  (n <= 24)%Z -> (0 <= i < n)%Z -> (0 <= j < n)%Z -> (0 <= j' < n)%Z ->
  j <> i -> j' <> i ->
  Index.pair_rank n (Z.min i j) (Z.max i j)
    = Index.pair_rank n (Z.min i j') (Z.max i j') ->
  j = j'.
Proof.
  intros Hn Hi Hj Hj' Hji Hj'i Heq.
  apply pair_rank_injective_small in Heq; lia.
Qed.

(** One iteration of the loop of the JIT functions writes the entry of the
    pair {i,j}, computed from the current value of that entry and from the
    copy [osisj]. *)
Lemma jit_step_writes (minus : bool) (n i a j : Z) (eps : F) (osisj T : list F)
    (cur : F) :
  (n <= 24)%Z -> (0 <= i < n)%Z -> (0 <= a < n)%Z -> (0 <= j < n)%Z -> j <> i ->
  Z.of_nat (length osisj) = (n * (n - 1) / 2)%Z ->
  length T = length osisj ->
  T !! Z.to_nat (Index.pair_rank n (Z.min i j) (Z.max i j)) = Some cur ->
  Perturb.jit_step minus n osisj i a eps T j
  = Ok (<[Z.to_nat (Index.pair_rank n (Z.min i j) (Z.max i j)) :=
            Perturb.mean_matching_entry minus eps cur
              (if (j =? a)%Z then of_Z 1
               else default (of_Z 0)
                      (osisj !! Z.to_nat (Index.pair_rank n (Z.min j a) (Z.max j a))))]>
          T).
Proof.
  intros Hn Hi Ha Hj Hji Hlen HT Hcur.
  unfold Perturb.jit_step, Perturb.mean_matching_entry.
  destruct (pair_index_small n i j) as [Hix Hrange]; [lia..|].
  rewrite Hix. cbn.
  destruct (Z.eqb_spec j a) as [->|Hja].
  - rewrite (getitem_Ok T _ cur); [|lia|exact Hcur]. cbn.
    rewrite setitem_Ok by lia. by destruct minus.
  - destruct (pair_index_small n j a) as [Hjx Hjrange]; [lia..|].
    rewrite Hjx. cbn.
    rewrite (getitem_Ok T _ cur); [|lia|exact Hcur]. cbn.
    destruct (lookup_lt_is_Some_2 osisj
                (Z.to_nat (Index.pair_rank n (Z.min j a) (Z.max j a))))
      as [old Hold]; [lia|].
    rewrite (getitem_Ok osisj _ old); [|lia|exact Hold]. cbn.
    rewrite setitem_Ok by lia. rewrite Hold. by destruct minus.
Qed.

(** On a system of at most 24 spins the JIT functions of the mean-matching
    perturbation do what they are meant to: spin i's mean moves towards
    (or, for the minus variant, away from) spin a's; the entry of every
    pair {i,j} is updated from its own value and from the value of {j,a}
    in the table as it was on entry (1 for j = a); every entry of a pair
    without i is left as it was. *)
Lemma jit_perturbation_small_systems (minus : bool) (n i a : Z) (eps : F)
    (si sisj : list F) :
  (2 <= n <= 24)%Z ->
  Z.of_nat (length si) = n ->
  Z.of_nat (length sisj) = (n * (n - 1) / 2)%Z ->
  (0 <= i < n)%Z -> (0 <= a < n)%Z -> i <> a ->
  exists si' sisj' si_i si_a,
    Perturb.jit_perturb minus n si sisj i a eps = Ok (si', sisj') /\
    si !! Z.to_nat i = Some si_i /\ si !! Z.to_nat a = Some si_a /\
    si' = <[Z.to_nat i := Perturb.mean_matching_entry minus eps si_i si_a]> si /\
    length sisj' = length sisj /\
    (forall j cur, (0 <= j < n)%Z -> j <> i ->
       sisj !! Z.to_nat (Index.pair_rank n (Z.min i j) (Z.max i j)) = Some cur ->
       sisj' !! Z.to_nat (Index.pair_rank n (Z.min i j) (Z.max i j))
       = Some (Perturb.mean_matching_entry minus eps cur
                 (if (j =? a)%Z then of_Z 1
                  else default (of_Z 0)
                         (sisj !! Z.to_nat
                            (Index.pair_rank n (Z.min j a) (Z.max j a)))))) /\
    (forall k l, (0 <= k)%Z -> (k < l)%Z -> (l < n)%Z -> k <> i -> l <> i ->
       sisj' !! Z.to_nat (Index.pair_rank n k l)
       = sisj !! Z.to_nat (Index.pair_rank n k l)).
Proof.
  intros Hn Hsi Hsisj Hi Ha Hia.
  destruct (lookup_lt_is_Some_2 si (Z.to_nat i)) as [si_i Hsi_i]; [lia|].
  destruct (lookup_lt_is_Some_2 si (Z.to_nat a)) as [si_a Hsi_a]; [lia|].
  set (idx := fun j : Z => Z.to_nat (Index.pair_rank n (Z.min i j) (Z.max i j))).
  set (val := fun j : Z =>
    Perturb.mean_matching_entry minus eps (default (of_Z 0) (sisj !! idx j))
      (if (j =? a)%Z then of_Z 1
       else default (of_Z 0)
              (sisj !! Z.to_nat (Index.pair_rank n (Z.min j a) (Z.max j a))))).
  destruct (foldM_inserts (Perturb.jit_step minus n sisj i a eps) idx val sisj
              (Index.delete (range n) i)) with (T := sisj)
    as (sisj' & Hrun & Hlen' & Hin & Hout).
  - apply NoDup_fmap_2_strong; [|apply NoDup_delete_range].
    intros j j' Hj Hj' Heq.
    apply elem_of_delete_range in Hj as [Hj Hji], Hj' as [Hj' Hj'i].
    destruct (pair_index_small n i j) as [_ Hr]; [lia..|].
    destruct (pair_index_small n i j') as [_ Hr']; [lia..|].
    apply (pair_rank_unordered_injective n i); [lia..|].
    unfold idx in Heq. lia.
  - intros j Hj. apply elem_of_delete_range in Hj as [Hj Hji].
    destruct (pair_index_small n i j) as [_ Hr]; [lia..|]. unfold idx. lia.
  - intros T j Hj HT Hsame. apply elem_of_delete_range in Hj as [Hj Hji].
    destruct (pair_index_small n i j) as [_ Hr]; [lia..|].
    destruct (lookup_lt_is_Some_2 sisj (idx j)) as [cur Hcur]; [unfold idx; lia|].
    unfold val. rewrite Hcur. cbn [default from_option].
    unfold idx in *.
    apply jit_step_writes; try done; try lia.
    by rewrite Hsame.
  - done.
  - done.
  - exists (<[Z.to_nat i := Perturb.mean_matching_entry minus eps si_i si_a]> si),
           sisj', si_i, si_a.
    split.
    + unfold Perturb.jit_perturb.
      rewrite (getitem_Ok si i si_i); [|lia|done]. cbn.
      rewrite (getitem_Ok si a si_a); [|lia|done]. cbn.
      rewrite setitem_Ok by lia. cbn.
      rewrite Hrun. cbn. unfold Perturb.mean_matching_entry. by destruct minus.
    + subst val idx. cbn beta in *. repeat split; try done.
      * intros j cur Hj Hji Hcur.
        rewrite (Hin j) by (apply elem_of_delete_range; done).
        by rewrite Hcur.
      * intros k l Hk Hkl Hl Hki Hli.
        apply Hout. intros Hq.
        apply list_elem_of_fmap in Hq as (j & Heq & Hj).
        apply elem_of_delete_range in Hj as [Hj Hji].
        destruct (unravel_index_pair_small n k l) as (_ & Hr & _); [lia..|].
        destruct (pair_index_small n i j) as [_ Hr']; [lia..|].
        assert (Heq' : Index.pair_rank n k l
                       = Index.pair_rank n (Z.min i j) (Z.max i j)) by lia.
        apply pair_rank_injective_small in Heq'; lia.
Qed.

End SmallSystems.

(** ** The two branches of the full-resolution estimator, entry by entry *)

Section DklBranches.
Context `{Num F}.
Import Hessian.
Local Open Scope nat_scope.

Lemma dkl_serial_loop_paint (off_diag : nat * nat -> F) (cells : list (nat * nat))
    (hess : list (list F)) :
  (forall i j, (i, j) ∈ cells -> i < j) ->
  foldl (fun M '(i, j) =>
           let v := off_diag (i, j) in mat_set (mat_set M i j v) j i v) hess cells
  = foldl (fun M c => mat_set M c.1 c.2 (off_diag (c.1 `min` c.2, c.1 `max` c.2)))
      hess (cells ≫= fun c => [(c.1, c.2); (c.2, c.1)]).
Proof.
  revert hess. induction cells as [|[i j] cells IH]; intros hess Hlt; [done|].
  cbn [foldl mbind list_bind app fst snd]. cbn zeta.
  assert (Hij : i < j) by (apply Hlt; left).
  rewrite (Nat.min_l i j), (Nat.max_r i j), (Nat.min_r j i), (Nat.max_l j i) by lia.
  apply IH. intros i' j' Hin. apply Hlt. by right.
Qed.

(** The branch for [n_cpus<=1] returns the raw estimates, mirrored. *)
Lemma dkl_serial_entries (diag : F -> nat -> F) (off_diag : F -> nat * nat -> F)
    (m : nat) (n_cpus : option Z) (has_pool : bool) (epsdJ : F) :
  use_loops n_cpus = true ->
  exists hess,
    _dkl_curvature diag off_diag m n_cpus has_pool epsdJ = Ok hess /\
    entries_are m hess (fun i j =>
      if decide (i = j) then diag epsdJ i
      else off_diag epsdJ (i `min` j, i `max` j)).
Proof.
  intros Hloops. unfold _dkl_curvature. rewrite Hloops.
  eexists. split; [reflexivity|].
  rewrite dkl_serial_loop_paint
    by (intros i j Hin; apply elem_of_pairs_of_seq in Hin; lia).
  rewrite (loop_paint (fun i : nat => (i, i)) (diag epsdJ) (fun c => diag epsdJ c.1))
    by done.
  eapply entries_are_ext.
  - apply entries_are_paint, entries_are_paint, entries_are_zeros.
  - intros i j Hi Hj. cbn beta. cbn [fst snd].
    fold (eye_cells m).
    destruct (decide (i = j)) as [->|Hne].
    + rewrite decide_False.
      * rewrite decide_True; [done|]. by apply elem_of_eye_cells.
      * intros Hin. apply list_elem_of_bind in Hin as ([a b] & Hc & Hab).
        apply elem_of_pairs_of_seq in Hab. cbn in Hc.
        apply elem_of_cons in Hc as [Hc|Hc]; [inversion Hc; lia|].
        apply elem_of_cons in Hc as [Hc|Hc]; [inversion Hc; lia|].
        by apply elem_of_nil in Hc.
    + rewrite decide_True; [done|].
      apply list_elem_of_bind.
      exists (i `min` j, i `max` j). split.
      * cbn. destruct (decide (i < j)).
        -- rewrite Nat.min_l, Nat.max_r by lia. left.
        -- rewrite Nat.min_r, Nat.max_l by lia. right. left.
      * apply elem_of_pairs_of_seq. lia.
Qed.

(** The other branch returns the symmetrized array. *)
Lemma dkl_parallel_entries (diag : F -> nat -> F) (off_diag : F -> nat * nat -> F)
    (m : nat) (n_cpus : option Z) (epsdJ : F) :
  use_loops n_cpus = false ->
  exists hess,
    _dkl_curvature diag off_diag m n_cpus true epsdJ = Ok hess /\
    entries_are m hess (sym_entry (diag epsdJ) (off_diag epsdJ)).
Proof.
  intros Hloops. unfold _dkl_curvature. rewrite Hloops.
  eexists. split; [reflexivity|]. apply entries_are_symmetrize.
Qed.

End DklBranches.

(** * Further properties of the code *)

(** ** The index helpers *)

Lemma delete_from_spec {A : Type} (X : list A) (j i : Z) :
  Index.delete_from j X i =
    if (j <=? i) && (i <? j + Z.of_nat (length X))
    then take (Z.to_nat (i - j)) X ++ drop (S (Z.to_nat (i - j))) X
    else X.
Proof.
  revert j. induction X as [|x X IH]; intros j.
  - cbn. destruct (_ && _); [|done]. by rewrite take_nil.
  - cbn [Index.delete_from length]. rewrite IH.
    destruct (Z.eqb_spec i j) as [->|Hne].
    + rewrite Z.leb_refl.
      rewrite (proj2 (Z.ltb_lt j (j + Z.of_nat (S (length X))))) by lia.
      replace (Z.to_nat (j - j)) with 0%nat by lia. cbn.
      rewrite drop_0.
      destruct (Z.leb_spec (j + 1) j); [lia|]. done.
    + destruct (Z.leb_spec j i) as [Hle|Hgt].
      * rewrite (proj2 (Z.leb_le (j + 1) i)) by lia. cbn [andb].
        replace (j + 1 + Z.of_nat (length X)) with (j + Z.of_nat (S (length X))) by lia.
        destruct (Z.ltb_spec i (j + Z.of_nat (S (length X)))) as [Hlt|Hge]; [|done].
        replace (Z.to_nat (i - j)) with (S (Z.to_nat (i - (j + 1)))) by lia.
        done.
      * destruct (Z.leb_spec (j + 1) i); [lia|]. done.
Qed.

(** [delete(X, i)] removes the element at position [i] when [0 <= i <
    len(X)], and returns a copy of [X] for every other [i]: a negative
    index is not counted from the end, and no index raises. *)
Theorem delete_removes_position_i {A : Type} (X : list A) (i : Z) :
  Index.delete X i =
    if (0 <=? i) && (i <? Z.of_nat (length X))
    then take (Z.to_nat i) X ++ drop (S (Z.to_nat i)) X
    else X.
Proof.
  unfold Index.delete. rewrite delete_from_spec.
  by rewrite Z.add_0_l, Z.sub_0_r.
Qed.



(** For systems of up to 24 spins [unravel_index] numbers the pairs as
    [itertools.combinations] enumerates them: the index of (i,j) is its
    closed-form rank, it lies in the range of the pairwise table, it is
    the position of (i,j) in the enumeration, and no other pair has it. *)
Theorem unravel_index_numbers_pairs_upto_24 (n i j : Z) :
  n <= 24 -> 0 <= i -> i < j -> j < n ->
  Index.unravel_index [i; j] n = Ok (Index.pair_rank n i j) /\
  0 <= Index.pair_rank n i j < n * (n - 1) / 2 /\
  Index.position [i; j] (Index.combinations (range n) 2)
    = Some (Index.pair_rank n i j) /\
  (forall k l, 0 <= k -> k < l -> l < n ->
     Index.unravel_index [k; l] n = Index.unravel_index [i; j] n ->
     k = i /\ l = j).
Proof.
  intros Hn Hi Hij Hj.
  destruct (unravel_index_pair_small n i j) as (Hix & Hrange & Hpos); [done..|].
  repeat split; try done; try lia.
  - destruct (unravel_index_pair_small n k l) as (Hkl & _); [done..|].
    rewrite Hkl, Hix in H2. inversion H2 as [Heq].
    apply pair_rank_injective_small in Heq; lia.
  - destruct (unravel_index_pair_small n k l) as (Hkl & _); [done..|].
    rewrite Hkl, Hix in H2. inversion H2 as [Heq].
    apply pair_rank_injective_small in Heq; lia.
Qed.

Lemma unravel_index_numbers_pairs_upto_24_witness :
  Index.unravel_index [1; 3] 5 = Ok 5.
Proof.
  exact (proj1 (unravel_index_numbers_pairs_upto_24 5 1 3
                  ltac:(lia) ltac:(lia) ltac:(lia) ltac:(lia))).
Defined.

Lemma triples_exact_upto_25 :
  forallb (fun n =>
    forallb (fun '(k, t) =>
      match Index.unravel_index t n with
      | Ok v => v =? k
      | Raise _ => false
      end) (Solver.enumerate (Index.combinations (range n) 3))) (range 26) = true.
Proof. vm_compute. reflexivity. Qed.

(** For systems of up to 25 spins the triple that
    [itertools.combinations(range(n),3)] yields at position [k] has index
    [k]. *)
Theorem unravel_index_numbers_triples_upto_25 (n : Z) (k : nat) (t : list Z) :
  n <= 25 ->
  Index.combinations (range n) 3 !! k = Some t ->
  Index.unravel_index t n = Ok (Z.of_nat k).
Proof.
  intros Hn Hk.
  destruct (Z.ltb_spec n 0) as [Hneg|Hpos].
  { unfold range in Hk. rewrite py_range_nil in Hk by lia. done. }
  pose proof (forallb_elem_of _ _ n triples_exact_upto_25) as Hall.
  cbv beta in Hall.
  specialize (Hall ltac:(apply elem_of_py_range; lia)).
  pose proof (forallb_elem_of _ _ (Z.of_nat k, t) Hall) as Hp.
  cbv beta iota in Hp.
  assert (Hin : (Z.of_nat k, t) ∈ Solver.enumerate (Index.combinations (range n) 3)).
  { apply (list_elem_of_lookup_2 _ k). unfold Solver.enumerate.
    by rewrite list_lookup_imap, Hk. }
  specialize (Hp Hin).
  destruct (Index.unravel_index t n) as [v|]; [|done].
  apply Z.eqb_eq in Hp. by subst.
Qed.

Lemma unravel_index_numbers_triples_upto_25_witness :
  Index.unravel_index [0; 2; 3] 4 = Ok 2.
Proof.
  exact (unravel_index_numbers_triples_upto_25 4 2 [0; 2; 3] ltac:(lia) eq_refl).
Defined.

(** ** The caches of triple and quadruple products *)

Lemma py_range_bind_pairs (a b : Z) :
  Index.pairs_of (py_range a b) =
  (i ← py_range a (b - 1); j ← py_range (i + 1) b; [(i, j)]).
Proof.
  remember (Z.to_nat (b - a)) as k eqn:Hk. revert a Hk.
  induction k as [|k IH]; intros a Hk.
  - rewrite (py_range_nil a b), (py_range_nil a (b - 1)) by lia. done.
  - rewrite (py_range_cons a b) by lia. rewrite pairs_of_cons.
    destruct (decide (a + 1 = b)) as [Heq|Hne].
    + rewrite (py_range_nil (a + 1) b), (py_range_nil a (b - 1)) by lia. done.
    + rewrite (py_range_cons a (b - 1)) by lia. cbn [mbind list_bind].
      rewrite IH by lia. by f_equal.
Qed.

(** [jit_pair_combination(x)] yields the pairs of
    [itertools.combinations(range(x),2)], in the same order, for every
    [x]. *)
Theorem jit_pair_combination_is_combinations (x : Z) :
  Cache.jit_pair_combination x = Solver.pairs x.
Proof.
  unfold Cache.jit_pair_combination, Solver.pairs, range.
  by rewrite py_range_bind_pairs.
Qed.

Lemma foldM_ext {A B : Type} (f g : A -> B -> result A) (l : list B) (a : A) :
  (forall a b, b ∈ l -> f a b = g a b) -> foldM f a l = foldM g a l.
Proof.
  revert a. induction l as [|b l IH]; intros a Hfg; [done|].
  cbn [foldM]. rewrite Hfg by left.
  destruct (g a b) as [a'|e]; cbn; [|done].
  apply IH. intros a0 b0 Hb0. apply Hfg. by right.
Qed.

Lemma getitem_Raise {A : Type} (l : list A) (i : Z) (e : exn) :
  getitem l i = Raise e -> e = IndexError.
Proof.
  unfold getitem, norm_index.
  repeat (destruct (_ && _); cbn);
    try destruct (l !! _); cbn; intros Heq; by inversion Heq.
Qed.

Lemma column_Raise (allStates : list (list Z)) (i : Z) (e : exn) :
  Cache.column allStates i = Raise e -> e = IndexError.
Proof.
  unfold Cache.column.
  induction allStates as [|row rows IH]; cbn; [done|].
  destruct (getitem row i) as [a|e1] eqn:Hrow; cbn.
  - destruct (mapM (fun row => getitem row i) rows) as [r|e2]; cbn; [done|].
    intros Heq. inversion Heq; subst. by apply IH.
  - intros Heq. inversion Heq; subst. by apply getitem_Raise in Hrow.
Qed.

Ltac raise_cases :=
  repeat match goal with
         | H : getitem _ _ = Raise ?e |- _ => apply getitem_Raise in H; subst e
         | H : Cache.column _ _ = Raise ?e |- _ => apply column_Raise in H; subst e
         end.

(** The product of three columns taken row by row, as [np.prod] does it,
    is the product of the three column slices. *)
Lemma column_product_3 (allStates : list (list Z)) (i j k : Z) :
  Solver.column_product allStates [i; j; k] =
  (ci ← Cache.column allStates i;
   cj ← Cache.column allStates j;
   ck ← Cache.column allStates k;
   Ok (Cache.times (Cache.times ci cj) ck)).
Proof.
  induction allStates as [|row rows IH]; [done|].
  change (Solver.column_product (row :: rows) [i; j; k])
    with (v ← (vals ← mapM (getitem row) [i; j; k]; Ok (fold_left Z.mul vals 1));
          rest ← Solver.column_product rows [i; j; k]; Ok (v :: rest)).
  rewrite IH. clear IH.
  change (Cache.column (row :: rows) i)
    with (a ← getitem row i; r ← Cache.column rows i; Ok (a :: r)).
  change (Cache.column (row :: rows) j)
    with (a ← getitem row j; r ← Cache.column rows j; Ok (a :: r)).
  change (Cache.column (row :: rows) k)
    with (a ← getitem row k; r ← Cache.column rows k; Ok (a :: r)).
  cbn [mapM].
  destruct (getitem row i) as [a|e1] eqn:Hi; cbn; [|done].
  destruct (getitem row j) as [b|e2] eqn:Hj; cbn.
  - destruct (getitem row k) as [c|e3] eqn:Hk; cbn.
    + destruct (Cache.column rows i) as [ci|e4] eqn:Hci; cbn; [|done].
      destruct (Cache.column rows j) as [cj|e5] eqn:Hcj; cbn; [|done].
      destruct (Cache.column rows k) as [ck|e6] eqn:Hck; cbn; [|done].
      do 2 f_equal. unfold Cache.times. cbn. f_equal. lia.
    + destruct (Cache.column rows i) as [ci|e4] eqn:Hci; cbn; raise_cases; [|done].
      destruct (Cache.column rows j) as [cj|e5] eqn:Hcj; cbn; raise_cases; done.
  - destruct (Cache.column rows i) as [ci|e4] eqn:Hci; cbn; raise_cases; done.
Qed.

Lemma column_product_4 (allStates : list (list Z)) (i j k l : Z) :
  Solver.column_product allStates [i; j; k; l] =
  (ci ← Cache.column allStates i;
   cj ← Cache.column allStates j;
   ck ← Cache.column allStates k;
   cl ← Cache.column allStates l;
   Ok (Cache.times (Cache.times (Cache.times ci cj) ck) cl)).
Proof.
  induction allStates as [|row rows IH]; [done|].
  change (Solver.column_product (row :: rows) [i; j; k; l])
    with (v ← (vals ← mapM (getitem row) [i; j; k; l]; Ok (fold_left Z.mul vals 1));
          rest ← Solver.column_product rows [i; j; k; l]; Ok (v :: rest)).
  rewrite IH. clear IH.
  change (Cache.column (row :: rows) i)
    with (a ← getitem row i; r ← Cache.column rows i; Ok (a :: r)).
  change (Cache.column (row :: rows) j)
    with (a ← getitem row j; r ← Cache.column rows j; Ok (a :: r)).
  change (Cache.column (row :: rows) k)
    with (a ← getitem row k; r ← Cache.column rows k; Ok (a :: r)).
  change (Cache.column (row :: rows) l)
    with (a ← getitem row l; r ← Cache.column rows l; Ok (a :: r)).
  cbn [mapM].
  destruct (getitem row i) as [a|e1] eqn:Hi; cbn; [|done].
  destruct (getitem row j) as [b|e2] eqn:Hj; cbn.
  - destruct (getitem row k) as [c|e3] eqn:Hk; cbn.
    + destruct (getitem row l) as [d|e7] eqn:Hl; cbn.
      * destruct (Cache.column rows i) as [ci|e4] eqn:Hci; cbn; [|done].
        destruct (Cache.column rows j) as [cj|e5] eqn:Hcj; cbn; [|done].
        destruct (Cache.column rows k) as [ck|e6] eqn:Hck; cbn; [|done].
        destruct (Cache.column rows l) as [cl|e8] eqn:Hcl; cbn; [|done].
        do 2 f_equal. unfold Cache.times. cbn. f_equal. lia.
      * destruct (Cache.column rows i) as [ci|e4] eqn:Hci; cbn; raise_cases; [|done].
        destruct (Cache.column rows j) as [cj|e5] eqn:Hcj; cbn; raise_cases; [|done].
        destruct (Cache.column rows k) as [ck|e6] eqn:Hck; cbn; raise_cases; done.
    + destruct (Cache.column rows i) as [ci|e4] eqn:Hci; cbn; raise_cases; [|done].
      destruct (Cache.column rows j) as [cj|e5] eqn:Hcj; cbn; raise_cases; done.
  - destruct (Cache.column rows i) as [ci|e4] eqn:Hci; cbn; raise_cases; done.
Qed.


(** A loop whose every iteration keeps what is stored and stores the keys
    of its item keeps what was stored before it and stores the keys of all
    its items. *)
Lemma foldM_stores {A B Key : Type} (good : A -> Prop) (has : A -> Key -> Prop)
    (keys : B -> Key -> Prop) (f : A -> B -> result A) (l : list B) :
  (forall a b a', b ∈ l -> f a b = Ok a' ->
     (good a -> good a') /\ (forall k, has a k -> has a' k) /\
     (forall k, keys b k -> has a' k)) ->
  forall a a', foldM f a l = Ok a' ->
    (good a -> good a') /\ (forall k, has a k -> has a' k) /\
    (forall b k, b ∈ l -> keys b k -> has a' k).
Proof.
  induction l as [|b l IH]; intros Hstep a a' Hrun.
  - cbn in Hrun. inversion Hrun; subst. repeat split; try done.
    intros b k Hb. by apply elem_of_nil in Hb.
  - cbn [foldM] in Hrun. destruct (f a b) as [a1|e] eqn:Hf; cbn in Hrun; [|done].
    destruct (Hstep a b a1) as (Hg1 & Hh1 & Hk1); [left|done|].
    destruct (IH (fun a0 b0 a0' Hb0 => Hstep a0 b0 a0' (list_elem_of_further _ _ _ Hb0))
                a1 a' Hrun) as (Hg2 & Hh2 & Hk2).
    repeat split.
    + auto.
    + auto.
    + intros b0 k Hb0 Hk. apply elem_of_cons in Hb0 as [->|Hb0]; eauto.
Qed.

Section CacheKeys.
Import Solver.
Variable allStates : list (list Z).

Lemma insert_triplet_stores (tr tr' : gmap (Z * Z * Z) (list Z)) (i j k : Z) :
  (v ← column_product allStates [i; j; k]; Ok (<[(i, j, k) := v]> tr)) = Ok tr' ->
  ((forall a b c v, tr !! (a, b, c) = Some v -> column_product allStates [a; b; c] = Ok v) ->
   (forall a b c v, tr' !! (a, b, c) = Some v -> column_product allStates [a; b; c] = Ok v)) /\
  (forall key, is_Some (tr !! key) -> is_Some (tr' !! key)) /\
  (forall key, key = (i, j, k) -> is_Some (tr' !! key)).
Proof.
  destruct (column_product allStates [i; j; k]) as [v|e] eqn:Hv; cbn; [|done].
  intros Heq. inversion Heq; subst tr'. repeat split.
  - intros Hgood a b c w Hw.
    destruct (decide ((a, b, c) = (i, j, k))) as [Hk|Hk].
    + inversion Hk; subst. rewrite lookup_insert_eq in Hw. by inversion Hw; subst.
    + rewrite lookup_insert_ne in Hw by done. eauto.
  - intros key Hkey. destruct (decide (key = (i, j, k))) as [->|Hk].
    + rewrite lookup_insert_eq. eauto.
    + by rewrite lookup_insert_ne.
  - intros key ->. rewrite lookup_insert_eq. eauto.
Qed.

Lemma insert_quartet_stores (qu qu' : gmap (Z * Z * Z * Z) (list Z)) (i j k l : Z) :
  (v ← column_product allStates [i; j; k; l]; Ok (<[(i, j, k, l) := v]> qu)) = Ok qu' ->
  ((forall a b c d v, qu !! (a, b, c, d) = Some v ->
      column_product allStates [a; b; c; d] = Ok v) ->
   (forall a b c d v, qu' !! (a, b, c, d) = Some v ->
      column_product allStates [a; b; c; d] = Ok v)) /\
  (forall key, is_Some (qu !! key) -> is_Some (qu' !! key)) /\
  (forall key, key = (i, j, k, l) -> is_Some (qu' !! key)).
Proof.
  destruct (column_product allStates [i; j; k; l]) as [v|e] eqn:Hv; cbn; [|done].
  intros Heq. inversion Heq; subst qu'. repeat split.
  - intros Hgood a b c d w Hw.
    destruct (decide ((a, b, c, d) = (i, j, k, l))) as [Hk|Hk].
    + inversion Hk; subst. rewrite lookup_insert_eq in Hw. by inversion Hw; subst.
    + rewrite lookup_insert_ne in Hw by done. eauto.
  - intros key Hkey. destruct (decide (key = (i, j, k, l))) as [->|Hk].
    + rewrite lookup_insert_eq. eauto.
    + by rewrite lookup_insert_ne.
  - intros key ->. rewrite lookup_insert_eq. eauto.
Qed.

End CacheKeys.

(** The dictionaries that [_triplets_and_quartets] builds hold every key
    that the loops of [solve_linearized_perturbation] read:
    [triplets[(i,k,l)]] for every spin i and pair k<l, [triplets[(i,j,k)]]
    for every pair i<j and spin k, and [quartets[(i,j,k,l)]] for every two
    pairs; the value under a key is the product of the columns it names. *)
Theorem caches_hold_every_key_the_solver_reads (n : Z) (allStates : list (list Z))
    (tr : gmap (Z * Z * Z) (list Z)) (qu : gmap (Z * Z * Z * Z) (list Z)) :
  Solver._triplets_and_quartets n allStates = Ok (tr, qu) ->
  (forall i k l, 0 <= i < n -> 0 <= k -> k < l -> l < n ->
     exists v, tr !! (i, k, l) = Some v /\
               Solver.column_product allStates [i; k; l] = Ok v) /\
  (forall i j k, 0 <= i -> i < j -> j < n -> 0 <= k < n ->
     exists v, tr !! (i, j, k) = Some v /\
               Solver.column_product allStates [i; j; k] = Ok v) /\
  (forall i j k l, 0 <= i -> i < j -> j < n -> 0 <= k -> k < l -> l < n ->
     exists v, qu !! (i, j, k, l) = Some v /\
               Solver.column_product allStates [i; j; k; l] = Ok v).
Proof.
  unfold Solver._triplets_and_quartets. intros Hrun.
  destruct (foldM _ ∅ (range n)) as [t1|e] eqn:H1; cbn in Hrun; [|done].
  (* the first pair of loops *)
  lazymatch type of H1 with
  | foldM ?ff _ ?ll = _ =>
  pose proof (foldM_stores
    (fun tr : gmap (Z * Z * Z) (list Z) =>
       forall a b c v, tr !! (a, b, c) = Some v ->
         Solver.column_product allStates [a; b; c] = Ok v)
    (fun tr key => is_Some (tr !! key))
    (fun (i : Z) key => exists k l, (k, l) ∈ Solver.pairs n /\ key = (i, k, l))
    ff ll) as Hfirst
  end.
  cbv beta in Hfirst.
  destruct (Hfirst) with (a := (∅ : gmap (Z * Z * Z) (list Z))) (a' := t1)
    as (Hg1 & _ & Hk1); [|exact H1|].
  { intros a i a' _ Hin.
    lazymatch type of Hin with
  | foldM ?ff _ ?ll = _ =>
  pose proof (foldM_stores
      (fun tr : gmap (Z * Z * Z) (list Z) =>
         forall a b c v, tr !! (a, b, c) = Some v ->
           Solver.column_product allStates [a; b; c] = Ok v)
      (fun tr key => is_Some (tr !! key))
      (fun (p : Z * Z) key => key = (i, p.1, p.2))
    ff ll) as Hin'
  end.
    cbv beta in Hin'.
    destruct Hin' with (a := a) (a' := a') as (Hg & Hh & Hk); [|exact Hin|].
    { intros a0 [j k] a0' _ Hstep. by apply insert_triplet_stores in Hstep. }
    split; [done|]. split; [done|].
    intros key (k & l & Hkl & ->). by apply (Hk (k, l)). }
  clear Hfirst H1.
  (* the loops over the pairs (i,j) *)
  lazymatch type of Hrun with
  | foldM ?ff _ ?ll = _ =>
  pose proof (foldM_stores
    (fun st : gmap (Z * Z * Z) (list Z) * gmap (Z * Z * Z * Z) (list Z) =>
       (forall a b c v, st.1 !! (a, b, c) = Some v ->
          Solver.column_product allStates [a; b; c] = Ok v) /\
       (forall a b c d v, st.2 !! (a, b, c, d) = Some v ->
          Solver.column_product allStates [a; b; c; d] = Ok v))
    (fun st (key : (Z * Z * Z) + (Z * Z * Z * Z)) =>
       match key with
       | inl k3 => is_Some (st.1 !! k3)
       | inr k4 => is_Some (st.2 !! k4)
       end)
    (fun (p : Z * Z) key =>
       match key with
       | inl k3 => exists k, (0 <= k < n) /\ k3 = (p.1, p.2, k)
       | inr k4 => exists k l, (k, l) ∈ Solver.pairs n /\ k4 = (p.1, p.2, k, l)
       end)
    ff ll) as Hsecond
  end.
  cbv beta in Hsecond.
  destruct Hsecond with (a := (t1, (∅ : gmap (Z * Z * Z * Z) (list Z)))) (a' := (tr, qu))
    as (Hg2 & Hh2 & Hk2); [|exact Hrun|].
  { intros [a3 a4] [i j] [a3' a4'] _ Hstep. cbn [fst snd].
    destruct (foldM _ a3 (range n)) as [a3''|e] eqn:H3; cbn in Hstep; [|done].
    destruct (foldM _ a4 (Solver.pairs n)) as [a4''|e] eqn:H4; cbn in Hstep; [|done].
    inversion Hstep; subst a3'' a4''. clear Hstep.
    lazymatch type of H3 with
  | foldM ?ff _ ?ll = _ =>
  pose proof (foldM_stores
      (fun tr : gmap (Z * Z * Z) (list Z) =>
         forall a b c v, tr !! (a, b, c) = Some v ->
           Solver.column_product allStates [a; b; c] = Ok v)
      (fun tr key => is_Some (tr !! key))
      (fun (k : Z) key => key = (i, j, k))
    ff ll) as H3'
  end.
    cbv beta in H3'.
    destruct H3' with (a := a3) (a' := a3') as (Hg3 & Hh3 & Hk3); [|exact H3|].
    { intros a0 k a0' _ Hs. by apply insert_triplet_stores in Hs. }
    lazymatch type of H4 with
  | foldM ?ff _ ?ll = _ =>
  pose proof (foldM_stores
      (fun qu : gmap (Z * Z * Z * Z) (list Z) =>
         forall a b c d v, qu !! (a, b, c, d) = Some v ->
           Solver.column_product allStates [a; b; c; d] = Ok v)
      (fun qu key => is_Some (qu !! key))
      (fun (p : Z * Z) key => key = (i, j, p.1, p.2))
    ff ll) as H4'
  end.
    cbv beta in H4'.
    destruct H4' with (a := a4) (a' := a4') as (Hg4 & Hh4 & Hk4); [|exact H4|].
    { intros a0 [k l] a0' _ Hs. by apply insert_quartet_stores in Hs. }
    split; [|split].
    - intros [G3 G4]. split; auto.
    - intros [k3|k4]; auto.
    - intros [k3|k4].
      + intros (k & Hk & ->). apply (Hk3 k); [|done].
        apply elem_of_py_range. lia.
      + intros (k & l & Hkl & ->). by apply (Hk4 (k, l)). }
  cbn [fst snd] in *.
  destruct Hg2 as [G3 G4].
  { split; [apply Hg1|]; intros *; by rewrite lookup_empty. }
  assert (Hpairs : forall k l, 0 <= k -> k < l -> l < n -> (k, l) ∈ Solver.pairs n).
  { intros k l ? ? ?. unfold Solver.pairs. apply elem_of_pairs_of_range. lia. }
  split; [|split].
  - intros i k l Hi Hk Hkl Hl.
    destruct (Hh2 (inl (i, k, l))) as [v Hv].
    { cbn. apply (Hk1 i); [apply elem_of_py_range; lia|]. eauto. }
    exists v. split; [done|]. by apply G3.
  - intros i j k Hi Hij Hj Hk.
    destruct (Hk2 (i, j) (inl (i, j, k))) as [v Hv]; [by apply Hpairs|cbn; eauto|].
    exists v. split; [done|]. by apply G3.
  - intros i j k l Hi Hij Hj Hk Hkl Hl.
    destruct (Hk2 (i, j) (inr (i, j, k, l))) as [v Hv]; [by apply Hpairs|cbn; eauto|].
    exists v. split; [done|]. by apply G4.
Qed.

Lemma caches_hold_every_key_the_solver_reads_witness :
  exists v, Examples.caches2.1 !! (0, 0, 1) = Some v /\
            Solver.column_product Examples.states2 [0; 0; 1] = Ok v.
Proof.
  refine (proj1 (caches_hold_every_key_the_solver_reads 2 Examples.states2
                   Examples.caches2.1 Examples.caches2.2 _) 0 0 1 _ _ _ _);
    [vm_compute; reflexivity|lia..].
Defined.

(** ** Perturbations of one spin *)

Section PairLoops.
Context {A : Type}.

(** A loop over the spins [j] other than [i] that rewrites the entry of
    the pair {i,j} from its current value: on a system of at most 24 spins
    it rewrites each of these entries once and no other. *)
Lemma pair_loop_small (d : A) (step : list A -> Z -> result (list A))
    (upd : Z -> A -> A) (n i : Z) (T0 : list A) :
  n <= 24 -> 0 <= i < n -> Z.of_nat (length T0) = n * (n - 1) / 2 ->
  (forall T j cur, 0 <= j < n -> j <> i -> length T = length T0 ->
     T !! Z.to_nat (Index.pair_rank n (Z.min i j) (Z.max i j)) = Some cur ->
     step T j
     = Ok (<[Z.to_nat (Index.pair_rank n (Z.min i j) (Z.max i j)) := upd j cur]> T)) ->
  exists T', foldM step T0 (Index.delete (range n) i) = Ok T' /\
    length T' = length T0 /\
    (forall j cur, 0 <= j < n -> j <> i ->
       T0 !! Z.to_nat (Index.pair_rank n (Z.min i j) (Z.max i j)) = Some cur ->
       T' !! Z.to_nat (Index.pair_rank n (Z.min i j) (Z.max i j)) = Some (upd j cur)) /\
    (forall q : nat,
       (forall j, 0 <= j < n -> j <> i ->
          q <> Z.to_nat (Index.pair_rank n (Z.min i j) (Z.max i j))) ->
       T' !! q = T0 !! q) /\
    (forall k l, 0 <= k -> k < l -> l < n -> k <> i -> l <> i ->
       T' !! Z.to_nat (Index.pair_rank n k l) = T0 !! Z.to_nat (Index.pair_rank n k l)).
Proof.
  intros Hn Hi Hlen Hstep.
  set (idx := fun j : Z => Z.to_nat (Index.pair_rank n (Z.min i j) (Z.max i j))).
  set (val := fun j : Z => upd j (default d (T0 !! idx j))).
  destruct (foldM_inserts step idx val T0 (Index.delete (range n) i)) with (T := T0)
    as (T' & Hrun & Hlen' & Hin & Hout).
  - apply NoDup_fmap_2_strong; [|apply NoDup_delete_range].
    intros j j' Hj Hj' Heq.
    apply elem_of_delete_range in Hj as [Hj Hji], Hj' as [Hj' Hj'i].
    destruct (pair_index_small n i j) as [_ Hr]; [lia..|].
    destruct (pair_index_small n i j') as [_ Hr']; [lia..|].
    apply (pair_rank_unordered_injective n i); [lia..|].
    unfold idx in Heq. lia.
  - intros j Hj. apply elem_of_delete_range in Hj as [Hj Hji].
    destruct (pair_index_small n i j) as [_ Hr]; [lia..|]. unfold idx. lia.
  - intros T j Hj HT Hsame. apply elem_of_delete_range in Hj as [Hj Hji].
    destruct (pair_index_small n i j) as [_ Hr]; [lia..|].
    destruct (lookup_lt_is_Some_2 T0 (idx j)) as [cur Hcur]; [unfold idx; lia|].
    unfold val. rewrite Hcur. cbn [default from_option].
    unfold idx in *. apply Hstep; try done. by rewrite Hsame.
  - done.
  - done.
  - exists T'. split; [done|]. split; [done|]. split; [|split].
    + intros j cur Hj Hji Hcur.
      fold (idx j) in Hcur |- *.
      rewrite (Hin j) by (apply elem_of_delete_range; done).
      unfold val. by rewrite Hcur.
    + intros q Hq. apply Hout. intros Hq'.
      apply list_elem_of_fmap in Hq' as (j & Heq & Hj).
      apply elem_of_delete_range in Hj as [Hj Hji].
      by apply (Hq j).
    + intros k l Hk Hkl Hl Hki Hli.
      apply Hout. intros Hq.
      apply list_elem_of_fmap in Hq as (j & Heq & Hj).
      apply elem_of_delete_range in Hj as [Hj Hji].
      destruct (unravel_index_pair_small n k l) as (_ & Hr & _); [lia..|].
      destruct (pair_index_small n i j) as [_ Hr']; [lia..|].
      assert (Heq' : Index.pair_rank n k l
                     = Index.pair_rank n (Z.min i j) (Z.max i j)) by (unfold idx in Heq; lia).
      apply pair_rank_injective_small in Heq'; lia.
Qed.

End PairLoops.

Section FieldPerturbation.
Context `{Num F}.
Local Open Scope num_scope.

(** On a system of at most 24 spins
    [jit_observables_after_perturbation_plus_field] pulls the mean of spin
    i towards +1 and the entry of every pair {i,j} towards the mean of
    spin j ([jit_observables_after_perturbation_minus_field]: towards -1
    and minus that mean), and leaves the mean of every other spin and the
    entry of every pair without i as they were. *)
Theorem field_perturbation_small_systems (minus : bool) (n i : Z) (eps : F)
    (si sisj : list F) :
  (2 <= n <= 24)%Z ->
  Z.of_nat (length si) = n ->
  Z.of_nat (length sisj) = (n * (n - 1) / 2)%Z ->
  (0 <= i < n)%Z ->
  exists si' sisj' si_i,
    Perturb.field_perturb minus n si sisj i eps = Ok (si', sisj') /\
    si !! Z.to_nat i = Some si_i /\
    si' = <[Z.to_nat i :=
              si_i - eps * (if minus then si_i + of_Z 1 else si_i - of_Z 1)]> si /\
    length sisj' = length sisj /\
    (forall j cur sj, (0 <= j < n)%Z -> j <> i ->
       sisj !! Z.to_nat (Index.pair_rank n (Z.min i j) (Z.max i j)) = Some cur ->
       si !! Z.to_nat j = Some sj ->
       sisj' !! Z.to_nat (Index.pair_rank n (Z.min i j) (Z.max i j))
       = Some (cur - eps * (if minus then cur + sj else cur - sj))) /\
    (forall k l, (0 <= k)%Z -> (k < l)%Z -> (l < n)%Z -> k <> i -> l <> i ->
       sisj' !! Z.to_nat (Index.pair_rank n k l)
       = sisj !! Z.to_nat (Index.pair_rank n k l)).
Proof.
  intros Hn Hsi Hsisj Hi.
  destruct (lookup_lt_is_Some_2 si (Z.to_nat i)) as [si_i Hsi_i]; [lia|].
  set (new_i := si_i - eps * (if minus then si_i + of_Z 1 else si_i - of_Z 1)).
  set (si' := <[Z.to_nat i := new_i]> si).
  destruct (pair_loop_small (of_Z 0) (Perturb.field_step minus n si' i eps)
              (fun j cur => cur - eps * (if minus
                                         then cur + default (of_Z 0) (si !! Z.to_nat j)
                                         else cur - default (of_Z 0) (si !! Z.to_nat j)))
              n i sisj) as (sisj' & Hrun & Hlen & Hin & _ & Hout); [lia|lia|lia| |].
  - intros T j cur Hj Hji HT Hcur.
    unfold Perturb.field_step.
    destruct (pair_index_small n i j) as [Hix Hr]; [lia..|].
    rewrite Hix. cbn.
    rewrite (getitem_Ok T _ cur); [|lia|exact Hcur]. cbn.
    destruct (lookup_lt_is_Some_2 si (Z.to_nat j)) as [sj Hsj]; [lia|].
    assert (Hsj' : si' !! Z.to_nat j = Some sj).
    { unfold si'. rewrite list_lookup_insert_ne by lia. done. }
    rewrite (getitem_Ok si' _ sj); [|lia|exact Hsj']. cbn.
    rewrite setitem_Ok by lia. rewrite Hsj. cbn. by destruct minus.
  - exists si', sisj', si_i. split; [|split; [done|split; [done|split; [done|split]]]].
    + unfold Perturb.field_perturb.
      rewrite (getitem_Ok si i si_i); [|lia|done]. cbn.
      rewrite setitem_Ok by lia. cbn. fold new_i.
      replace (si_i - eps * (if minus then si_i + of_Z 1 else si_i - of_Z 1))
        with new_i by done.
      destruct minus; fold si'; by rewrite Hrun.
    + intros j cur sj Hj Hji Hcur Hsj.
      rewrite (Hin j cur) by done. by rewrite Hsj.
    + done.
Qed.

End FieldPerturbation.

Lemma field_perturbation_small_systems_witness :
  exists r, Perturb.field_perturb (F := Q) false 3 [0; 0; 0]%Q [0; 0; 0]%Q 0 (1 # 2)%Q
            = Ok r.
Proof.
  destruct (field_perturbation_small_systems (F := Q) false 3 0 (1 # 2)%Q
              [0; 0; 0]%Q [0; 0; 0]%Q ltac:(lia) eq_refl eq_refl ltac:(lia))
    as (si' & sisj' & _ & Hrun & _).
  exists (si', sisj'). exact Hrun.
Defined.

Lemma jit_perturbation_small_systems_witness :
  exists r, Perturb.jit_perturb (F := Q) false 3 [0; 0; 0]%Q [0; 0; 0]%Q 0 1 (1 # 2)%Q
            = Ok r.
Proof.
  destruct (jit_perturbation_small_systems (F := Q) false 3 0 1 (1 # 2)%Q
              [0; 0; 0]%Q [0; 0; 0]%Q ltac:(lia) eq_refl eq_refl ltac:(lia) ltac:(lia)
              ltac:(lia))
    as (si' & sisj' & _ & _ & Hrun & _).
  exists (si', sisj'). exact Hrun.
Defined.

(** ** The moments stay correlations *)

Lemma foldM_invariant {A B : Type} (P : A -> Prop) (f : A -> B -> result A)
    (l : list B) :
  (forall a b a', b ∈ l -> P a -> f a b = Ok a' -> P a') ->
  forall a a', P a -> foldM f a l = Ok a' -> P a'.
Proof.
  induction l as [|b l IH]; intros Hstep a a' Ha Hrun.
  - cbn in Hrun. by inversion Hrun; subst.
  - cbn [foldM] in Hrun. destruct (f a b) as [a1|e] eqn:Hf; cbn in Hrun; [|done].
    apply (IH (fun a0 b0 a0' Hb0 => Hstep a0 b0 a0' (list_elem_of_further _ _ _ Hb0))
             a1 a'); [|done].
    by apply (Hstep a b a1); [left|..].
Qed.

Lemma getitem_elem_of {A : Type} (l : list A) (i : Z) (x : A) :
  getitem l i = Ok x -> x ∈ l.
Proof.
  unfold getitem. destruct (norm_index (length l) i) as [k|e]; cbn; [|done].
  destruct (l !! k) as [y|] eqn:Hy; [|done].
  intros Heq. inversion Heq; subst. by eapply list_elem_of_lookup_2.
Qed.

Lemma setitem_Forall {A : Type} (P : A -> Prop) (l l' : list A) (i : Z) (x : A) :
  Forall P l -> P x -> setitem l i x = Ok l' -> Forall P l'.
Proof.
  unfold setitem. destruct (norm_index (length l) i) as [k|e]; cbn; [|done].
  intros Hl Hx Heq. inversion Heq; subst. by apply Forall_insert.
Qed.

Lemma within_unit_elem (v : list Q) (x : Q) :
  within_unit v -> x ∈ v -> (-1 <= x <= 1)%Q.
Proof. intros Hv Hx. unfold within_unit in Hv. rewrite Forall_forall in Hv. auto. Qed.

Lemma convex_step (eps cur other : Q) :
  (0 <= eps <= 1)%Q -> (-1 <= cur <= 1)%Q -> (-1 <= other <= 1)%Q ->
  (-1 <= cur - eps * (cur - other) <= 1)%Q /\
  (-1 <= cur - eps * (cur + other) <= 1)%Q.
Proof. intros He Hc Ho. repeat split; nra. Qed.


Lemma within_unit_zeros3 : within_unit [0; 0; 0]%Q.
Proof. repeat constructor; unfold Qle; cbn; lia. Qed.


(** ** Two implementations of the field perturbation *)

Lemma agree_bind {A A' B B' : Type} (R : A -> A' -> Prop) (S : B -> B' -> Prop)
    (c : result A) (c' : result A') (k : A -> result B) (k' : A' -> result B') :
  agree R c c' -> (forall a a', R a a' -> agree S (k a) (k' a')) ->
  agree S (c ≫= k) (c' ≫= k').
Proof.
  destruct c as [a|e], c' as [a'|e']; cbn; try done.
  intros HR Hk. by apply Hk.
Qed.

Lemma agree_getitem (l l' : list Q) (i : Z) :
  same_entries l l' -> agree Qeq (getitem l i) (getitem l' i).
Proof.
  intros Hl. unfold getitem. rewrite <- (Forall2_length _ _ _ Hl).
  destruct (norm_index (length l) i) as [k|e]; cbn; [|done].
  destruct (l !! k) as [x|] eqn:Hx.
  - destruct (Forall2_lookup_l _ _ _ _ _ Hl Hx) as (y & Hy & Hxy).
    by rewrite Hy.
  - apply lookup_ge_None in Hx. rewrite (Forall2_length _ _ _ Hl) in Hx.
    apply lookup_ge_None in Hx. by rewrite Hx.
Qed.

Lemma agree_setitem (l l' : list Q) (i : Z) (x x' : Q) :
  same_entries l l' -> (x == x')%Q ->
  agree same_entries (setitem l i x) (setitem l' i x').
Proof.
  intros Hl Hx. unfold setitem. rewrite <- (Forall2_length _ _ _ Hl).
  destruct (norm_index (length l) i) as [k|e]; cbn; [|done].
  by apply Forall2_insert.
Qed.

Lemma agree_foldM {A A' B : Type} (R : A -> A' -> Prop)
    (f : A -> B -> result A) (g : A' -> B -> result A') (l : list B) :
  (forall a a' b, R a a' -> agree R (f a b) (g a' b)) ->
  forall a a', R a a' -> agree R (foldM f a l) (foldM g a' l).
Proof.
  intros Hfg. induction l as [|b l IH]; intros a a' Ha; [done|].
  cbn [foldM]. eapply agree_bind; [by apply Hfg|]. exact IH.
Qed.

Lemma same_entries_refl (l : list Q) : same_entries l l.
Proof. apply Forall_Forall2_diag, Forall_forall. intros x _. reflexivity. Qed.


(** ** The fixed-size perturbation of a mean *)

Section MeanPerturbation.
Context `{Num F}.
Local Open Scope num_scope.

Lemma mean_perturb_small (minus : bool) (n i : Z) (eps : F) (si sisj : list F) :
  (2 <= n <= 24)%Z ->
  Z.of_nat (length si) = n ->
  Z.of_nat (length sisj) = (n * (n - 1) / 2)%Z ->
  (0 <= i < n)%Z ->
  exists si' sisj' si_i,
    SpinPerturb.mean_perturb minus n si sisj i eps = Ok (si', sisj') /\
    si !! Z.to_nat i = Some si_i /\
    si' = <[Z.to_nat i := if minus then si_i - eps else si_i + eps]> si /\
    length sisj' = length sisj /\
    (forall j cur sj, (0 <= j < n)%Z -> j <> i ->
       sisj !! Z.to_nat (Index.pair_rank n (Z.min i j) (Z.max i j)) = Some cur ->
       si !! Z.to_nat j = Some sj ->
       sisj' !! Z.to_nat (Index.pair_rank n (Z.min i j) (Z.max i j))
       = Some (if minus then cur - eps * sj else cur + eps * sj)) /\
    (forall q : nat,
       (forall j, (0 <= j < n)%Z -> j <> i ->
          q <> Z.to_nat (Index.pair_rank n (Z.min i j) (Z.max i j))) ->
       sisj' !! q = sisj !! q).
Proof.
  intros Hn Hsi Hsisj Hi.
  destruct (lookup_lt_is_Some_2 si (Z.to_nat i)) as [si_i Hsi_i]; [lia|].
  set (si' := <[Z.to_nat i := if minus then si_i - eps else si_i + eps]> si).
  destruct (pair_loop_small (of_Z 0) (SpinPerturb.mean_step minus n si' i eps)
              (fun j cur => if minus
                            then cur - eps * default (of_Z 0) (si !! Z.to_nat j)
                            else cur + eps * default (of_Z 0) (si !! Z.to_nat j))
              n i sisj) as (sisj' & Hrun & Hlen & Hin & Hout & _); [lia|lia|lia| |].
  - intros T j cur Hj Hji HT Hcur.
    unfold SpinPerturb.mean_step.
    destruct (pair_index_small n i j) as [Hix Hr]; [lia..|].
    rewrite Hix. cbn.
    rewrite (getitem_Ok T _ cur); [|lia|exact Hcur]. cbn.
    destruct (lookup_lt_is_Some_2 si (Z.to_nat j)) as [sj Hsj]; [lia|].
    assert (Hsj' : si' !! Z.to_nat j = Some sj).
    { unfold si'. rewrite list_lookup_insert_ne by lia. done. }
    rewrite (getitem_Ok si' _ sj); [|lia|exact Hsj']. cbn.
    rewrite setitem_Ok by lia. rewrite Hsj. cbn. done.
  - exists si', sisj', si_i. split; [|split; [done|split; [done|split; [done|split]]]].
    + unfold SpinPerturb.mean_perturb.
      rewrite (getitem_Ok si i si_i); [|lia|done]. cbn.
      rewrite setitem_Ok by lia. cbn. fold si'. by rewrite Hrun.
    + intros j cur sj Hj Hji Hcur Hsj.
      rewrite (Hin j cur) by done. by rewrite Hsj.
    + done.
Qed.

End MeanPerturbation.

(** On a system of at most 24 spins and in exact arithmetic,
    [jit_observables_after_perturbation_minus_mean] undoes
    [jit_observables_after_perturbation_plus_mean]: both calls return, and
    the second returns the moments the first one started from. *)
Theorem mean_perturbation_round_trip (n i : Z) (eps : Q) (si sisj : list Q) :
  2 <= n <= 24 ->
  Z.of_nat (length si) = n ->
  Z.of_nat (length sisj) = n * (n - 1) / 2 ->
  0 <= i < n ->
  exists si1 sisj1 si2 sisj2,
    SpinPerturb.jit_observables_after_perturbation_plus_mean n si sisj i eps
      = Ok (si1, sisj1) /\
    SpinPerturb.jit_observables_after_perturbation_minus_mean n si1 sisj1 i eps
      = Ok (si2, sisj2) /\
    same_entries si2 si /\ same_entries sisj2 sisj.
Proof.
  intros Hn Hsi Hsisj Hi.
  unfold SpinPerturb.jit_observables_after_perturbation_plus_mean,
    SpinPerturb.jit_observables_after_perturbation_minus_mean.
  destruct (mean_perturb_small false n i eps si sisj)
    as (si1 & sisj1 & si_i & Hrun1 & Hsi_i & Hsi1 & Hlen1 & Hin1 & Hout1); [done..|].
  destruct (mean_perturb_small true n i eps si1 sisj1)
    as (si2 & sisj2 & si_i1 & Hrun2 & Hsi_i1 & Hsi2 & Hlen2 & Hin2 & Hout2);
    [done|subst si1; rewrite length_insert; done|lia|done|].
  exists si1, sisj1, si2, sisj2. split; [done|]. split; [done|].
  assert (Hsi_i1' : si_i1 = (si_i + eps)%Q).
  { subst si1. rewrite list_lookup_insert_eq in Hsi_i1 by lia. by inversion Hsi_i1. }
  subst si_i1. split.
  - apply Forall2_same_length_lookup_2.
    { subst si2 si1. by rewrite !length_insert. }
    intros q x y Hx Hy. subst si2 si1.
    destruct (decide (q = Z.to_nat i)) as [->|Hq].
    + rewrite list_lookup_insert_eq in Hx by (rewrite length_insert; lia).
      inversion Hx; subst x. rewrite Hsi_i in Hy. inversion Hy; subst y.
      cbn [sub add Num_Q]. ring.
    + rewrite !list_lookup_insert_ne in Hx by done. rewrite Hx in Hy.
      inversion Hy. reflexivity.
  - apply Forall2_same_length_lookup_2; [lia|].
    intros q x y Hx Hy.
    destruct (decide (q ∈ (fun j => Z.to_nat (Index.pair_rank n (Z.min i j) (Z.max i j)))
                            <$> Index.delete (range n) i)) as [Hq|Hq].
    + apply list_elem_of_fmap in Hq as (j & -> & Hj).
      apply elem_of_delete_range in Hj as [Hj Hji].
      destruct (lookup_lt_is_Some_2 si (Z.to_nat j)) as [sj Hsj]; [lia|].
      assert (Hsj1 : si1 !! Z.to_nat j = Some sj).
      { subst si1. rewrite list_lookup_insert_ne by lia. done. }
      rewrite (Hin2 j _ sj Hj Hji (Hin1 j y sj Hj Hji Hy Hsj) Hsj1) in Hx.
      inversion Hx; subst x. cbn [sub add mul Num_Q]. ring.
    + rewrite Hout2, Hout1, Hy in Hx.
      * inversion Hx. reflexivity.
      * intros j Hj Hji ->. apply Hq. apply list_elem_of_fmap.
        exists j. split; [done|]. by apply elem_of_delete_range.
      * intros j Hj Hji ->. apply Hq. apply list_elem_of_fmap.
        exists j. split; [done|]. by apply elem_of_delete_range.
Qed.

Lemma mean_perturbation_round_trip_witness :
  exists si1 sisj1 si2 sisj2,
    SpinPerturb.jit_observables_after_perturbation_plus_mean 3
      [0; 0; 0]%Q [0; 0; 0]%Q 0 (1 # 2)%Q = Ok (si1, sisj1) /\
    SpinPerturb.jit_observables_after_perturbation_minus_mean 3
      si1 sisj1 0 (1 # 2)%Q = Ok (si2, sisj2) /\
    same_entries si2 [0; 0; 0]%Q /\ same_entries sisj2 [0; 0; 0]%Q.
Proof.
  exact (mean_perturbation_round_trip 3 0 (1 # 2)%Q [0; 0; 0]%Q [0; 0; 0]%Q
           ltac:(lia) eq_refl eq_refl ltac:(lia)).
Defined.

(** ** The searches for the finite-difference step *)

Section StepSearch.
Context `{Num F}.
Import Curvature.
Local Open Scope num_scope.

Lemma shrink_succ (k : nat) (epsdJ : F) :
  shrink k (epsdJ / of_Z 10) = shrink (S k) epsdJ.
Proof.
  unfold shrink. symmetry.
  exact (Nat.iter_succ_r k (fun e => e / of_Z 10) epsdJ).
Qed.

Lemma truthy_nonzero (f : Z) : f <> 0%Z -> truthy (Some f) = true.
Proof. intros Hf. cbn. by destruct (Z.eqb_spec f 0). Qed.

Lemma maj_loop_run (linalg_norm : list (list F) -> F)
    (inner : F -> result Hessian.HessOut) (K : nat) :
  forall (fuel : nat) (e0 : F) (hess : nat -> list (list F)) (flag : nat -> Z)
         (err : nat -> list (list F)) (last : Hessian.HessOut),
  (forall k, (k <= K)%nat -> flag k <> 0%Z) ->
  (forall k, (1 <= k <= K)%nat ->
     inner (shrink k e0) = Ok (hess k, Some (flag k), Some (err k))) ->
  (forall k, (k < K)%nat ->
     (linalg_norm (err (S k)) <? linalg_norm (err k)) = true) ->
  inner (shrink (S K) e0) = Ok last ->
  (truthy last.1.2 = false \/
   exists e, last.2 = Some e /\ (linalg_norm e <? linalg_norm (err K)) = false) ->
  (K < fuel)%nat ->
  maj_loop linalg_norm fuel inner (e0 / of_Z 10) (hess 0%nat) (Some (flag 0%nat))
    (Some (err 0%nat))
  = Ok (Some (hess K, last.1.2, Some (err K))).
Proof.
  induction K as [|K IH]; intros fuel e0 hess flag err last Hflag Hcall Hdown Hlast Hstop Hfuel.
  - destruct fuel as [|fuel]; [lia|]. cbn [maj_loop].
    rewrite truthy_nonzero by (apply Hflag; lia).
    change (e0 / of_Z 10) with (shrink 1 e0). rewrite Hlast.
    destruct last as [[h f] e]. cbn [mbind result_bind fst snd] in *.
    destruct Hstop as [Hf|(e' & -> & Hnorm)].
    + by rewrite Hf.
    + destruct (truthy f); cbn; [|done]. by rewrite Hnorm.
  - destruct fuel as [|fuel]; [lia|]. cbn [maj_loop].
    rewrite truthy_nonzero by (apply Hflag; lia).
    change (e0 / of_Z 10) with (shrink 1 e0).
    rewrite (Hcall 1%nat) by lia. cbn [mbind result_bind].
    rewrite truthy_nonzero by (apply Hflag; lia). cbn.
    rewrite (Hdown 0%nat) by lia.
    apply (IH fuel (shrink 1 e0) (fun k => hess (S k)) (fun k => flag (S k))
             (fun k => err (S k)) last).
    + intros k Hk. apply Hflag. lia.
    + intros k Hk. change (shrink 1 e0) with (e0 / of_Z 10).
      rewrite shrink_succ. apply Hcall. lia.
    + intros k Hk. apply Hdown. lia.
    + change (shrink 1 e0) with (e0 / of_Z 10). by rewrite shrink_succ.
    + done.
    + lia.
Qed.

(** The search of [maj_curvature].  When the estimator is flagged at the
    steps [epsdJ], [epsdJ/10], ..., [epsdJ/10^K] with an error norm that
    goes down from each step to the next, and the call at the following
    step is not flagged or has no smaller error norm, the search stops
    there: it returns the Hessian and the error array of step
    [epsdJ/10^K], with the flag of the call after it. *)
Theorem maj_search_returns_last_improvement (linalg_norm : list (list F) -> F)
    (inner : F -> result Hessian.HessOut) (epsdJ : F) (K fuel : nat)
    (hess : nat -> list (list F)) (flag : nat -> Z) (err : nat -> list (list F))
    (last : Hessian.HessOut) :
  (forall k, (k <= K)%nat ->
     inner (shrink k epsdJ) = Ok (hess k, Some (flag k), Some (err k)) /\
     flag k <> 0%Z) ->
  (forall k, (k < K)%nat ->
     (linalg_norm (err (S k)) <? linalg_norm (err k)) = true) ->
  inner (shrink (S K) epsdJ) = Ok last ->
  (truthy last.1.2 = false \/
   exists e, last.2 = Some e /\ (linalg_norm e <? linalg_norm (err K)) = false) ->
  (K < fuel)%nat ->
  maj_search linalg_norm fuel inner epsdJ
  = Ok (Some (hess K, last.1.2, Some (err K))).
Proof.
  intros Hcall Hdown Hlast Hstop Hfuel. unfold maj_search.
  pose proof (proj1 (Hcall 0%nat ltac:(lia))) as H0.
  change (shrink 0 epsdJ) with epsdJ in H0. rewrite H0. cbn [mbind result_bind].
  apply (maj_loop_run linalg_norm inner K fuel epsdJ hess flag err last); try done.
  - intros k Hk. by apply Hcall.
  - intros k Hk. apply Hcall. lia.
Qed.

Lemma dkl_loop_run (inner : F -> result DklOut) (K : nat) :
  forall (fuel : nat) (e0 : F) (hess : nat -> list (list F)) (flag : nat -> Z)
         (normerr : nat -> F) (last : DklOut),
  (forall k, (k <= K)%nat -> flag k <> 0%Z) ->
  (forall k, (1 <= k <= K)%nat ->
     inner (shrink k e0) = Ok (hess k, Some (flag k), Some (normerr k))) ->
  (forall k, (k < K)%nat -> (normerr (S k) <? normerr k) = true) ->
  inner (shrink (S K) e0) = Ok last ->
  (truthy last.1.2 = false \/
   exists x, last.2 = Some x /\ (x <? normerr K) = false) ->
  (K < fuel)%nat ->
  dkl_loop fuel inner (e0 / of_Z 10) (hess 0%nat) (Some (flag 0%nat))
    (Some (normerr 0%nat))
  = Ok (Some (hess K, last.1.2, last.2)).
Proof.
  induction K as [|K IH]; intros fuel e0 hess flag normerr last Hflag Hcall Hdown Hlast Hstop Hfuel.
  - destruct fuel as [|fuel]; [lia|]. cbn [dkl_loop].
    rewrite truthy_nonzero by (apply Hflag; lia).
    change (e0 / of_Z 10) with (shrink 1 e0). rewrite Hlast.
    destruct last as [[h f] e]. cbn [mbind result_bind fst snd] in *.
    destruct Hstop as [Hf|(e' & -> & Hnorm)].
    + by rewrite Hf.
    + destruct (truthy f); cbn; [|done]. by rewrite Hnorm.
  - destruct fuel as [|fuel]; [lia|]. cbn [dkl_loop].
    rewrite truthy_nonzero by (apply Hflag; lia).
    change (e0 / of_Z 10) with (shrink 1 e0).
    rewrite (Hcall 1%nat) by lia. cbn [mbind result_bind].
    rewrite truthy_nonzero by (apply Hflag; lia). cbn.
    rewrite (Hdown 0%nat) by lia.
    apply (IH fuel (shrink 1 e0) (fun k => hess (S k)) (fun k => flag (S k))
             (fun k => normerr (S k)) last).
    + intros k Hk. apply Hflag. lia.
    + intros k Hk. change (shrink 1 e0) with (e0 / of_Z 10).
      rewrite shrink_succ. apply Hcall. lia.
    + intros k Hk. apply Hdown. lia.
    + change (shrink 1 e0) with (e0 / of_Z 10). by rewrite shrink_succ.
    + done.
    + lia.
Qed.

(** The search of [dkl_curvature] stops by the same rule, but what it
    returns is mixed: the Hessian of step [epsdJ/10^K], the last one whose
    error norm went down, with the flag and the error norm of the call
    after it. *)
Theorem dkl_search_returns_norm_of_next_step (inner : F -> result DklOut)
    (epsdJ : F) (K fuel : nat) (hess : nat -> list (list F)) (flag : nat -> Z)
    (normerr : nat -> F) (last : DklOut) :
  (forall k, (k <= K)%nat ->
     inner (shrink k epsdJ) = Ok (hess k, Some (flag k), Some (normerr k)) /\
     flag k <> 0%Z) ->
  (forall k, (k < K)%nat -> (normerr (S k) <? normerr k) = true) ->
  inner (shrink (S K) epsdJ) = Ok last ->
  (truthy last.1.2 = false \/
   exists x, last.2 = Some x /\ (x <? normerr K) = false) ->
  (K < fuel)%nat ->
  dkl_search fuel inner epsdJ = Ok (Some (hess K, last.1.2, last.2)).
Proof.
  intros Hcall Hdown Hlast Hstop Hfuel. unfold dkl_search.
  pose proof (proj1 (Hcall 0%nat ltac:(lia))) as H0.
  change (shrink 0 epsdJ) with epsdJ in H0. rewrite H0. cbn [mbind result_bind].
  apply (dkl_loop_run inner K fuel epsdJ hess flag normerr last); try done.
  - intros k Hk. by apply Hcall.
  - intros k Hk. apply Hcall. lia.
Qed.

Lemma dkl_check_without_pool (linalg_norm : list (list F) -> F)
    (dkl_diag : F -> nat -> F) (dkl_off_diag : F -> nat * nat -> F) (m : nat)
    (n_cpus : option Z) (e rtol : F) :
  _dkl_curvature linalg_norm dkl_diag dkl_off_diag m
    (fun e2 =>
       r ← dkl_wrapper 0
             (fun e' cs' =>
                _dkl_curvature linalg_norm dkl_diag dkl_off_diag m
                  (fun _ => Raise RecursionError) None false e' cs' default_rtol)
             (Some e2) (Some false) None;
       match r with
       | Some (hess2, _) => Ok hess2
       | None => Raise RecursionError
       end)
    n_cpus false e true rtol
  = Raise AttributeError.
Proof.
  unfold _dkl_curvature at 1, Hessian._dkl_curvature.
  destruct (Hessian.use_loops n_cpus); [|done].
  cbn [mbind result_bind]. done.
Qed.

(** [dkl_curvature] makes no pool, and the call it makes for the
    stability check passes no [n_cpus], so that call always takes the
    branch that maps over [self.pool].  On an object without a [pool]
    attribute the wrapper therefore raises [AttributeError] for every
    [n_cpus], step and estimator unless the check is switched off. *)
Theorem dkl_curvature_needs_a_pool (linalg_norm : list (list F) -> F)
    (dkl_diag : F -> nat -> F) (dkl_off_diag : F -> nat * nat -> F) (m fuel : nat)
    (epsdJ : option F) (check_stability full_output : option bool)
    (n_cpus : option Z) (rtol : option F) :
  check_stability <> Some false ->
  dkl_curvature linalg_norm dkl_diag dkl_off_diag m fuel false epsdJ
    check_stability full_output n_cpus rtol
  = Raise AttributeError.
Proof.
  intros Hcs.
  assert (Hon : default true check_stability = true)
    by (destruct check_stability as [[]|]; done).
  unfold dkl_curvature, dkl_wrapper at 1, dkl_search. rewrite Hon.
  by rewrite dkl_check_without_pool.
Qed.

(** [maj_curvature] with [high_prec=True] on an object whose [n_cpus] is
    at most one makes no pool; unless the call also passes [n_cpus<=1],
    [_maj_curvature_high_prec] takes the branch that maps over
    [self.pool], and the call raises [AttributeError]. *)
Theorem maj_curvature_high_prec_needs_n_cpus (linalg_norm : list (list F) -> F)
    (maj_diag : F -> nat -> F) (maj_off_diag : F -> nat * nat -> F)
    (hp_diag : F -> nat -> F) (hp_off_diag : F -> nat * nat -> F) (m fuel : nat)
    (self_n_cpus : option Z) (normalized : bool) (epsdJ : option F)
    (check_stability full_output : option bool) (n_cpus : option (option Z))
    (rtol : option F) :
  Hessian.use_loops self_n_cpus = true ->
  Hessian.use_loops (default None n_cpus) = false ->
  maj_curvature linalg_norm maj_diag maj_off_diag hp_diag hp_off_diag m fuel
    self_n_cpus false normalized epsdJ check_stability full_output (Some true)
    n_cpus rtol
  = Raise AttributeError.
Proof.
  intros Hself Hkw. unfold maj_curvature, maj_search. cbn [default from_option].
  unfold _maj_curvature_high_prec. rewrite Hself, Hkw. done.
Qed.

End StepSearch.

Lemma maj_search_returns_last_improvement_witness :
  Curvature.maj_search Traces.norm1 2 Traces.maj_trace 1%Q
  = Ok (Some ([[2]]%Q, Some 0, Some [[2]]%Q)).
Proof.
  refine (maj_search_returns_last_improvement Traces.norm1 Traces.maj_trace 1%Q 1 2
            (fun k => match k with O => [[1]]%Q | _ => [[2]]%Q end)
            (fun _ => 1)
            (fun k => match k with O => [[4]]%Q | _ => [[2]]%Q end)
            ([[3]]%Q, Some 0, Some [[1]]%Q) _ _ _ _ _).
  - intros k Hk. destruct k as [|[|k]]; [split; [reflexivity|lia]..|lia].
  - intros k Hk. destruct k as [|k]; [reflexivity|lia].
  - reflexivity.
  - left. reflexivity.
  - lia.
Defined.

Lemma dkl_search_returns_norm_of_next_step_witness :
  Curvature.dkl_search 2 Traces.dkl_trace 1%Q
  = Ok (Some ([[2]]%Q, Some 1, Some 3%Q)).
Proof.
  refine (dkl_search_returns_norm_of_next_step Traces.dkl_trace 1%Q 1 2
            (fun k => match k with O => [[1]]%Q | _ => [[2]]%Q end)
            (fun _ => 1)
            (fun k => match k with O => 4%Q | _ => 2%Q end)
            ([[3]]%Q, Some 1, Some 3%Q) _ _ _ _ _).
  - intros k Hk. destruct k as [|[|k]]; [split; [reflexivity|lia]..|lia].
  - intros k Hk. destruct k as [|k]; [reflexivity|lia].
  - reflexivity.
  - right. exists 3%Q. split; reflexivity.
  - lia.
Defined.

Lemma dkl_curvature_needs_a_pool_witness :
  Curvature.dkl_curvature Traces.norm1 Traces.flat_diag Traces.flat_off_diag 2 1
    false None None None (Some 1) None
  = Raise AttributeError.
Proof.
  apply dkl_curvature_needs_a_pool. discriminate.
Defined.

Lemma maj_curvature_high_prec_needs_n_cpus_witness :
  Curvature.maj_curvature Traces.norm1 Traces.flat_diag Traces.flat_off_diag
    Traces.flat_diag Traces.flat_off_diag 2 1 (Some 1) false true None None None
    (Some true) None None
  = Raise AttributeError.
Proof.
  apply maj_curvature_high_prec_needs_n_cpus; reflexivity.
Defined.

(** ** Saving and restoring a model *)

Lemma slice_to_from {A : Type} (l : list A) (i : Z) :
  slice_to l i ++ slice_from l i = l.
Proof. unfold slice_to, slice_from. destruct (i <? 0); apply take_drop. Qed.

(** [__set_state__] applied to what [__get_state__] returns rebuilds the
    object that [IsingFisherCurvatureMethod1.__init__] had built, with the
    same parameters, moments, distribution, caches and [dJ], except for
    [n_cpus]: the dictionary does not hold it, and the restored object
    has [n_cpus = None]. *)
Theorem set_state_restores_all_but_n_cpus
    (linalg_solve : list (list float) -> list float -> result (list float))
    (linalg_lstsq : list (list float) -> list float -> list float)
    (linalg_cond : list (list float) -> float)
    (import_module : Z -> result Solver.IsingEqn)
    (bin_states : Z -> list (list Z))
    (unique_abs_sums : list (list Z) -> list Z * list Z)
    (n : Z) (h J : option (list float)) (eps : float) (precompute : bool)
    (n_cpus : option Z) (self : Solver.Model) :
  Solver.Method1___init__ linalg_solve linalg_lstsq linalg_cond import_module
    bin_states unique_abs_sums n h J eps precompute n_cpus = Ok self ->
  Pickle.Method1___set_state__ linalg_solve linalg_lstsq linalg_cond import_module
    bin_states unique_abs_sums (Pickle.Method1___get_state__ self)
  = Ok {| Solver.self_n := Solver.self_n self;
          Solver.self_kStates := Solver.self_kStates self;
          Solver.self_eps := Solver.self_eps self;
          Solver.self_hJ := Solver.self_hJ self;
          Solver.self_n_cpus := None;
          Solver.self_sisj := Solver.self_sisj self;
          Solver.self_p := Solver.self_p self;
          Solver.self_allStates := Solver.self_allStates self;
          Solver.self_coarseUix := Solver.self_coarseUix self;
          Solver.self_coarseInvix := Solver.self_coarseInvix self;
          Solver.self_triplets := Solver.self_triplets self;
          Solver.self_quartets := Solver.self_quartets self;
          Solver.self_dJ := Solver.self_dJ self |}.
Proof.
  unfold Solver.Method1___init__. intros Hinit.
  destruct (Solver.init_guard n eps Solver.point_one) eqn:Hg; cbn in Hinit; [|done].
  destruct (Solver.np_concatenate h J) as [hJ|e] eqn:HhJ; cbn in Hinit; [|done].
  destruct (import_module n) as [ising|e] eqn:Himp; cbn in Hinit; [|done].
  destruct (unique_abs_sums (bin_states n)) as [uix invix] eqn:Huix.
  destruct (Solver._triplets_and_quartets n (bin_states n)) as [[tr qu]|e] eqn:Hc;
    cbn in Hinit; [|done].
  destruct (if precompute then _ else _) as [dJ|e]; cbn in Hinit; [|done].
  inversion Hinit; subst self; clear Hinit.
  unfold Pickle.Method1___set_state__, Pickle.Method1___get_state__,
    Solver.Method1___init__.
  cbn [Solver.self_n Solver.self_hJ Solver.self_eps Solver.self_dJ
       Pickle.state_n Pickle.state_h Pickle.state_J Pickle.state_eps Pickle.state_dJ].
  rewrite Hg. cbn [py_assert mbind result_bind Solver.np_concatenate].
  rewrite slice_to_from, Himp. cbn [mbind result_bind].
  rewrite Huix, Hc. cbn. reflexivity.
Qed.

Lemma set_state_restores_all_but_n_cpus_witness :
  exists self self',
    Solver.Method1___init__ Examples.linalg_solve Examples.linalg_lstsq
      Examples.linalg_cond Examples.import_module Examples.bin_states
      Examples.unique_abs_sums 2 (Some [0; 0]%float) (Some [0]%float)
      Examples.default_eps false (Some 1) = Ok self /\
    Pickle.Method1___set_state__ Examples.linalg_solve Examples.linalg_lstsq
      Examples.linalg_cond Examples.import_module Examples.bin_states
      Examples.unique_abs_sums (Pickle.Method1___get_state__ self) = Ok self' /\
    Solver.self_n_cpus self' = None.
Proof.
  destruct (Solver.Method1___init__ Examples.linalg_solve Examples.linalg_lstsq
              Examples.linalg_cond Examples.import_module Examples.bin_states
              Examples.unique_abs_sums 2 (Some [0; 0]%float) (Some [0]%float)
              Examples.default_eps false (Some 1)) as [self|e] eqn:Hinit;
    [|vm_compute in Hinit; discriminate].
  exists self. eexists. split; [reflexivity|]. split.
  - exact (set_state_restores_all_but_n_cpus _ _ _ _ _ _ _ _ _ _ _ _ _ Hinit).
  - reflexivity.
Defined.

(** ** Energies *)

Lemma foldM_app {A B : Type} (f : A -> B -> result A) (l1 l2 : list B) (a : A) :
  foldM f a (l1 ++ l2) = (a' ← foldM f a l1; foldM f a' l2).
Proof.
  revert a. induction l1 as [|b l1 IH]; intros a; [done|].
  cbn [foldM app]. destruct (f a b) as [a1|e]; cbn; [apply IH|done].
Qed.

Lemma foldM_map {A B C : Type} (f : A -> C -> result A) (g : B -> C) (l : list B) (a : A) :
  foldM f a (map g l) = foldM (fun a b => f a (g b)) a l.
Proof.
  revert a. induction l as [|b l IH]; intros a; [done|].
  cbn [foldM map]. destruct (f a (g b)) as [a1|e]; cbn; [apply IH|done].
Qed.

(** Two nested loops are one loop over the pairs they visit. *)
Lemma foldM_nested {A : Type} (g : A -> Z * Z -> result A) (inner : Z -> list Z)
    (l : list Z) (a : A) :
  foldM (fun st i => foldM (fun st j => g st (i, j)) st (inner i)) a l
  = foldM g a (i ← l; j ← inner i; [(i, j)]).
Proof.
  revert a. induction l as [|i l IH]; intros a; [done|].
  cbn [foldM mbind list_bind]. rewrite foldM_app.
  assert (Hin : (inner i ≫= fun j => [(i, j)]) = map (pair i) (inner i)).
  { induction (inner i) as [|j js IHj]; [done|]. cbn. by f_equal. }
  rewrite Hin, foldM_map.
  destruct (foldM _ a (inner i)) as [a1|e]; cbn; [apply IH|done].
Qed.

Lemma loops_visit_pairs {A : Type} (g : A -> Z * Z -> result A) (n : Z) (a : A) :
  foldM (fun st i => foldM (fun st j => g st (i, j)) st (py_range (i + 1) n)) a
    (range (n - 1))
  = foldM g a (Solver.pairs n).
Proof.
  rewrite foldM_nested. unfold Solver.pairs, range.
  by rewrite py_range_bind_pairs.
Qed.

Lemma length_pairs_of {A : Type} (l : list A) :
  (2 * Z.of_nat (length (Index.pairs_of l))
   = Z.of_nat (length l) * (Z.of_nat (length l) - 1))%Z.
Proof.
  induction l as [|x l IH]; [done|].
  rewrite pairs_of_cons, length_app, length_map. cbn [length].
  rewrite Nat2Z.inj_add, Nat2Z.inj_succ. nia.
Qed.

Lemma length_pairs (n : Z) :
  (0 <= n)%Z -> Z.of_nat (length (Solver.pairs n)) = (n * (n - 1) / 2)%Z.
Proof.
  intros Hn. unfold Solver.pairs, range.
  pose proof (length_pairs_of (py_range 0 n)) as Hl.
  assert (Hr : Z.of_nat (length (py_range 0 n)) = n).
  { unfold py_range. rewrite length_map, length_seq. lia. }
  rewrite Hr in Hl. rewrite <- Hl, Z.mul_comm, Z.div_mul by lia. done.
Qed.

Lemma getitem_map {A B : Type} (f : A -> B) (l : list A) (i : Z) :
  getitem (map f l) i = (x ← getitem l i; Ok (f x)).
Proof.
  unfold getitem. rewrite length_map.
  destruct (norm_index (length l) i) as [k|e]; cbn; [|done].
  rewrite list_lookup_fmap. by destruct (l !! k).
Qed.

Section EnergyFacts.
Context `{Num F}.
Import Energy.
Local Open Scope num_scope.

(** The counter [k] of [fast_sum] is the position of the pair in the
    enumeration: the loop adds up one term per pair. *)
Lemma fast_sum_loop (J : list F) (s : list Z) (ps : list (Z * Z)) :
  forall (e0 : F) (k0 : Z),
  (0 <= k0)%Z -> (k0 + Z.of_nat (length ps) <= Z.of_nat (length J))%Z ->
  (forall i j, (i, j) ∈ ps ->
     (0 <= i < Z.of_nat (length s))%Z /\ (0 <= j < Z.of_nat (length s))%Z) ->
  foldM (fast_sum_step J s) (e0, k0) ps
  = Ok (foldl (fun e '(q, (i, j)) =>
                 e + default (of_Z 0) (J !! Z.to_nat q)
                     * of_Z (default 0%Z (s !! Z.to_nat i))
                     * of_Z (default 0%Z (s !! Z.to_nat j)))
          e0 (imap (fun q x => ((k0 + Z.of_nat q)%Z, x)) ps),
        (k0 + Z.of_nat (length ps))%Z).
Proof.
  induction ps as [|[i j] ps IH]; intros e0 k0 Hk0 Hlen Hin.
  - cbn. do 2 f_equal. lia.
  - cbn [foldM fast_sum_step length] in *.
    destruct (Hin i j) as [Hi Hj]; [left|].
    destruct (lookup_lt_is_Some_2 J (Z.to_nat k0)) as [Jk HJk]; [lia|].
    destruct (lookup_lt_is_Some_2 s (Z.to_nat i)) as [si Hsi]; [lia|].
    destruct (lookup_lt_is_Some_2 s (Z.to_nat j)) as [sj Hsj]; [lia|].
    rewrite (getitem_Ok J k0 Jk), (getitem_Ok s i si), (getitem_Ok s j sj);
      [|lia|done|lia|done|lia|done].
    cbn [mbind result_bind].
    rewrite IH; [|lia|lia|intros; apply Hin; by right].
    cbn [imap foldl]. rewrite Z.add_0_r, HJk, Hsi, Hsj. cbn [default from_option].
    f_equal. f_equal; [|lia].
    f_equal. apply imap_ext. intros q x _. cbn. f_equal. lia.
Qed.

Lemma pairs_in_range (n i j : Z) :
  (i, j) ∈ Solver.pairs n -> (0 <= i < n)%Z /\ (0 <= j < n)%Z.
Proof. unfold Solver.pairs. intros Hin. apply elem_of_pairs_of_range in Hin. lia. Qed.

Lemma fast_sum_closed (J : list F) (s : list Z) :
  (Z.of_nat (length s) * (Z.of_nat (length s) - 1) / 2 <= Z.of_nat (length J))%Z ->
  fast_sum J s
  = Ok (foldl (fun e '(q, (i, j)) =>
                 e + default (of_Z 0) (J !! Z.to_nat q)
                     * of_Z (default 0%Z (s !! Z.to_nat i))
                     * of_Z (default 0%Z (s !! Z.to_nat j)))
          (of_Z 0) (Solver.enumerate (Solver.pairs (Z.of_nat (length s))))).
Proof.
  intros Hlen. unfold fast_sum. rewrite loops_visit_pairs.
  rewrite fast_sum_loop.
  - cbn. do 2 f_equal.
  - lia.
  - rewrite length_pairs by lia. lia.
  - intros i j Hin. by apply pairs_in_range.
Qed.

(** The loop of [fast_sum_ternary] reads [J[k]] only below the number of
    pairs. *)
Lemma fast_sum_ternary_loop (J : list F) (s : list Z) (ps : list (Z * Z)) :
  forall (e0 : F) (k0 : Z),
  (0 <= k0)%Z -> (k0 + Z.of_nat (length ps) <= Z.of_nat (length J))%Z ->
  (forall i j, (i, j) ∈ ps ->
     (0 <= i < Z.of_nat (length s))%Z /\ (0 <= j < Z.of_nat (length s))%Z) ->
  exists e, foldM (fast_sum_ternary_step J s) (e0, k0) ps
            = Ok (e, (k0 + Z.of_nat (length ps))%Z).
Proof.
  induction ps as [|[i j] ps IH]; intros e0 k0 Hk0 Hlen Hin.
  - exists e0. cbn. do 2 f_equal. lia.
  - cbn [foldM fast_sum_ternary_step length] in *.
    destruct (Hin i j) as [Hi Hj]; [left|].
    destruct (lookup_lt_is_Some_2 J (Z.to_nat k0)) as [Jk HJk]; [lia|].
    destruct (lookup_lt_is_Some_2 s (Z.to_nat i)) as [si Hsi]; [lia|].
    destruct (lookup_lt_is_Some_2 s (Z.to_nat j)) as [sj Hsj]; [lia|].
    rewrite (getitem_Ok s i si), (getitem_Ok s j sj); [|lia|done|lia|done].
    cbn [mbind result_bind].
    rewrite (getitem_Ok J k0 Jk); [|lia|done].
    destruct (IH (if (si =? sj)%Z then e0 + Jk else e0) (k0 + 1)%Z)
      as [e He]; [lia|lia|intros; apply Hin; by right|].
    exists e. destruct (si =? sj)%Z; cbn [mbind result_bind]; rewrite He;
      do 2 f_equal; lia.
Qed.

(** [fast_sum_ternary] is guarded by its assertion: with a coupling vector
    of any other length than the number of pairs it raises
    [AssertionError], and with that length it returns, so no index is ever
    out of range. *)
Theorem fast_sum_ternary_is_guarded (J : list F) (s : list Z) :
  (Z.of_nat (length J)
   = Z.of_nat (length s) * (Z.of_nat (length s) - 1) / 2
   -> exists e, fast_sum_ternary J s = Ok e)%Z /\
  (Z.of_nat (length J)
   <> Z.of_nat (length s) * (Z.of_nat (length s) - 1) / 2
   -> fast_sum_ternary J s = Raise AssertionError)%Z.
Proof.
  unfold fast_sum_ternary. split; intros Hlen.
  - rewrite (proj2 (Z.eqb_eq _ _) Hlen). cbn [py_assert mbind result_bind].
    rewrite loops_visit_pairs.
    destruct (fast_sum_ternary_loop J s (Solver.pairs (Z.of_nat (length s)))
                (of_Z 0) 0%Z) as [e He].
    + lia.
    + rewrite length_pairs by lia. lia.
    + intros i j Hin. by apply pairs_in_range.
    + rewrite He. cbn. eauto.
  - by rewrite (proj2 (Z.eqb_neq _ _) Hlen).
Qed.

(** [fast_sum_ternary] looks at the states only to compare them: it
    returns the same energy when the states are renamed by a map that is
    one-to-one on the states that occur. *)
Theorem fast_sum_ternary_ignores_state_names (J : list F) (s : list Z) (f : Z -> Z) :
  (forall a b, a ∈ s -> b ∈ s -> f a = f b -> a = b) ->
  fast_sum_ternary J (map f s) = fast_sum_ternary J s.
Proof.
  intros Hinj. unfold fast_sum_ternary. rewrite length_map.
  destruct (py_assert _) as [[]|e]; cbn [mbind result_bind]; [|done].
  rewrite !loops_visit_pairs.
  rewrite (foldM_ext (fast_sum_ternary_step J (map f s)) (fast_sum_ternary_step J s));
    [done|].
  intros [e k] [i j] _. unfold fast_sum_ternary_step.
  rewrite !getitem_map.
  destruct (getitem s i) as [si|e1] eqn:Hi; cbn; [|done].
  destruct (getitem s j) as [sj|e2] eqn:Hj; cbn; [|done].
  apply getitem_elem_of in Hi, Hj.
  destruct (Z.eqb_spec si sj) as [->|Hne].
  - by rewrite Z.eqb_refl.
  - destruct (Z.eqb_spec (f si) (f sj)) as [Heq|_]; [|done].
    by apply Hinj in Heq.
Qed.

End EnergyFacts.

Lemma fast_sum_ternary_is_guarded_witness :
  exists e, Energy.fast_sum_ternary [1; 2; 4]%Q [0; 1; 0] = Ok e.
Proof.
  exact (proj1 (fast_sum_ternary_is_guarded [1; 2; 4]%Q [0; 1; 0]) eq_refl).
Defined.

Lemma fast_sum_ternary_ignores_state_names_witness :
  Energy.fast_sum_ternary [1; 2; 4]%Q (map (fun x => (x + 1) mod 3) [0; 1; 0])
  = Energy.fast_sum_ternary [1; 2; 4]%Q [0; 1; 0].
Proof.
  apply fast_sum_ternary_ignores_state_names.
  intros a b Ha Hb.
  repeat (apply elem_of_cons in Ha as [->|Ha]);
    repeat (apply elem_of_cons in Hb as [->|Hb]);
    try (by apply elem_of_nil in Ha); try (by apply elem_of_nil in Hb);
    vm_compute; congruence.
Defined.

(** ** The order of the couplings *)

Lemma pairs_enumerated_upto_24 :
  forallb (fun n =>
    forallb (fun '(q, (i, j)) =>
      match Index.unravel_index [i; j] n with
      | Ok v => v =? q
      | Raise _ => false
      end) (Solver.enumerate (Solver.pairs n))) (range 25) = true.
Proof. vm_compute. reflexivity. Qed.

Lemma pairs_lookup_unravel (n : Z) (q : nat) (i j : Z) :
  n <= 24 -> Solver.pairs n !! q = Some (i, j) ->
  Index.unravel_index [i; j] n = Ok (Z.of_nat q).
Proof.
  intros Hn Hq.
  destruct (Z.ltb_spec n 0) as [Hneg|Hpos].
  { unfold Solver.pairs, range in Hq. rewrite py_range_nil in Hq by lia. done. }
  pose proof (forallb_elem_of _ _ n pairs_enumerated_upto_24) as Hall.
  cbv beta in Hall.
  specialize (Hall ltac:(apply elem_of_py_range; lia)).
  pose proof (forallb_elem_of _ _ (Z.of_nat q, (i, j)) Hall) as Hp.
  cbv beta iota in Hp.
  assert (Hin : (Z.of_nat q, (i, j)) ∈ Solver.enumerate (Solver.pairs n)).
  { apply (list_elem_of_lookup_2 _ q). unfold Solver.enumerate.
    by rewrite list_lookup_imap, Hq. }
  specialize (Hp Hin).
  destruct (Index.unravel_index [i; j] n) as [v|]; [|done].
  apply Z.eqb_eq in Hp. by subst.
Qed.

Lemma foldl_enumerate {A B : Type} (g : B -> Z -> A -> B) (h : A -> Z) (l : list A) :
  forall (e0 : B) (k0 : Z),
  (forall q x, l !! q = Some x -> h x = k0 + Z.of_nat q) ->
  foldl (fun e '(q, x) => g e q x) e0 (imap (fun q x => (k0 + Z.of_nat q, x)) l)
  = foldl (fun e x => g e (h x) x) e0 l.
Proof.
  induction l as [|x l IH]; intros e0 k0 Hh; [done|].
  cbn [imap foldl]. rewrite (Hh 0%nat x eq_refl).
  rewrite <- (IH _ (k0 + 1)).
  - f_equal. apply imap_ext. intros q y _. cbn. f_equal. lia.
  - intros q y Hq. rewrite (Hh (S q) y Hq). lia.
Qed.

Lemma foldl_ext_in {A B : Type} (f g : A -> B -> A) (l : list B) :
  (forall a b, b ∈ l -> f a b = g a b) -> forall a, foldl f a l = foldl g a l.
Proof.
  induction l as [|b l IH]; intros Hfg a; [done|].
  cbn [foldl]. rewrite Hfg by left. apply IH. intros a0 b0 Hb0. apply Hfg. by right.
Qed.

Section CouplingOrder.
Context `{Num F}.
Import Energy.
Local Open Scope num_scope.

(** [fast_sum] pairs the couplings with the spins in the order of the
    index service: on a system of at most 24 spins the product
    [s[i]*s[j]] is multiplied by the entry of [J] at
    [unravel_index((i,j), n)], the place of the pair in the table of
    pairwise correlations. *)
Theorem fast_sum_orders_couplings_as_unravel_index (J : list F) (s : list Z) :
  (Z.of_nat (length s) <= 24)%Z ->
  (Z.of_nat (length J)
   = Z.of_nat (length s) * (Z.of_nat (length s) - 1) / 2)%Z ->
  fast_sum J s
  = Ok (foldl (fun e '(i, j) =>
                 e + match Index.unravel_index [i; j] (Z.of_nat (length s)) with
                     | Ok k => default (of_Z 0) (J !! Z.to_nat k)
                     | Raise _ => of_Z 0
                     end
                     * of_Z (default 0%Z (s !! Z.to_nat i))
                     * of_Z (default 0%Z (s !! Z.to_nat j)))
          (of_Z 0) (Solver.pairs (Z.of_nat (length s)))).
Proof.
  intros Hn Hlen. rewrite fast_sum_closed by lia. f_equal.
  unfold Solver.enumerate.
  set (term := fun (e : F) (q : Z) (x : Z * Z) =>
    e + default (of_Z 0) (J !! Z.to_nat q)
        * of_Z (default 0%Z (s !! Z.to_nat x.1))
        * of_Z (default 0%Z (s !! Z.to_nat x.2))).
  set (h := fun x : Z * Z =>
    match Index.unravel_index [x.1; x.2] (Z.of_nat (length s)) with
    | Ok k => k
    | Raise _ => (-1)%Z
    end).
  transitivity (foldl (fun e '(q, x) => term e q x) (of_Z 0)
                  (imap (fun q x => ((0 + Z.of_nat q)%Z, x))
                     (Solver.pairs (Z.of_nat (length s))))).
  { apply foldl_ext_eq. intros e [q [i j]]. done. }
  rewrite (foldl_enumerate term h).
  - apply foldl_ext_in. intros e [i j] Hin. unfold term, h. cbn [fst snd].
    apply list_elem_of_lookup_1 in Hin as [q Hq].
    by rewrite (pairs_lookup_unravel _ q i j Hn Hq).
  - intros q [i j] Hq. unfold h. cbn [fst snd].
    rewrite (pairs_lookup_unravel _ q i j Hn Hq). lia.
Qed.

End CouplingOrder.

Lemma fast_sum_orders_couplings_as_unravel_index_witness :
  exists e, Energy.fast_sum [1; 2; 4]%Q [1; -1; 1] = Ok e.
Proof.
  eexists.
  exact (fast_sum_orders_couplings_as_unravel_index [1; 2; 4]%Q [1; -1; 1]
           ltac:(cbn; lia) eq_refl).
Defined.

(** ** Energies are linear in the parameters *)

Lemma mapM_Ok_map_in {A B : Type} (g : A -> result B) (f : A -> B) (l : list A) :
  (forall a, a ∈ l -> g a = Ok (f a)) -> mapM g l = Ok (map f l).
Proof.
  induction l as [|a l IH]; intros Hg; [done|].
  cbn. rewrite Hg by left. cbn. rewrite IH; [done|].
  intros a0 Ha0. apply Hg. by right.
Qed.

Section Linearity.
Import Energy Hessian.
Local Open Scope Q_scope.

Lemma foldl_add_map {X : Type} (t : X -> Q) (l : list X) (e0 : Q) :
  foldl (fun e x => add e (t x)) e0 l = foldl Qplus e0 (map t l).
Proof. revert e0. induction l as [|x l IH]; intros e0; [done|]. cbn. apply IH. Qed.

(** The energy of one state: the pair term and the field term, as sums. *)
Lemma energy_of_row (n : Z) (params : list Q) (row : list Z) :
  (0 <= n)%Z -> Z.of_nat (length row) = n ->
  Z.of_nat (length params) = (n + n * (n - 1) / 2)%Z ->
  fast_sum (slice_from params n) row
  = Ok (np_sum (map (fun '(q, (i, j)) =>
                  default 0 (params !! (Z.to_nat n + Z.to_nat q)%nat)
                  * inject_Z (default 0%Z (row !! Z.to_nat i))
                  * inject_Z (default 0%Z (row !! Z.to_nat j)))
          (Solver.enumerate (Solver.pairs n)))) /\
  field_sum row (slice_to params n)
  = Ok (np_sum (map (fun k => inject_Z (default 0%Z (row !! k)) * default 0 (params !! k))
                  (seq 0 (Z.to_nat n)))).
Proof.
  intros Hn Hrow Hlen.
  assert (Hpairs : (0 <= n * (n - 1) / 2)%Z).
  { rewrite <- length_pairs by done. lia. }
  split.
  - rewrite fast_sum_closed.
    + rewrite Hrow. f_equal. unfold np_sum.
      rewrite <- foldl_add_map. apply foldl_ext_eq. intros e [q [i j]].
      cbn [add mul of_Z Num_Q]. unfold slice_from.
      destruct (Z.ltb_spec n 0); [lia|]. by rewrite lookup_drop.
    + unfold slice_from. destruct (Z.ltb_spec n 0); [lia|].
      rewrite length_drop, Hrow. lia.
  - unfold field_sum, slice_to. destruct (Z.ltb_spec n 0); [lia|].
    rewrite length_take, (proj2 (Z.eqb_eq _ _)) by lia.
    f_equal. f_equal.
    apply list_eq. intros k.
    rewrite lookup_zip_with, list_lookup_fmap.
    destruct (decide (k < Z.to_nat n)%nat) as [Hk|Hk].
    + rewrite lookup_seq_lt by done. cbn.
      destruct (lookup_lt_is_Some_2 row k) as [x Hx]; [lia|].
      destruct (lookup_lt_is_Some_2 params k) as [y Hy]; [lia|].
      rewrite Hx, lookup_take_lt, Hy by done. done.
    + rewrite lookup_seq_ge by lia. cbn.
      rewrite (proj2 (lookup_ge_None row k)) by lia. done.
Qed.

Lemma default_lookup_plus (p q : list Q) (k : nat) :
  length p = length q ->
  default 0 (zip_with Qplus p q !! k) == default 0 (p !! k) + default 0 (q !! k).
Proof.
  intros Hlen. rewrite lookup_zip_with.
  destruct (p !! k) as [x|] eqn:Hp; cbn.
  - destruct (lookup_lt_is_Some_2 q k) as [y Hy].
    { rewrite <- Hlen. by eapply lookup_lt_Some. }
    rewrite Hy. cbn. reflexivity.
  - apply lookup_ge_None in Hp. rewrite Hlen in Hp. apply lookup_ge_None in Hp.
    rewrite Hp. cbn. ring.
Qed.

(** [calc_e] is additive in the parameters: in exact arithmetic the
    energies at [p + q] are the energies at [p] plus the energies at [q],
    state by state.  The estimators use it when they add
    [calc_e(allStates, dJ[i]*epsdJ)] to the energies at [hJ]. *)
Theorem calc_e_is_additive (n : Z) (s : list (list Z)) (p q : list Q) :
  (0 <= n)%Z ->
  Forall (fun row => Z.of_nat (length row) = n) s ->
  Z.of_nat (length p) = (n + n * (n - 1) / 2)%Z ->
  Z.of_nat (length q) = (n + n * (n - 1) / 2)%Z ->
  exists ep eq epq,
    calc_e n s p = Ok ep /\ calc_e n s q = Ok eq /\
    calc_e n s (zip_with Qplus p q) = Ok epq /\
    same_entries epq (zip_with Qplus ep eq).
Proof.
  intros Hn Hrows Hp Hq.
  assert (Hpq : Z.of_nat (length (zip_with Qplus p q)) = (n + n * (n - 1) / 2)%Z).
  { rewrite length_zip_with. lia. }
  rewrite Forall_forall in Hrows.
  assert (Hcalc : forall params,
            Z.of_nat (length params) = (n + n * (n - 1) / 2)%Z ->
            calc_e n s params
            = Ok (map (fun row =>
                    neg (np_sum (map (fun '(k, (i, j)) =>
                           default 0 (params !! (Z.to_nat n + Z.to_nat k)%nat)
                           * inject_Z (default 0%Z (row !! Z.to_nat i))
                           * inject_Z (default 0%Z (row !! Z.to_nat j)))
                         (Solver.enumerate (Solver.pairs n))))
                    - np_sum (map (fun k => inject_Z (default 0%Z (row !! k))
                                            * default 0 (params !! k))
                                (seq 0 (Z.to_nat n)))) s)).
  { intros params Hlen. unfold calc_e.
    rewrite (mapM_Ok_map_in (fast_sum (slice_from params n))
               (fun row => np_sum (map (fun '(k, (i, j)) =>
                           default 0 (params !! (Z.to_nat n + Z.to_nat k)%nat)
                           * inject_Z (default 0%Z (row !! Z.to_nat i))
                           * inject_Z (default 0%Z (row !! Z.to_nat j)))
                         (Solver.enumerate (Solver.pairs n))))).
    2:{ intros row Hin. by apply energy_of_row; [|apply Hrows|]. }
    cbn [mbind result_bind].
    rewrite (mapM_Ok_map_in (fun row => field_sum row (slice_to params n))
               (fun row => np_sum (map (fun k =>
                           inject_Z (default 0%Z (row !! k)) * default 0 (params !! k))
                         (seq 0 (Z.to_nat n))))).
    2:{ intros row Hin. by apply energy_of_row; [|apply Hrows|]. }
    cbn [mbind result_bind]. f_equal.
    rewrite zip_with_fmap_l, zip_with_fmap_r, zip_with_diag. done. }
  eexists _, _, _.
  split; [by apply Hcalc|]. split; [by apply Hcalc|]. split; [by apply Hcalc|].
  rewrite zip_with_fmap_l, zip_with_fmap_r, zip_with_diag.
  apply Forall2_fmap, Forall_Forall2_diag, Forall_forall.
  intros row Hrow. unfold neg. cbn [sub mul of_Z Num_Q].
  assert (Hlen : length p = length q) by lia.
  rewrite (np_sum_map_ext _
             (fun x => (let '(k, (i, j)) := x in
                        default 0 (p !! (Z.to_nat n + Z.to_nat k)%nat)
                        * inject_Z (default 0%Z (row !! Z.to_nat i))
                        * inject_Z (default 0%Z (row !! Z.to_nat j)))
                       + (let '(k, (i, j)) := x in
                          default 0 (q !! (Z.to_nat n + Z.to_nat k)%nat)
                          * inject_Z (default 0%Z (row !! Z.to_nat i))
                          * inject_Z (default 0%Z (row !! Z.to_nat j))))).
  2:{ intros [k [i j]]. rewrite default_lookup_plus by done. ring. }
  rewrite np_sum_map_plus.
  rewrite (np_sum_map_ext
             (fun k => inject_Z (default 0%Z (row !! k))
                       * default 0 (zip_with Qplus p q !! k))
             (fun k => inject_Z (default 0%Z (row !! k)) * default 0 (p !! k)
                       + inject_Z (default 0%Z (row !! k)) * default 0 (q !! k))).
  2:{ intros k. rewrite default_lookup_plus by done. ring. }
  rewrite np_sum_map_plus.
  change (inject_Z (-1)) with (-1). ring.
Qed.

End Linearity.

Lemma calc_e_is_additive_witness :
  exists ep eq epq,
    Energy.calc_e 2 [[1; -1]; [1; 1]] [1; 2; 3]%Q = Ok ep /\
    Energy.calc_e 2 [[1; -1]; [1; 1]] [4; 0; 1]%Q = Ok eq /\
    Energy.calc_e 2 [[1; -1]; [1; 1]] (zip_with Qplus [1; 2; 3] [4; 0; 1])%Q = Ok epq /\
    same_entries epq (zip_with Qplus ep eq).
Proof.
  apply calc_e_is_additive; [lia|repeat constructor|reflexivity|reflexivity].
Defined.

(** ** Instances *)


Lemma dkl_serial_entries_witness :
  exists hess,
    Hessian._dkl_curvature Traces.flat_diag Traces.flat_off_diag 2 (Some 1) false 1%Q
    = Ok hess.
Proof.
  destruct (dkl_serial_entries Traces.flat_diag Traces.flat_off_diag 2 (Some 1)
              false 1%Q eq_refl) as (hess & Hrun & _).
  exists hess. exact Hrun.
Defined.

Lemma dkl_parallel_entries_witness :
  exists hess,
    Hessian._dkl_curvature Traces.flat_diag Traces.flat_off_diag 2 None true 1%Q
    = Ok hess.
Proof.
  destruct (dkl_parallel_entries Traces.flat_diag Traces.flat_off_diag 2 None
              1%Q eq_refl) as (hess & Hrun & _).
  exists hess. exact Hrun.
Defined.



(** ** The transition matrix of a spin replacement *)

Section BinaryStrings.
Import Transition.

Lemma fold_binary (s : list ascii) (acc : Z) :
  fold_left (fun acc c => 2 * acc + (if Ascii.eqb c "1" then 1 else 0)) s acc
  = acc * 2 ^ Z.of_nat (length s) + binary_value s.
Proof.
  unfold binary_value. revert acc.
  induction s as [|c s IH]; intros acc.
  - cbn. lia.
  - cbn [fold_left length]. rewrite IH, (IH (2 * 0 + _)).
    rewrite Nat2Z.inj_succ, Z.pow_succ_r by lia. lia.
Qed.

Lemma binary_value_app (l1 l2 : list ascii) :
  binary_value (l1 ++ l2)
  = binary_value l1 * 2 ^ Z.of_nat (length l2) + binary_value l2.
Proof.
  unfold binary_value at 1. rewrite fold_left_app.
  fold (binary_value l1). apply fold_binary.
Qed.

Lemma binary_value_cons (c : ascii) (l : list ascii) :
  binary_value (c :: l)
  = (if Ascii.eqb c "1" then 1 else 0) * 2 ^ Z.of_nat (length l) + binary_value l.
Proof. unfold binary_value at 1. cbn [fold_left]. by rewrite fold_binary. Qed.

Lemma binary_value_bounds (s : list ascii) :
  0 <= binary_value s < 2 ^ Z.of_nat (length s).
Proof.
  induction s as [|c s IH]; [cbn; lia|].
  rewrite binary_value_cons. cbn [length].
  rewrite Nat2Z.inj_succ, Z.pow_succ_r by lia.
  destruct (Ascii.eqb c "1"); lia.
Qed.

Lemma int2_binary (s : list ascii) :
  s <> [] -> is_binary s -> int2 s = Ok (binary_value s).
Proof.
  intros Hne Hs. unfold int2, binary_value.
  destruct s as [|c0 s0]; [done|]. clear Hne.
  assert (Hgen : forall (l : list ascii) (acc : Z), is_binary l ->
            foldM (fun acc c => d ← digit c; Ok (2 * acc + d)) acc l
            = Ok (fold_left (fun acc c => 2 * acc + (if Ascii.eqb c "1" then 1 else 0))
                    l acc)).
  { clear. induction l as [|c l IH]; intros acc Hs; [done|].
    apply Forall_cons in Hs as [Hc Hs]. cbn [foldM fold_left].
    unfold digit. destruct Hc as [->| ->]; cbn; by rewrite IH. }
  by apply Hgen.
Qed.

Lemma bin_pos_binary (p : positive) : is_binary (bin_pos p).
Proof.
  unfold is_binary.
  induction p as [p IH|p IH|]; cbn [bin_pos].
  - apply Forall_app. split; [done|]. apply Forall_singleton. by right.
  - apply Forall_app. split; [done|]. apply Forall_singleton. by left.
  - apply Forall_singleton. by right.
Qed.

Lemma bin_pos_value (p : positive) : binary_value (bin_pos p) = Z.pos p.
Proof.
  induction p as [p IH|p IH|]; cbn [bin_pos]; [| |done].
  - rewrite binary_value_app, IH. cbn. lia.
  - rewrite binary_value_app, IH. cbn. lia.
Qed.

Lemma bin_pos_length (p : positive) :
  2 ^ (Z.of_nat (length (bin_pos p)) - 1) <= Z.pos p.
Proof.
  induction p as [p IH|p IH|]; cbn [bin_pos]; [| |done].
  - rewrite length_app. cbn [length]. rewrite Nat2Z.inj_add.
    replace (Z.of_nat (length (bin_pos p)) + Z.of_nat 1 - 1)
      with (Z.succ (Z.of_nat (length (bin_pos p)) - 1)) by lia.
    assert (0 < length (bin_pos p))%nat by (destruct p; cbn; rewrite ?length_app; cbn; lia).
    rewrite Z.pow_succ_r by lia. lia.
  - rewrite length_app. cbn [length]. rewrite Nat2Z.inj_add.
    replace (Z.of_nat (length (bin_pos p)) + Z.of_nat 1 - 1)
      with (Z.succ (Z.of_nat (length (bin_pos p)) - 1)) by lia.
    assert (0 < length (bin_pos p))%nat by (destruct p; cbn; rewrite ?length_app; cbn; lia).
    rewrite Z.pow_succ_r by lia. lia.
Qed.

(** The string of a state: [n] binary digits that denote [ix]. *)
Lemma state_string (n ix : Z) :
  1 <= n -> 0 <= ix < 2 ^ n ->
  Z.of_nat (length (zfill (bin_tail ix) n)) = n /\
  is_binary (zfill (bin_tail ix) n) /\
  binary_value (zfill (bin_tail ix) n) = ix.
Proof.
  intros Hn Hix. unfold zfill.
  assert (Hlen : Z.of_nat (length (bin_tail ix)) <= n).
  { destruct ix as [|p|p]; [cbn; lia| |lia]. cbn [bin_tail].
    pose proof (bin_pos_length p) as Hp.
    destruct (Z.le_gt_cases (Z.of_nat (length (bin_pos p))) n) as [|Hgt]; [done|].
    assert (2 ^ n <= 2 ^ (Z.of_nat (length (bin_pos p)) - 1))
      by (apply Z.pow_le_mono_r; lia).
    lia. }
  assert (Hbin : is_binary (bin_tail ix)).
  { destruct ix as [|p|p]; [|apply bin_pos_binary|lia].
    apply Forall_singleton. by left. }
  assert (Hval : binary_value (bin_tail ix) = ix).
  { destruct ix as [|p|p]; [done|apply bin_pos_value|lia]. }
  split; [|split].
  - rewrite length_app, length_replicate. lia.
  - apply Forall_app. split; [|done].
    apply Forall_replicate. by left.
  - rewrite binary_value_app, Hval.
    assert (Hz : forall k, binary_value (replicate k "0"%char) = 0).
    { induction k as [|k IH]; [done|]. cbn [replicate].
      rewrite binary_value_cons, IH. cbn. lia. }
    rewrite Hz. lia.
Qed.

End BinaryStrings.

Lemma range_invariant {S : Type} (step : S -> Z -> result S) (Inv : Z -> S -> Prop)
    (a b : Z) :
  a <= b ->
  (forall m st, a <= m < b -> Inv m st ->
     exists st', step st m = Ok st' /\ Inv (m + 1) st') ->
  forall st, Inv a st -> exists st', foldM step st (py_range a b) = Ok st' /\ Inv b st'.
Proof.
  intros Hab Hstep.
  remember (Z.to_nat (b - a)) as k eqn:Hk. revert a Hab Hstep Hk.
  induction k as [|k IH]; intros a Hab Hstep Hk st Hst.
  - rewrite py_range_nil by lia. exists st. split; [done|].
    by replace b with a by lia.
  - rewrite py_range_cons by lia. cbn [foldM].
    destruct (Hstep a st) as (st1 & Hrun & Hinv); [lia|done|].
    rewrite Hrun. cbn. apply (IH (a + 1)); [lia| |lia|done].
    intros m st0 Hm. apply Hstep. lia.
Qed.

Section TransitionFacts.
Context `{Num F}.
Import Transition.
Local Open Scope num_scope.

(** What one state contributes: its diagonal entry alone when spins i
    and j agree in it, and otherwise the diagonal entry [1-eps] and the
    entry [eps] in the row of the state with spin i flipped. *)
Lemma transition_step_block (n i j : Z) (eps : F) (rows cols : list Z)
    (vals : list F) (ix : Z) :
  (1 <= n)%Z -> (0 <= i < n)%Z -> (0 <= j < n)%Z -> (0 <= ix < 2 ^ n)%Z ->
  transition_step n i j eps (rows, cols, vals) ix
    = Ok (rows ++ [ix], cols ++ [ix], vals ++ [of_Z 1]) \/
  exists r, (0 <= r < 2 ^ n)%Z /\ Z.abs (r - ix) = (2 ^ (n - 1 - i))%Z /\
    transition_step n i j eps (rows, cols, vals) ix
    = Ok (rows ++ [ix; r], cols ++ [ix; ix], vals ++ [of_Z 1 - eps; eps]).
Proof.
  intros Hn Hi Hj Hix. unfold transition_step.
  destruct (state_string n ix Hn Hix) as (Hlen & Hbin & Hval).
  set (s := zfill (bin_tail ix) n) in *.
  destruct (lookup_lt_is_Some_2 s (Z.to_nat i)) as [si Hsi]; [lia|].
  destruct (lookup_lt_is_Some_2 s (Z.to_nat j)) as [sj Hsj]; [lia|].
  rewrite (getitem_Ok s i si), (getitem_Ok s j sj); [|lia|done|lia|done].
  cbn [mbind result_bind].
  destruct (Ascii.eqb si sj); [by left|]. right.
  unfold slice_to, slice_from.
  destruct (Z.ltb_spec i 0); [lia|]. destruct (Z.ltb_spec (i + 1) 0); [lia|].
  replace (Z.to_nat (i + 1)) with (Datatypes.S (Z.to_nat i)) by lia.
  set (l1 := take (Z.to_nat i) s). set (l2 := drop (Datatypes.S (Z.to_nat i)) s).
  assert (Hs : s = l1 ++ si :: l2) by (symmetry; by apply take_drop_middle).
  assert (Hl2 : Z.of_nat (length l2) = (n - 1 - i)%Z).
  { unfold l2. rewrite length_drop. lia. }
  assert (Hl1 : Z.of_nat (length l1) = i).
  { unfold l1. rewrite length_take. lia. }
  assert (Hb1 : is_binary l1) by (apply Forall_take, Hbin).
  assert (Hb2 : is_binary l2) by (apply Forall_drop, Hbin).
  assert (Hsi' : si = "0"%char \/ si = "1"%char).
  { unfold is_binary in Hbin. rewrite Forall_forall in Hbin. apply Hbin.
    by eapply list_elem_of_lookup_2. }
  set (flipped := if Ascii.eqb si "0" then "1"%char else "0"%char).
  assert (Hbin' : is_binary (l1 ++ [flipped] ++ l2)).
  { apply Forall_app. split; [done|]. apply Forall_app. split; [|done].
    apply Forall_singleton. unfold flipped. destruct (Ascii.eqb si "0"); auto. }
  rewrite int2_binary; [|by destruct l1|done].
  cbn [mbind result_bind].
  exists (binary_value (l1 ++ [flipped] ++ l2)).
  split; [|split; [|done]].
  - pose proof (binary_value_bounds (l1 ++ [flipped] ++ l2)) as Hb.
    rewrite !length_app in Hb. cbn [length] in Hb.
    replace (Z.of_nat (length l1 + (1 + length l2))) with n in Hb by lia. done.
  - rewrite <- Hval, Hs.
    rewrite !binary_value_app. cbn [app]. rewrite !binary_value_cons.
    cbn [length]. rewrite Hl2.
    assert (0 < 2 ^ (n - 1 - i))%Z by (apply Z.pow_pos_nonneg; lia).
    unfold flipped. destruct Hsi' as [-> | ->]; cbn; lia.
Qed.

End TransitionFacts.

Section ColumnSums.
Import Transition Hessian.
Local Open Scope Q_scope.

Lemma np_sum_app (l1 l2 : list Q) : np_sum (l1 ++ l2) == np_sum l1 + np_sum l2.
Proof. unfold np_sum. rewrite foldl_app. cbn [add Num_Q]. apply foldl_Qplus. Qed.

Lemma column_sum_app (c : Z) (cols cb : list Z) (vals vb : list Q) :
  length cols = length vals ->
  np_sum (omap (fun '(c', v) => if (c' =? c)%Z then Some v else None)
            (zip (cols ++ cb) (vals ++ vb)))
  == np_sum (omap (fun '(c', v) => if (c' =? c)%Z then Some v else None)
               (zip cols vals))
     + np_sum (omap (fun '(c', v) => if (c' =? c)%Z then Some v else None)
                 (zip cb vb)).
Proof.
  intros Hlen. rewrite zip_with_app by done.
  rewrite omap_app. apply np_sum_app.
Qed.


End ColumnSums.


(** Every entry of the matrix that [jit_spin_replace_transition_matrix]
    returns is either on the diagonal, with value [1] or [1-eps], or has
    value [eps] and joins two states whose numbers differ by
    [2^(n-1-i)], the weight of spin i in the binary string: probability
    moves only between states that differ in spin i. *)
Theorem transition_matrix_flips_spin_i `{Num F} (n i j : Z) (eps : F) :
  1 <= n -> 0 <= i < n -> 0 <= j < n ->
  exists rows cols vals,
    Transition.jit_spin_replace_transition_matrix n i j eps = Ok (rows, cols, vals) /\
    Forall (fun '(r, c, v) =>
              (r = c /\ (v = of_Z 1 \/ v = sub (of_Z 1) eps)) \/
              (v = eps /\ Z.abs (r - c) = 2 ^ (n - 1 - i)))
      (zip (zip rows cols) vals).
Proof.
  intros Hn Hi Hj. unfold Transition.jit_spin_replace_transition_matrix.
  destruct (Z.ltb_spec n 0); [lia|]. unfold range.
  assert (Hpow : 0 < 2 ^ n) by (apply Z.pow_pos_nonneg; lia).
  destruct (range_invariant (Transition.transition_step n i j eps)
              (fun (m : Z) '(rows, cols, vals) =>
                 length rows = length vals /\ length cols = length vals /\
                 Forall (fun '(r, c, v) =>
                           (r = c /\ (v = of_Z 1 \/ v = sub (of_Z 1) eps)) \/
                           (v = eps /\ Z.abs (r - c) = 2 ^ (n - 1 - i)))
                   (zip (zip rows cols) vals))
              0 (2 ^ n)) with (st := (([] : list Z), ([] : list Z), ([] : list F)))
    as ([[rows cols] vals] & Hrun & _ & _ & Hall).
  - lia.
  - intros m [[rows cols] vals] Hm (Hr & Hc & Hall).
    destruct (transition_step_block n i j eps rows cols vals m)
      as [Hstep|(r & _ & Habs & Hstep)]; [lia..| |].
    + eexists. split; [exact Hstep|]. cbv beta iota.
      rewrite !length_app. cbn [length].
      split; [lia|]. split; [lia|].
      rewrite !zip_with_app by (rewrite ?length_zip_with; lia).
      apply Forall_app. split; [done|]. apply Forall_singleton. left. auto.
    + eexists. split; [exact Hstep|]. cbv beta iota.
      rewrite !length_app. cbn [length].
      split; [lia|]. split; [lia|].
      rewrite !zip_with_app by (rewrite ?length_zip_with; lia).
      apply Forall_app. split; [done|].
      apply Forall_cons_2; [left; auto|].
      apply Forall_singleton. right. auto.
  - cbn. repeat split; constructor.
  - by exists rows, cols, vals.
Qed.

Lemma transition_matrix_flips_spin_i_witness :
  exists rows cols vals,
    Transition.jit_spin_replace_transition_matrix 2 0 1 (1 # 4)%Q
    = Ok (rows, cols, vals).
Proof.
  destruct (transition_matrix_flips_spin_i (F := Q) 2 0 1 (1 # 4)%Q
              ltac:(lia) ltac:(lia) ltac:(lia))
    as (rows & cols & vals & Hrun & _).
  exists rows, cols, vals. exact Hrun.
Defined.

(** ** The pairwise energy does not see a flip of all spins *)

Lemma foldl_Qeq {A : Type} (f g : Q -> A -> Q) (l : list A) (a a' : Q) :
  (a == a')%Q ->
  (forall e e' x, (e == e')%Q -> (f e x == g e' x)%Q) ->
  (foldl f a l == foldl g a' l)%Q.
Proof.
  intros Ha Hfg. revert a a' Ha.
  induction l as [|x l IH]; intros a a' Ha; [done|].
  cbn. apply IH. by apply Hfg.
Qed.

(** In exact arithmetic [fast_sum(J, -s)] is [fast_sum(J, s)]: each term
    holds the product of two spins, so the pairwise energy of a state is
    that of the state with every spin flipped. *)
Theorem fast_sum_is_even (J : list Q) (s : list Z) :
  (Z.of_nat (length s) * (Z.of_nat (length s) - 1) / 2 <= Z.of_nat (length J))%Z ->
  exists e e',
    Energy.fast_sum J s = Ok e /\
    Energy.fast_sum J (map Z.opp s) = Ok e' /\
    (e == e')%Q.
Proof.
  intros Hlen.
  rewrite (fast_sum_closed J (map Z.opp s)) by (by rewrite length_map).
  rewrite (fast_sum_closed J s) by done.
  rewrite length_map.
  eexists _, _. split; [reflexivity|]. split; [reflexivity|].
  apply foldl_Qeq; [reflexivity|].
  intros e e' [q [i j]] He. rewrite !list_lookup_fmap.
  cbn [of_Z add mul Num_Q]. rewrite He.
  destruct (s !! Z.to_nat i) as [a|], (s !! Z.to_nat j) as [b|];
    cbn [fmap option_fmap option_map default];
    unfold id; rewrite ?inject_Z_opp; change (inject_Z 0) with 0%Q; ring.
Qed.

Lemma fast_sum_is_even_witness :
  exists e e',
    Energy.fast_sum [1; 2; 4]%Q [1; -1; 1] = Ok e /\
    Energy.fast_sum [1; 2; 4]%Q (map Z.opp [1; -1; 1]) = Ok e' /\
    (e == e')%Q.
Proof.
  apply fast_sum_is_even. by vm_compute.
Defined.
